(** * Wordle-Solver: feedback encoder, candidate filter, guess selector,
      hard-mode checker and simulation harness

    A shallow embedding of [solver.py], [helper.py], [solver_hard_mode.py],
    [average_score_calculator.py], [average_score_calculator_hard_mode.py]
    and [optimize_cache_hard_mode.py].

    Conventions of the embedding
    - a Python [str] is a [string]; a one-character string is an [ascii]
      (the word lists are ASCII);
    - a Python exception is a [Raise e] result, a normal return is [Ok v];
    - module-level globals that a function mutates ([_precomputed_patterns],
      [_cache_dirty]) are threaded explicitly as a [state];
    - module-level globals that are only read ([possible_answers],
      [allowed_guesses], the pickled first-guess cache, the word file that
      [read_word_list] re-reads) are parameters;
    - what a function reads from outside ([input()], the lines of a file,
      the unpickled cache file) is a parameter; a [while True] loop is
      bounded by a [fuel] argument and yields [None] when it is used up;
    - a [dict] used as a map is a [gmap]; a [dict] whose iteration order is
      observed ([pattern_counts.values()]) is an association list in
      insertion order; a [set] is a [gset];
    - the functions that score guesses are written over a [Runtime], the
      score arithmetic and the order of [list(set(...))]; the arithmetic the
      program runs with is [binary64_runtime] (IEEE binary64), and
      [exact_runtime] evaluates the same formula over the rationals. *)

From Stdlib Require Import Ascii QArith.
From Stdlib Require SpecFloat.
From stdpp Require Import gmap strings list fin_maps.

#[local] Set Warnings "-clear-no-such-hyp".
#[local] Open Scope nat_scope.

(* ===================================================================== *)
(** * Python runtime fragments                                            *)
(* ===================================================================== *)

Module Py.

(** The exceptions the embedded code can raise. *)
Inductive exn : Type :=
| IndexError   (* sequence index out of range *)
| KeyError     (* missing dict key *)
| ValueError.  (* raise ValueError(...), or a failed tuple unpacking *)

Inductive result (A : Type) : Type :=
| Ok (a : A)
| Raise (e : exn).
Arguments Ok {A} a.
Arguments Raise {A} e.

#[global] Instance exn_eq_dec : EqDecision exn.
Proof. solve_decision. Defined.

#[global] Instance result_eq_dec `{EqDecision A} : EqDecision (result A).
Proof. solve_decision. Defined.

#[global] Instance result_ret : MRet result := @Ok.

#[global] Instance result_bind : MBind result := λ A B f r,
  match r with
  | Ok a => f a
  | Raise e => Raise e
  end.

Definition is_Ok {A} (r : result A) : Prop := ∃ a, r = Ok a.

(** [list(s)] and [''.join(l)] *)
Definition chars (s : string) : list ascii :=
  Strings.String.list_ascii_of_string s.

Definition join (l : list ascii) : string :=
  Strings.String.string_of_list_ascii l.

(** [len(s)] *)
Definition len (s : string) : nat := Strings.String.length s.

(** [s[i]] for a string and a non-negative index *)
Definition str_index (s : string) (i : nat) : result ascii :=
  match Strings.String.get i s with
  | Some c => Ok c
  | None => Raise IndexError
  end.

(** [l[i]] for a list and a non-negative index *)
Definition index {A} (l : list A) (i : nat) : result A :=
  match l !! i with
  | Some x => Ok x
  | None => Raise IndexError
  end.

(** [l[i] = x]: Python raises out of range, where stdpp's insert is silent *)
Definition assign {A} (l : list A) (i : nat) (x : A) : result (list A) :=
  if decide (i < length l) then Ok (<[i:=x]> l) else Raise IndexError.

(** [for x in xs: s = body(s, x)] with exceptions propagating *)
Fixpoint for_each {A S} (body : S → A → result S) (xs : list A) (s : S)
  : result S :=
  match xs with
  | [] => Ok s
  | x :: xs' => s' ← body s x; for_each body xs' s'
  end.

(** [[x for x in xs if p(x)]] where the test may raise *)
Fixpoint filter_comp {A} (p : A → result bool) (xs : list A)
  : result (list A) :=
  match xs with
  | [] => Ok []
  | x :: xs' =>
      b ← p x;
      rest ← filter_comp p xs';
      Ok (if b : bool then x :: rest else rest)
  end.

(** [zip(a, b)] stops at the shorter argument *)
Definition zip {A B} (a : list A) (b : list B) : list (A * B) :=
  base.zip a b.

(** [range(n)] and [range(a, b)] *)
Definition range (n : nat) : list nat := seq 0 n.
Definition range_from (a b : nat) : list nat := seq a (b - a).

(** [enumerate(l)] *)
Definition enumerate {A} (l : list A) : list (nat * A) :=
  base.zip (seq 0 (length l)) l.

(** ** String methods

    A character is a code point below U+0100, as in the word files. *)

(** [c.isspace()] for a character below U+0100 *)
Definition isspace (c : ascii) : bool :=
  let n := nat_of_ascii c in
  (9 <=? n) && (n <=? 13) || (28 <=? n) && (n <=? 32) || (n =? 133) || (n =? 160).

(** [s.lstrip()], [s.rstrip()] and [s.strip()] on the characters *)
Fixpoint lstrip (l : list ascii) : list ascii :=
  match l with
  | [] => []
  | c :: rest => if isspace c then lstrip rest else l
  end.

Fixpoint rstrip (l : list ascii) : list ascii :=
  match l with
  | [] => []
  | c :: rest =>
      match rstrip rest with
      | [] => if isspace c then [] else [c]
      | kept => c :: kept
      end
  end.

Definition strip (s : string) : string := join (rstrip (lstrip (chars s))).

(** [s.lower()] for characters below U+0100: A-Z and the capital letters
    U+00C0-U+00DE (not the sign U+00D7) move up by 32 *)
Definition lower_char (c : ascii) : ascii :=
  let n := nat_of_ascii c in
  if (65 <=? n) && (n <=? 90) || (192 <=? n) && (n <=? 222) && negb (n =? 215)
  then ascii_of_nat (n + 32) else c.

Definition lower (s : string) : string := join (lower_char <$> chars s).

(** the line terminator of a text file read in text mode *)
Definition newline : string := String "010"%char EmptyString.

End Py.
Import Py.

(** A Word of the data model: a string of the fixed length 5. *)
Definition is_word (w : string) : Prop := len w = 5.

#[global] Instance is_word_dec w : Decision (is_word w).
Proof. unfold is_word. apply _. Defined.

(* ===================================================================== *)
(** * Feedback Encoder                                                    *)
(* ===================================================================== *)

(** [get_feedback] has the same text in [solver.py] (lines 23-45) and in
    [helper.py] (lines 21-43); [lru_cache] memoises a pure function and is
    not modelled.  The loop state is the pair of the two local lists
    [feedback] and [answer_copy]; [None] entries of [answer_copy] are the
    consumed letters. *)
Module Feedback.

Definition locals : Type := list ascii * list (option ascii).

(** Body of the first loop:
    [if guess[i] == answer[i]: feedback[i] = '2'; answer_copy[i] = None] *)
Definition first_pass_body (guess answer : string) (st : locals) (i : nat)
  : result locals :=
  g ← str_index guess i;
  a ← str_index answer i;
  if decide (g = a) then
    feedback ← assign st.1 i "2"%char;
    answer_copy ← assign st.2 i None;
    Ok (feedback, answer_copy)
  else Ok st.

(** The inner loop
    [for j in range(5): if answer_copy[j] == c: answer_copy[j] = None; break] *)
Fixpoint consume (js : list nat) (c : ascii) (answer_copy : list (option ascii))
  : result (list (option ascii)) :=
  match js with
  | [] => Ok answer_copy
  | j :: js' =>
      x ← index answer_copy j;
      if decide (x = Some c) then assign answer_copy j None
      else consume js' c answer_copy
  end.

(** Body of the second loop:
    [if feedback[i] == '0' and guess[i] in answer_copy: ...] *)
Definition second_pass_body (guess : string) (st : locals) (i : nat)
  : result locals :=
  f ← index st.1 i;
  if decide (f = "0"%char) then
    g ← str_index guess i;
    if decide (Some g ∈ st.2) then
      feedback ← assign st.1 i "1"%char;
      answer_copy ← consume (range 5) g st.2;
      Ok (feedback, answer_copy)
    else Ok st
  else Ok st.

Definition get_feedback (guess answer : string) : result string :=
  let feedback := replicate 5 "0"%char in
  let answer_copy := Some <$> chars answer in
  st1 ← for_each (first_pass_body guess answer) (range 5) (feedback, answer_copy);
  st2 ← for_each (second_pass_body guess) (range 5) st1;
  Ok (join st2.1).

End Feedback.
Import Feedback.


(* ===================================================================== *)
(** * Solver: pattern cache, candidate filter, guess selector ([solver.py]) *)
(* ===================================================================== *)

(** What the interpreter supplies: the arithmetic of the score (Python
    evaluates [count/total], [* count] and [sum] in binary64 floating point)
    and the order in which [list(set(...))] enumerates a set of strings (it
    depends on string hashing).  The functions are written once over this
    interface.  [binary64_runtime] is the arithmetic the program runs with;
    [exact_runtime] evaluates the same expressions over the rationals. *)
Class Runtime : Type := {
  num : Type;
  true_div : nat → nat → num;        (* [count / total] on two ints *)
  mul_int : num → nat → num;         (* [x * count] *)
  sum_nums : list num → num;         (* [sum(...)] over the terms in order *)
  num_lt : num → num → bool;         (* [<] *)
  num_eq : num → num → bool;         (* [==] *)
  list_of_set : list string → list string;  (* [list(set(l))] *)
}.

(** The laws of an exact arithmetic: [<] and [==] compare the scores as a
    total preorder, and [list(set(l))] lists the elements of [l] once each.
    [exact_runtime] obeys them.  Binary64 does not as they stand (NaN is not
    equal to itself); it obeys them on the values a score can take, which
    are never NaN ([binary64_score_nonneg], [binary64_select_minimal]).  A
    theorem that assumes these laws holds of every arithmetic that obeys
    them; what the program's own arithmetic yields is stated with
    [binary64_runtime]. *)
Class RuntimeLaws (R : Runtime) : Prop := {
  num_eq_refl x : num_eq x x = true;
  num_eq_sym x y : num_eq x y = true → num_eq y x = true;
  num_lt_trans x y z : num_lt x y = true → num_lt y z = true → num_lt x z = true;
  num_lt_eq_l x y z : num_eq x y = true → num_lt x z = true → num_lt y z = true;
  num_lt_eq_r x y z : num_eq x y = true → num_lt z x = true → num_lt z y = true;
  num_lt_not_eq x y : num_lt x y = true → num_eq x y = false;
  num_total x y : num_lt x y = false → num_eq x y = false → num_lt y x = true;
  list_of_set_NoDup l : NoDup (list_of_set l);
  list_of_set_elem l x : x ∈ list_of_set l ↔ x ∈ l;
}.

Module Solver.

(** The two module globals the functions write. *)
Record state : Type := State {
  precomputed_patterns : gmap string (gmap string string);
  cache_dirty : bool;
}.

(** The module globals [minimax_entropy] only reads: the unpickled
    first-guess cache ([None] when the file was absent or unreadable) and
    the words [read_word_list('possible_wordle_answers.txt')] returns. *)
Record env : Type := Env {
  first_guess_cache : option (gmap string string);
  answers_file : list string;
}.

(** Lines 92-97 and 151-155, the same text in both functions:
    [if word not in P: P[word] = {}]
    [if guess not in P[word]: P[word][guess] = get_feedback(guess, word); dirty = True]
    followed by the read of [P[word][guess]]. *)
Definition cache_fill (st : state) (word guess : string)
  : result (string * state) :=
  let P := precomputed_patterns st in
  let P1 := match P !! word with
            | None => <[word := ∅]> P
            | Some _ => P
            end in
  let row := default ∅ (P1 !! word) in
  match row !! guess with
  | Some p => Ok (p, State P1 (cache_dirty st))
  | None =>
      p ← get_feedback guess word;
      Ok (p, State (<[word := <[guess := p]> row]> P1) true)
  end.

Section Filter.
(** the module global [possible_answers] *)
Variable possible_answers : list string.

(** Lines 91-99: one iteration of [for word in filtered_answers] *)
Definition keep_cached (guess feedback : string)
    (acc : list string * state) (word : string)
  : result (list string * state) :=
  '(p, st') ← cache_fill acc.2 word guess;
  Ok (if decide (p = feedback) then acc.1 ++ [word] else acc.1, st').

(** Lines 87-106: one iteration of [for guess, feedback in zip(...)] *)
Definition filter_round (acc : list string * state) (gf : string * string)
  : result (list string * state) :=
  let filtered_answers := acc.1 in
  let st := acc.2 in
  if decide (precomputed_patterns st ≠ ∅) then
    for_each (keep_cached gf.1 gf.2) filtered_answers ([], st)
  else
    new ← filter_comp
             (λ word, p ← get_feedback gf.1 word; Ok (bool_decide (p = gf.2)))
             filtered_answers;
    Ok (new, st).

Definition filter_possible_answers (st : state)
    (guesses feedbacks : list string) : result (list string * state) :=
  for_each filter_round (zip guesses feedbacks) (possible_answers, st).
End Filter.

(** Lines 125-129: the precomputed first guess.  [Some fg] when the
    function returns [fg] from there, [None] when it falls through. *)
Definition first_guess (E : env) (possible_answers allowed_guesses : list string)
  : option string :=
  match first_guess_cache E with
  | Some fgc =>
      if decide (fgc ≠ ∅
                 ∧ length possible_answers = length possible_answers
                 ∧ list_to_set possible_answers
                   =@{gset string} list_to_set (answers_file E))
      then match fgc !! "minimax_entropy" with
           | Some fg =>
               if decide (fg ≠ "" ∧ (fg ∈ allowed_guesses ∨ fg ∈ possible_answers))
               then Some fg else None
           | None => None
           end
      else None
  | None => None
  end.

(** [pattern_counts[pattern] = pattern_counts.get(pattern, 0) + 1] on a
    dict kept in insertion order *)
Fixpoint bump (pattern : string) (pattern_counts : list (string * nat))
  : list (string * nat) :=
  match pattern_counts with
  | [] => [(pattern, 1)]
  | (p, c) :: rest =>
      if decide (p = pattern) then (p, c + 1) :: rest
      else (p, c) :: bump pattern rest
  end.

Section Selector.
Context {R : Runtime}.

(** Lines 150-157 and 160-162: the inner loop over the answers *)
Definition count_cached (guess : string)
    (acc : list (string * nat) * state) (answer : string)
  : result (list (string * nat) * state) :=
  '(pattern, st') ← cache_fill acc.2 answer guess;
  Ok (bump pattern acc.1, st').

Definition count_plain (guess : string)
    (acc : list (string * nat) * state) (answer : string)
  : result (list (string * nat) * state) :=
  pattern ← get_feedback guess answer;
  Ok (bump pattern acc.1, acc.2).

(** Lines 164-165 *)
Definition expected_of (pattern_counts : list (string * nat)) : num :=
  let values := pattern_counts.*2 in
  let total := sum_list values in
  sum_nums ((λ count, mul_int (true_div count total) count) <$> values).

(** The selection state: [best_score] ([None] is [float('inf')], which
    every score of a non-empty candidate list is below), [best_guesses]
    and the globals. *)
Definition selection : Type := option num * list string * state.

(** Lines 145-170: one iteration of [for guess in guess_pool] *)
Definition score_guess (possible_answers : list string)
    (sel : selection) (guess : string) : result selection :=
  let '(best_score, best_guesses, st) := sel in
  '(pattern_counts, st') ←
    (if decide (precomputed_patterns st ≠ ∅)
     then for_each (count_cached guess) possible_answers ([], st)
     else for_each (count_plain guess) possible_answers ([], st));
  let expected := expected_of pattern_counts in
  match best_score with
  | None => Ok (Some expected, [guess], st')
  | Some best =>
      if num_lt expected best then Ok (Some expected, [guess], st')
      else if num_eq expected best then Ok (best_score, best_guesses ++ [guess], st')
      else Ok (best_score, best_guesses, st')
  end.

(** Lines 175-179 *)
Definition pick (best_guesses possible_answers : list string) : result string :=
  match list_find (λ guess, guess ∈ possible_answers) best_guesses with
  | Some (_, guess) => Ok guess
  | None => index best_guesses 0
  end.

Definition guess_pool (possible_answers allowed_guesses : list string)
  : list string :=
  if decide (length possible_answers ≤ 2) then possible_answers
  else list_of_set (allowed_guesses ++ possible_answers).

Definition minimax_entropy (E : env) (st : state)
    (possible_answers allowed_guesses : list string)
  : result (string * state) :=
  match first_guess E possible_answers allowed_guesses with
  | Some fg => Ok (fg, st)
  | None =>
      if decide (length possible_answers = 0) then Raise ValueError
      else if decide (length possible_answers = 1) then
        w ← index possible_answers 0; Ok (w, st)
      else
        '(_, best_guesses, st') ←
          for_each (score_guess possible_answers)
                   (guess_pool possible_answers allowed_guesses)
                   (None, [], st);
        if decide (best_guesses = []) then
          w ← index allowed_guesses 0; Ok (w, st')
        else
          w ← pick best_guesses possible_answers; Ok (w, st')
  end.
End Selector.

(** ** The word lists, the precomputed cache and the game loop *)

(** [read_word_list], lines 13-16 (the same text in [helper.py], lines
    11-14); [lines] is what iterating over the open file yields *)
Definition read_word_list (lines : list string) : list string :=
  strip <$> filter (λ line, strip line ≠ "") lines.

Section Precompute.
Context {R : Runtime}.

(** Line 71: [_precomputed_patterns[answer][guess] = get_feedback(guess, answer)];
    the right-hand side is evaluated first *)
Definition precompute_entry (answer : string)
    (P : gmap string (gmap string string)) (guess : string)
  : result (gmap string (gmap string string)) :=
  p ← get_feedback guess answer;
  match P !! answer with
  | Some row => Ok (<[answer := <[guess := p]> row]> P)
  | None => Raise KeyError
  end.

(** Lines 69-71: one iteration of [for answer in possible_answers] *)
Definition precompute_answer (all_valid_guesses : list string)
    (P : gmap string (gmap string string)) (answer : string)
  : result (gmap string (gmap string string)) :=
  for_each (precompute_entry answer) all_valid_guesses (<[answer := ∅]> P).

(** [precompute_feedback_patterns], lines 48-79.  [cache_file] is what
    [pickle.load] yields when the cache file exists and loads, [None] when
    the file is missing or unreadable; the dump of lines 74-79 writes the
    file and changes no global. *)
Definition precompute_feedback_patterns
    (cache_file : option (gmap string (gmap string string)))
    (allowed_guesses possible_answers : list string) (st : state)
  : result state :=
  match cache_file with
  | Some loaded => Ok (State loaded (cache_dirty st))
  | None =>
      let all_valid_guesses := list_of_set (allowed_guesses ++ possible_answers) in
      P ← for_each (precompute_answer all_valid_guesses) possible_answers
             (precomputed_patterns st);
      Ok (State P (cache_dirty st))
  end.
End Precompute.

(** How one game of [play_wordle] ends: the two final messages and the
    [return] of line 213.  The other [print] calls are not modelled. *)
Inductive outcome : Type :=
| Solved (attempt : nat) (guess : string)
| Failed
| Quit.

(** the [strategy_func] argument: [minimax_entropy] with the globals it
    reads and writes *)
Definition selector : Type :=
  state → list string → list string → result (string * state).

(** Lines 206-213.  [if answer:] takes the first branch for a non-empty
    string; [inputs k] is the k-th line [input()] returns and [cursor] counts
    the lines read.  [None] stands for the [return]. *)
Definition read_feedback (answer : option string) (inputs : nat → string)
    (cursor : nat) (guess : string) : result (option string * nat) :=
  match answer with
  | Some a =>
      if decide (a ≠ "") then fb ← get_feedback guess a; Ok (Some fb, cursor)
      else
        let fb := strip (inputs cursor) in
        if decide (lower fb ∈ ["quit"; "exit"]) then Ok (None, S cursor)
        else Ok (Some fb, S cursor)
  | None =>
      let fb := strip (inputs cursor) in
      if decide (lower fb ∈ ["quit"; "exit"]) then Ok (None, S cursor)
      else Ok (Some fb, S cursor)
  end.

(** Lines 194-231: the loop [for attempt in range(1, 7)] with its [else] *)
Fixpoint play_attempts (strategy : selector) (answer : option string)
    (inputs : nat → string) (allowed_guesses possible_answers : list string)
    (attempts : list nat) (guesses feedbacks possible : list string)
    (st : state) (cursor : nat) : result (outcome * state * nat) :=
  match attempts with
  | [] => Ok (Failed, st, cursor)
  | attempt :: rest =>
      '(guess, st1) ← strategy st possible allowed_guesses;
      let guesses := guesses ++ [guess] in
      '(fb, cursor') ←
        (if decide (length possible = 1) then Ok (Some "22222", cursor)
         else read_feedback answer inputs cursor guess);
      match fb with
      | None => Ok (Quit, st1, cursor')
      | Some fb =>
          let feedbacks := feedbacks ++ [fb] in
          '(possible', st2) ←
            filter_possible_answers possible_answers st1 guesses feedbacks;
          if decide (fb = "22222") then Ok (Solved attempt guess, st2, cursor')
          else play_attempts strategy answer inputs allowed_guesses possible_answers
                 rest guesses feedbacks possible' st2 cursor'
      end
  end.

(** Lines 234-241: the cache file is rewritten when the cache is dirty;
    [disk_ok] tells whether the write succeeds *)
Definition persist (disk_ok : bool) (st : state)
    (file : option (gmap string (gmap string string)))
  : state * option (gmap string (gmap string string)) :=
  if cache_dirty st then
    if disk_ok then (State (precomputed_patterns st) false, Some (precomputed_patterns st))
    else (st, file)
  else (st, file).

(** [play_wordle], lines 182-241.  [fuel] bounds the games of the
    [while True] loop: [None] when they are used up, [Some] when the
    function returns or raises before. *)
Fixpoint play_wordle (fuel : nat) (strategy : selector) (answer : option string)
    (inputs : nat → string) (disk_ok : bool)
    (allowed_guesses possible_answers : list string)
    (st : state) (file : option (gmap string (gmap string string))) (cursor : nat)
  : option (result (state * option (gmap string (gmap string string)))) :=
  match fuel with
  | 0 => None
  | S fuel' =>
      match play_attempts strategy answer inputs allowed_guesses possible_answers
              (range_from 1 7) [] [] possible_answers st cursor with
      | Raise e => Some (Raise e)
      | Ok (Quit, st', _) => Some (Ok (st', file))
      | Ok (_, st', cursor') =>
          let '(st'', file') := persist disk_ok st' file in
          play_wordle fuel' strategy answer inputs disk_ok
            allowed_guesses possible_answers st'' file' cursor'
      end
  end.

End Solver.

(* ===================================================================== *)
(** * Helper: the read-only candidate filter ([helper.py])                *)
(* ===================================================================== *)

Module Helper.

Section Filter.
(** the module globals [possible_answers] and [_precomputed_patterns] *)
Variable possible_answers : list string.
Variable precomputed_patterns : gmap string (gmap string string).

(** Lines 72-79: one iteration of [for word in filtered_answers] *)
Definition keep_cached (guess feedback : string)
    (new_filtered : list string) (word : string) : result (list string) :=
  match precomputed_patterns !! word ≫= (λ row, row !! guess) with
  | Some p =>
      Ok (if decide (p = feedback) then new_filtered ++ [word] else new_filtered)
  | None =>
      p ← get_feedback guess word;
      Ok (if decide (p = feedback) then new_filtered ++ [word] else new_filtered)
  end.

(** Lines 68-86 *)
Definition filter_round (filtered_answers : list string) (gf : string * string)
  : result (list string) :=
  if decide (precomputed_patterns ≠ ∅) then
    for_each (keep_cached gf.1 gf.2) filtered_answers []
  else
    filter_comp
      (λ word, p ← get_feedback gf.1 word; Ok (bool_decide (p = gf.2)))
      filtered_answers.

Definition filter_possible_answers (guesses feedbacks : list string)
  : result (list string) :=
  for_each filter_round (zip guesses feedbacks) possible_answers.
End Filter.

(** ** Input validation *)

(** [validate_feedback], lines 90-94 *)
Definition validate_feedback (feedback : string) : bool :=
  if decide (len feedback ≠ 5) then false
  else forallb (λ c, bool_decide (c ∈ chars "012")) (chars feedback).

(** [validate_guess], lines 96-101 *)
Definition validate_guess (allowed_guesses possible_answers : list string)
    (guess : string) : bool :=
  if decide (len guess ≠ 5) then false
  else bool_decide (lower guess ∈ allowed_guesses)
       || bool_decide (lower guess ∈ possible_answers).

End Helper.

(* ===================================================================== *)
(** * Hard mode ([solver_hard_mode.py])                                   *)
(* ===================================================================== *)

Module HardMode.

(** The three locals of [enforce_hard_mode_constraints] *)
Record constraints : Type := Constraints {
  green_positions : list (option ascii);
  yellow_letters : gset ascii;
  yellow_positions : gmap ascii (gset nat);
}.

(** Lines 17-21: the body of the loop over [enumerate(zip(prev_guess, fb))] *)
Definition record_letter (c : constraints) (item : nat * (ascii * ascii))
  : result constraints :=
  let '(i, (g_letter, f)) := item in
  if decide (f = "2"%char) then
    gp ← assign (green_positions c) i (Some g_letter);
    Ok (Constraints gp (yellow_letters c) (yellow_positions c))
  else if decide (f = "1"%char) then
    Ok (Constraints (green_positions c)
          ({[g_letter]} ∪ yellow_letters c)
          (<[g_letter := default ∅ (yellow_positions c !! g_letter) ∪ {[i]}]>
             (yellow_positions c)))
  else Ok c.

(** Lines 15-21: the body of the loop over [zip(guesses, feedbacks)] *)
Definition record_round (c : constraints) (gf : string * string)
  : result constraints :=
  for_each record_letter (enumerate (zip (chars gf.1) (chars gf.2))) c.

(** Lines 23-25, with the early [return False] *)
Fixpoint check_green (guess : string) (items : list (nat * option ascii))
  : result bool :=
  match items with
  | [] => Ok true
  | (i, None) :: rest => check_green guess rest
  | (i, Some letter) :: rest =>
      c ← str_index guess i;
      if decide (c ≠ letter) then Ok false else check_green guess rest
  end.

(** Lines 30-32 *)
Fixpoint check_positions (guess : string) (letter : ascii) (ps : list nat)
  : result bool :=
  match ps with
  | [] => Ok true
  | pos :: rest =>
      c ← str_index guess pos;
      if decide (c = letter) then Ok false
      else check_positions guess letter rest
  end.

(** Lines 27-32; [elements] stands for the iteration order of the two
    sets *)
Fixpoint check_yellow (guess : string) (yp : gmap ascii (gset nat))
    (letters : list ascii) : result bool :=
  match letters with
  | [] => Ok true
  | letter :: rest =>
      if decide (letter ∉ chars guess) then Ok false
      else
        match yp !! letter with
        | None => Raise KeyError
        | Some ps =>
            ok ← check_positions guess letter (elements ps);
            if ok : bool then check_yellow guess yp rest else Ok false
        end
  end.

Definition enforce_hard_mode_constraints
    (guesses feedbacks : list string) (guess : string) : result bool :=
  c ← for_each record_round (zip guesses feedbacks)
         (Constraints (replicate 5 None) ∅ ∅);
  green ← check_green guess (enumerate (green_positions c));
  if green : bool then
    check_yellow guess (yellow_positions c) (elements (yellow_letters c))
  else Ok false.

Section Selector.
Context {R : Runtime}.

Definition minimax_entropy_hard_mode (E : Solver.env) (st : Solver.state)
    (possible allowed guesses feedbacks : list string)
  : result (string * Solver.state) :=
  valid_allowed ← filter_comp (enforce_hard_mode_constraints guesses feedbacks) allowed;
  valid_possible ← filter_comp (enforce_hard_mode_constraints guesses feedbacks) possible;
  let valid_allowed := if decide (valid_allowed = []) then allowed else valid_allowed in
  let valid_possible := if decide (valid_possible = []) then possible else valid_possible in
  Solver.minimax_entropy E st valid_possible valid_allowed.

(** [guess, score = w] for the [str] that [minimax_entropy_hard_mode]
    returns: a string unpacks into its characters, and only when it has
    exactly two *)
Definition unpack_pair (w : string) : result (string * string) :=
  match chars w with
  | [a; b] => Ok (String a EmptyString, String b EmptyString)
  | _ => Raise ValueError
  end.

(** Lines 66-67: [score] is a [str], hence not [None], and the format code
    of [f"{score:.2f}"] is not defined for strings *)
Definition format_score (score : string) : result string := Raise ValueError.

(** Lines 64-95: the loop [for attempt in range(1, 7)] with its [else] *)
Fixpoint play_attempts_hard_mode (E : Solver.env) (answer : option string)
    (inputs : nat → string) (allowed_guesses possible_answers : list string)
    (attempts : list nat) (guesses feedbacks possible : list string)
    (st : Solver.state) (cursor : nat)
  : result (Solver.outcome * Solver.state * nat) :=
  match attempts with
  | [] => Ok (Solver.Failed, st, cursor)
  | attempt :: rest =>
      '(w, st1) ← minimax_entropy_hard_mode E st possible allowed_guesses
                    guesses feedbacks;
      '(guess, score) ← unpack_pair w;
      _ ← format_score score;
      let guesses := guesses ++ [guess] in
      '(fb, cursor') ←
        (if decide (length possible = 1) then Ok (Some "22222", cursor)
         else Solver.read_feedback answer inputs cursor guess);
      match fb with
      | None => Ok (Solver.Quit, st1, cursor')
      | Some fb =>
          let feedbacks := feedbacks ++ [fb] in
          '(possible', st2) ←
            Solver.filter_possible_answers possible_answers st1 guesses feedbacks;
          if decide (fb = "22222") then Ok (Solver.Solved attempt guess, st2, cursor')
          else play_attempts_hard_mode E answer inputs allowed_guesses possible_answers
                 rest guesses feedbacks possible' st2 cursor'
      end
  end.

(** Lines 60-96: the [while True] loop, [fuel] games at most *)
Fixpoint hard_mode_games (fuel : nat) (E : Solver.env) (answer : option string)
    (inputs : nat → string) (allowed_guesses possible_answers : list string)
    (st : Solver.state) (cursor : nat) : option (result Solver.state) :=
  match fuel with
  | 0 => None
  | S fuel' =>
      match play_attempts_hard_mode E answer inputs allowed_guesses possible_answers
              (range_from 1 7) [] [] possible_answers st cursor with
      | Raise e => Some (Raise e)
      | Ok (Solver.Quit, st', _) => Some (Ok st')
      | Ok (_, st', cursor') =>
          hard_mode_games fuel' E answer inputs allowed_guesses possible_answers
            st' cursor'
      end
  end.

(** [play_wordle_hard_mode], lines 51-96 *)
Definition play_wordle_hard_mode (fuel : nat) (E : Solver.env)
    (answer : option string) (inputs : nat → string)
    (cache_file : option (gmap string (gmap string string)))
    (allowed_guesses possible_answers : list string)
    (st : Solver.state) (cursor : nat) : option (result Solver.state) :=
  match Solver.precompute_feedback_patterns cache_file allowed_guesses possible_answers st with
  | Raise e => Some (Raise e)
  | Ok st0 =>
      hard_mode_games fuel E answer inputs allowed_guesses possible_answers st0 cursor
  end.
End Selector.

End HardMode.

(* ===================================================================== *)
(** * Simulation harness ([average_score_calculator*.py])                 *)
(* ===================================================================== *)

Module Harness.

Section Simulate.
Context {R : Runtime}.

(** What a strategy function hands back: [minimax_entropy] returns the
    word itself, a [str]; the call sites unpack a pair [(guess, score)]. *)
Inductive retval : Type :=
| Str (w : string)
| Pair (guess : string) (score : num).

(** [guess, _ = v]: a pair unpacks to its components; a [str] is
    iterated character by character and unpacks only when it has exactly
    two of them. *)
Definition unpack_guess (v : retval) : result string :=
  match v with
  | Pair guess _ => Ok guess
  | Str w =>
      match chars w with
      | [a; _] => Ok (String a EmptyString)
      | _ => Raise ValueError
      end
  end.

Definition strategy : Type :=
  Solver.state → list string → list string → result (retval * Solver.state).

(** [simulate_game], lines 13-25; [attempts] is what is left of
    [range(1, 7)].  [hasattr(minimax_entropy, 'get_feedback')] is false
    for a plain function, so [fb] is always computed by the fallback
    [solver.get_feedback].  The lists [guesses] and [feedbacks] are only
    appended to here, never read, and are left out. *)
Fixpoint simulate_rounds (answer : string) (strategy_func : strategy)
    (allowed_guesses : list string) (attempts : list nat)
    (possible : list string) (st : Solver.state) : result nat :=
  match attempts with
  | [] => Ok 7
  | attempt :: rest =>
      '(v, st') ← strategy_func st possible allowed_guesses;
      guess ← unpack_guess v;
      if decide (guess = answer) then Ok attempt
      else
        fb ← get_feedback guess answer;
        possible' ← filter_comp
                      (λ word, p ← get_feedback guess word; Ok (bool_decide (p = fb)))
                      possible;
        simulate_rounds answer strategy_func allowed_guesses rest possible' st'
  end.

Definition simulate_game (answer : string) (strategy_func : strategy)
    (allowed_guesses possible_answers : list string) (st : Solver.state)
  : result nat :=
  simulate_rounds answer strategy_func allowed_guesses (range_from 1 7)
    possible_answers st.

(** [minimax_entropy] as [calculate_average_tries] passes it *)
Definition minimax_strategy (E : Solver.env) : strategy :=
  λ st possible allowed,
    '(w, st') ← Solver.minimax_entropy E st possible allowed;
    Ok (Str w, st').

(** [simulate_game_hard_mode], lines 5-16 of the hard-mode calculator *)
Fixpoint simulate_rounds_hard_mode (E : Solver.env) (answer : string)
    (allowed_guesses : list string) (attempts : list nat)
    (guesses feedbacks possible : list string) (st : Solver.state)
  : result nat :=
  match attempts with
  | [] => Ok 7
  | attempt :: rest =>
      '(w, st') ← HardMode.minimax_entropy_hard_mode E st possible
                    allowed_guesses guesses feedbacks;
      guess ← unpack_guess (Str w);
      let guesses := guesses ++ [guess] in
      if decide (guess = answer) then Ok attempt
      else
        fb ← get_feedback guess answer;
        let feedbacks := feedbacks ++ [fb] in
        possible' ← filter_comp
                      (λ word, p ← get_feedback guess word; Ok (bool_decide (p = fb)))
                      possible;
        simulate_rounds_hard_mode E answer allowed_guesses rest
          guesses feedbacks possible' st'
  end.

Definition simulate_game_hard_mode (E : Solver.env)
    (allowed_guesses possible_answers : list string) (st : Solver.state)
    (answer : string) : result nat :=
  simulate_rounds_hard_mode E answer allowed_guesses (range_from 1 7)
    [] [] possible_answers st.
End Simulate.

End Harness.

(* ===================================================================== *)
(** * First-guess optimisation ([optimize_cache_hard_mode.py])           *)
(* ===================================================================== *)

Module OptimizeHardMode.
Section Optimize.
Context {R : Runtime}.

(** Lines 17-19: one iteration of [for answer in possible_answers] *)
Definition count_pattern (guess : string) (pattern_counts : list (string * nat))
    (answer : string) : result (list (string * nat)) :=
  fb ← get_feedback guess answer;
  Ok (Solver.bump fb pattern_counts).

(** Lines 15-24: one iteration of [for i, guess in enumerate(guess_subset)];
    the state is [(best_score, best_guess)], with [None] for [float('inf')]
    and for Python's [None] *)
Definition consider (possible_answers : list string)
    (best : option num * option string) (guess : string)
  : result (option num * option string) :=
  pattern_counts ← for_each (count_pattern guess) possible_answers [];
  let expected := Solver.expected_of pattern_counts in
  match best.1 with
  | None => Ok (Some expected, Some guess)
  | Some best_score =>
      if num_lt expected best_score then Ok (Some expected, Some guess)
      else Ok best
  end.

(** [compute_best_first_guess_hard_mode], lines 10-30: the result is the
    dict the function pickles into [first_guesses_cache_hard_mode.pkl] *)
Definition compute_best_first_guess_hard_mode
    (allowed_guesses possible_answers : list string)
  : result (gmap string (option string)) :=
  let guess_subset := list_of_set (allowed_guesses ++ possible_answers) in
  '(_, best_guess) ← for_each (consider possible_answers) guess_subset (None, None);
  Ok {["minimax_entropy_hard_mode" := best_guess]}.
End Optimize.
End OptimizeHardMode.

(* ===================================================================== *)
(** * The specification's two-pass encoder                                *)
(* ===================================================================== *)

(** Written from the words of the specification (section 4.1), to be
    compared with [get_feedback]: positions are consumed by recording them
    in a set, and the pattern is built position by position. *)
Module TwoPass.

Inductive mark : Type := ABSENT | MISPLACED | EXACT.

(** the external notation: '0' = ABSENT, '1' = MISPLACED, '2' = EXACT *)
Definition symbol (m : mark) : ascii :=
  match m with
  | ABSENT => "0"
  | MISPLACED => "1"
  | EXACT => "2"
  end%char.

Definition render (pattern : list mark) : string := join (symbol <$> pattern).

(** Pass 1: the positions [i < n] with [guess[i] == secret[i]] *)
Definition exact_below (guess secret : list ascii) (n : nat) : gset nat :=
  list_to_set (filter (λ i, guess !! i = secret !! i) (seq 0 n)).

(** the first (leftmost) unconsumed occurrence of [c] in the secret, whose
    letters are numbered from [j] *)
Fixpoint first_unconsumed (j : nat) (secret : list ascii)
    (consumed : gset nat) (c : ascii) : option nat :=
  match secret with
  | [] => None
  | x :: rest =>
      if decide ((j ∉ consumed) ∧ x = c) then Some j
      else first_unconsumed (S j) rest consumed c
  end.

(** Pass 2, over the guess letters from position [i] on, left to right *)
Fixpoint second_pass (i : nat) (guess_rest secret : list ascii)
    (exact consumed : gset nat) : list mark :=
  match guess_rest with
  | [] => []
  | g :: rest =>
      if decide (i ∈ exact) then
        EXACT :: second_pass (S i) rest secret exact consumed
      else
        match first_unconsumed 0 secret consumed g with
        | Some j =>
            MISPLACED :: second_pass (S i) rest secret exact ({[j]} ∪ consumed)
        | None =>
            ABSENT :: second_pass (S i) rest secret exact consumed
        end
  end.

Definition encode (guess secret : string) : list mark :=
  let g := chars guess in
  let s := chars secret in
  let exact := exact_below g s (length g) in
  second_pass 0 g s exact exact.

End TwoPass.

(* ===================================================================== *)
(** * Specification-side notions                                          *)
(* ===================================================================== *)

(** ** Pattern cache and candidate filter (sections 3, 4.2 and 4.3) *)

(** the cached pattern of [(secret, guess)], if any *)
Definition cached (P : gmap string (gmap string string)) (word guess : string)
  : option string := P !! word ≫= (λ row, row !! guess).

(** [cache.lookup_or_compute(secret, guess)] *)
Definition lookup_or_compute (P : gmap string (gmap string string))
    (word guess : string) : result string :=
  match cached P word guess with
  | Some p => Ok p
  | None => get_feedback guess word
  end.

(** [word] passes the test of one history entry, by the cache or by the
    encoder itself *)
Definition keeps (P : gmap string (gmap string string))
    (gf : string * string) (word : string) : Prop :=
  lookup_or_compute P word gf.1 = Ok gf.2.

Definition matches (gf : string * string) (word : string) : Prop :=
  get_feedback gf.1 word = Ok gf.2.

Definition survives (P : gmap string (gmap string string))
    (hist : list (string * string)) (w : string) : Prop :=
  Forall (λ gf, keeps P gf w) hist.

(** [get_feedback(guess, w) == feedback] for every pair of the history *)
Definition consistent_with (hist : list (string * string)) (w : string) : Prop :=
  Forall (λ gf, matches gf w) hist.

(** a cache entry, where there is one, is what the encoder computes *)
Definition entry_agrees (P : gmap string (gmap string string)) (w g : string) : Prop :=
  match cached P w g with
  | Some p => get_feedback g w = Ok p
  | None => True
  end.

(** The entries the filter consults agree with the encoder: at round [k] it
    consults [(w, guess_k)] for the answers [w] that passed the rounds
    before. *)
Definition cache_agrees (P : gmap string (gmap string string))
    (answers : list string) (hist : list (string * string)) : Prop :=
  Forall (λ kgf : nat * (string * string),
            Forall (λ w, consistent_with (take kgf.1 hist) w
                         → entry_agrees P w kgf.2.1) answers)
         (enumerate hist).

#[global] Instance keeps_dec P gf w : Decision (keeps P gf w).
Proof. unfold keeps. apply _. Defined.

#[global] Instance matches_dec gf w : Decision (matches gf w).
Proof. unfold matches. apply _. Defined.

#[global] Instance survives_dec P hist w : Decision (survives P hist w).
Proof. unfold survives. apply _. Defined.

#[global] Instance consistent_with_dec hist w : Decision (consistent_with hist w).
Proof. unfold consistent_with. apply _. Defined.

#[global] Instance entry_agrees_dec P w g : Decision (entry_agrees P w g).
Proof. unfold entry_agrees. destruct (cached P w g); apply _. Defined.

#[global] Instance cache_agrees_dec P answers hist : Decision (cache_agrees P answers hist).
Proof. unfold cache_agrees. apply _. Defined.

(** ** Hard-mode legality (section 4.4) *)

(** some prior guess has letter [c] at position [i] with feedback [sym] there *)
Definition flagged (hist : list (string * string)) (sym : ascii) (i : nat) (c : ascii)
  : Prop :=
  ∃ gf, gf ∈ hist ∧ chars gf.1 !! i = Some c ∧ chars gf.2 !! i = Some sym.

Definition exact_letter (gf : string * string) (i : nat) : option ascii :=
  match chars gf.1 !! i, chars gf.2 !! i with
  | Some c, Some f => if decide (f = "2"%char) then Some c else None
  | _, _ => None
  end.

(** the letter pinned at position [i] by the most recent EXACT feedback
    there; [hist] is in game order *)
Fixpoint pinned (hist : list (string * string)) (i : nat) : option ascii :=
  match hist with
  | [] => None
  | gf :: rest =>
      match pinned rest i with
      | Some c => Some c
      | None => exact_letter gf i
      end
  end.

(** (a) as the claim words it: every EXACT flag of the history is held *)
Definition pins_held (hist : list (string * string)) (guess : string) : Prop :=
  ∀ i c, flagged hist "2" i c → chars guess !! i = Some c.

(** (a) as the code has it: every pinned position holds its latest pin *)
Definition latest_pins_held (hist : list (string * string)) (guess : string) : Prop :=
  ∀ i c, pinned hist i = Some c → chars guess !! i = Some c.

(** (b) every letter flagged MISPLACED appears somewhere in the guess *)
Definition misplaced_present (hist : list (string * string)) (guess : string) : Prop :=
  ∀ i c, flagged hist "1" i c → c ∈ chars guess.

(** (c) no letter sits where it was flagged MISPLACED *)
Definition misplaced_moved (hist : list (string * string)) (guess : string) : Prop :=
  ∀ i c, flagged hist "1" i c → chars guess !! i ≠ Some c.

(** ** Guess selector (section 4.5) *)

(** the distinct patterns, in order of first occurrence *)
Fixpoint distinct (ps : list string) : list string :=
  match ps with
  | [] => []
  | p :: rest => p :: filter (λ q, q ≠ p) (distinct rest)
  end.

Definition bucket_size (ps : list string) (p : string) : nat :=
  length (filter (λ q, q = p) ps).

(** the pattern buckets of a list of patterns, with their sizes *)
Definition buckets (ps : list string) : list (string * nat) :=
  (λ p, (p, bucket_size ps p)) <$> distinct ps.

(** the pattern [lookup_or_compute] yields for a secret and a guess *)
Definition pattern_of (P : gmap string (gmap string string)) (a g : string) : string :=
  match lookup_or_compute P a g with
  | Ok p => p
  | Raise _ => ""
  end.

Section Score.
Context {R : Runtime}.

(** expected remaining candidates: the sum over the buckets of
    [(bucket_size / total) * bucket_size] *)
Definition expected_remaining (P : gmap string (gmap string string))
    (candidates : list string) (g : string) : num :=
  let patterns := (λ secret, pattern_of P secret g) <$> candidates in
  let total := length candidates in
  sum_nums ((λ size, mul_int (true_div size total) size) <$> (buckets patterns).*2).

(** no pool word scores strictly below [g] *)
Definition minimal_in (P : gmap string (gmap string string))
    (candidates pool : list string) (g : string) : Prop :=
  ∀ h, h ∈ pool →
    num_lt (expected_remaining P candidates h) (expected_remaining P candidates g) = false.

End Score.

(** ** The score formula evaluated exactly

    Scores as rationals, and [list(set(l))] as [l] without its repeated
    entries: the sum over the buckets of [(bucket_size / total) *
    bucket_size] as the specification reads it, with no rounding.  It shows
    the laws satisfiable and lets the functions run.  It is not the
    arithmetic of the program: on two words of equal exact score the
    rounded sums can differ. *)

Definition q_lt (x y : Q) : bool :=
  match (x ?= y)%Q with
  | Lt => true
  | _ => false
  end.

Definition exact_runtime : Runtime := {|
  num := Q;
  true_div count total := (inject_Z (Z.of_nat count) / inject_Z (Z.of_nat total))%Q;
  mul_int x count := (x * inject_Z (Z.of_nat count))%Q;
  sum_nums terms := foldl Qplus 0%Q terms;
  num_lt := q_lt;
  num_eq := Qeq_bool;
  list_of_set := remove_dups;
|}.

(** ** The interpreter's arithmetic: IEEE binary64

    A Python [float] is a binary64 number.  [int / int] is the correctly
    rounded quotient; [float * int] converts the [int] and rounds the
    product; [<] and [==] are the IEEE comparisons.  [sum(...)] starts from
    the [int] 0 and, in CPython up to 3.11, adds the terms left to right,
    rounding every addition ([Binary64.sum], [binary64_runtime]); from
    CPython 3.12 on it carries Neumaier's compensation term along and adds
    it at the end ([Binary64.sum_compensated],
    [binary64_compensated_runtime]).  The operations are those of the
    standard library's [SpecFloat], at precision 53.

    [count / total] with [total = 0] would raise [ZeroDivisionError]; it is
    never evaluated, since a bucket exists only when there is a candidate.
    The order of [list(set(l))] stays a parameter. *)

Module Binary64.
Import SpecFloat.

(** binary64: 53 bits of precision, exponent of the infinities 1024 *)
Definition prec : Z := 53.
Definition emax : Z := 1024.

(** an [int] as a float operand.  A count is a list length: it is below
    2^53, where the conversion to [float] is exact. *)
Definition of_int (n : nat) : spec_float :=
  match n with
  | 0 => S754_zero false
  | S _ => S754_finite false (Pos.of_nat n) 0
  end.

Definition div (x y : spec_float) : spec_float := SFdiv prec emax x y.
Definition mul (x y : spec_float) : spec_float := SFmul prec emax x y.
Definition add (x y : spec_float) : spec_float := SFadd prec emax x y.

Definition sub (x y : spec_float) : spec_float := SFsub prec emax x y.

(** [sum(...)]: the additions run left to right from the [int] 0 *)
Definition sum (terms : list spec_float) : spec_float :=
  foldl add (S754_zero false) terms.

(** one step of the compensated [sum]: [t = s + x], and the rounding error
    of that addition joins the compensation [c], computed from the larger
    of [s] and [x] in magnitude *)
Definition compensate (acc : spec_float * spec_float) (x : spec_float)
    : spec_float * spec_float :=
  let t := add acc.1 x in
  if SFleb (SFabs x) (SFabs acc.1)
  then (t, add acc.2 (add (sub acc.1 t) x))
  else (t, add acc.2 (add (sub x t) acc.1)).

(** the compensated [sum]: the compensation is added when it is finite and
    not zero *)
Definition sum_compensated (terms : list spec_float) : spec_float :=
  let acc := foldl compensate (S754_zero false, S754_zero false) terms in
  match acc.2 with
  | S754_finite _ _ _ => add acc.1 acc.2
  | _ => acc.1
  end.
End Binary64.

Definition binary64_runtime (order : list string → list string) : Runtime := {|
  num := SpecFloat.spec_float;
  true_div count total := Binary64.div (Binary64.of_int count) (Binary64.of_int total);
  mul_int x count := Binary64.mul x (Binary64.of_int count);
  sum_nums := Binary64.sum;
  num_lt := SpecFloat.SFltb;
  num_eq := SpecFloat.SFeqb;
  list_of_set := order;
|}.

Definition binary64_compensated_runtime (order : list string → list string) : Runtime := {|
  num := SpecFloat.spec_float;
  true_div count total := Binary64.div (Binary64.of_int count) (Binary64.of_int total);
  mul_int x count := Binary64.mul x (Binary64.of_int count);
  sum_nums := Binary64.sum_compensated;
  num_lt := SpecFloat.SFltb;
  num_eq := SpecFloat.SFeqb;
  list_of_set := order;
|}.

(* ===================================================================== *)
(** * Notions used only in the proofs                                     *)
(* ===================================================================== *)

(** [feedback] after pass 1: '2' on the exact positions, '0' elsewhere *)
Definition paint (n : nat) (exact : gset nat) : list ascii :=
  (λ i, if decide (i ∈ exact) then "2" else "0")%char <$> seq 0 n.

(** [answer_copy] when the positions in [consumed] have been set to [None] *)
Definition unconsumed (secret : list ascii) (consumed : gset nat)
  : list (option ascii) :=
  imap (λ j x, if decide (j ∈ consumed) then None else Some x) secret.

(** two caches that answer every lookup alike *)
Definition same_lookups (P P' : gmap string (gmap string string)) : Prop :=
  ∀ w g, lookup_or_compute P' w g = lookup_or_compute P w g.

(** the items the nested loops of the hard-mode checker visit *)
Definition round_items (gf : string * string) : list (nat * (ascii * ascii)) :=
  enumerate (zip (chars gf.1) (chars gf.2)).

Definition item_pin (item : nat * (ascii * ascii)) (i : nat) : option ascii :=
  if decide (item.1 = i ∧ item.2.2 = "2"%char) then Some item.2.1 else None.

Fixpoint pinned_items (items : list (nat * (ascii * ascii))) (i : nat)
  : option ascii :=
  match items with
  | [] => None
  | item :: rest =>
      match pinned_items rest i with
      | Some c => Some c
      | None => item_pin item i
      end
  end.

(** what the three locals hold once [items] have been recorded *)
Record records (items : list (nat * (ascii * ascii))) (c : HardMode.constraints)
  : Prop := {
  rec_len : length (HardMode.green_positions c) = 5;
  rec_green : ∀ i, i < 5 →
      HardMode.green_positions c !! i = Some (pinned_items items i);
  rec_yellow : ∀ g,
      g ∈ HardMode.yellow_letters c ↔ ∃ j, (j, (g, "1"%char)) ∈ items;
  rec_pos : ∀ g, g ∈ HardMode.yellow_letters c →
      ∃ ps, HardMode.yellow_positions c !! g = Some ps
            ∧ ∀ j, j ∈ ps ↔ (j, (g, "1"%char)) ∈ items;
  rec_dom : ∀ g, g ∉ HardMode.yellow_letters c →
      HardMode.yellow_positions c !! g = None;
}.

(** the dict [pattern_counts] after the patterns [ps] have been counted *)
Definition tally (acc : list (string * nat)) (ps : list string)
  : list (string * nat) :=
  foldl (λ counts p, Solver.bump p counts) acc ps.

Section Selection.
Context {R : Runtime}.

(** lines 166-170 without the globals *)
Definition select (sel : option num * list string) (expected : num) (guess : string)
  : option num * list string :=
  match sel.1 with
  | None => (Some expected, [guess])
  | Some best =>
      if num_lt expected best then (Some expected, [guess])
      else if num_eq expected best then (sel.1, sel.2 ++ [guess])
      else sel
  end.

Definition run_select (score : string → num) (pool : list string)
    (sel : option num * list string) : option num * list string :=
  foldl (λ sel g, select sel (score g) g) sel pool.

(** the loop invariant: [best_score] bounds the scores seen from below and
    [best_guesses] lists the words seen that attain it *)
Definition selected (score : string → num) (seen : list string)
    (sel : option num * list string) : Prop :=
  match sel.1 with
  | None => seen = [] ∧ sel.2 = []
  | Some best =>
      (∀ h, h ∈ seen → num_lt (score h) best = false)
      ∧ sel.2 = filter (λ h, num_eq (score h) best = true) seen
      ∧ sel.2 ≠ []
  end.

End Selection.

(** what the cache-filling code may do to the globals: cached patterns stay,
    a new entry is the encoder's pattern, the dirty flag is not cleared *)
Definition grows (st st' : Solver.state) : Prop :=
  (∀ w g p, cached (Solver.precomputed_patterns st) w g = Some p →
            cached (Solver.precomputed_patterns st') w g = Some p)
  ∧ (∀ w g p, cached (Solver.precomputed_patterns st') w g = Some p →
              cached (Solver.precomputed_patterns st) w g = None →
              get_feedback g w = Ok p)
  ∧ (Solver.cache_dirty st = true → Solver.cache_dirty st' = true).

(** the cached patterns of the listed words are the encoder's *)
Definition sound (allowed possible_answers : list string) (st : Solver.state) : Prop :=
  ∀ w g, w ∈ possible_answers → g ∈ allowed ∨ g ∈ possible_answers →
         entry_agrees (Solver.precomputed_patterns st) w g.

(** a float that is +0, positive and finite, or +infinity: what a score can
    be (never NaN, never negative) *)
Definition nonneg (x : SpecFloat.spec_float) : Prop :=
  match x with
  | SpecFloat.S754_zero false
  | SpecFloat.S754_infinity false
  | SpecFloat.S754_finite false _ _ => True
  | _ => False
  end.

(** the comparison of two positive finite floats: by exponent, then by
    mantissa *)
Definition lex (ex : Z) (mx : positive) (ey : Z) (my : positive) : comparison :=
  match (ex ?= ey)%Z with
  | Lt => Lt
  | Gt => Gt
  | Eq => Pos.compare_cont Eq mx my
  end.

(** Concrete data for the examples *)
Definition empty_state : Solver.state := Solver.State ∅ false.
Definition no_first_guess : Solver.env := Solver.Env None [].
Definition salet_first_guess (answers : list string) : Solver.env :=
  Solver.Env (Some {["minimax_entropy" := "SALET"]}) answers.
Definition sample_answers : list string := ["crane"; "crate"; "trace"; "grace"].
Definition sample_allowed : list string := ["slate"; "adieu"].
Definition sample_cache : gmap string (gmap string string) :=
  {["crane" := {["slate" := "00202"]}]}.
Definition sample_state : Solver.state := Solver.State sample_cache false.

(** seven candidates and one further allowed guess; every one of the eight
    words splits the candidates into one bucket of 2 and five of 1 *)
Definition tie_candidates : list string :=
  ["bbbac"; "bbaba"; "ccaac"; "bcaac"; "babac"; "bbabc"; "acaac"].
Definition tie_allowed : list string := ["abccc"].

(** ten candidates and one further allowed guess: aaddd splits the
    candidates into one bucket of 3 and seven of 1, the candidate ccbdd into
    three buckets of 2 and four of 1 (the sum of the squares is 16 for
    both), and every other candidate does worse *)
Definition round_candidates : list string :=
  ["acbdd"; "aabbd"; "adbad"; "adbbd"; "acbbd";
   "dcbdd"; "ccbdd"; "abbbd"; "adbaa"; "acbcd"].
Definition round_allowed : list string := ["aaddd"].

(* ===================================================================== *)
(** * Proofs                                                              *)
(* ===================================================================== *)

(** ** The error monad and the runtime fragments *)

Lemma for_each_app {A S} (body : S → A → result S) xs ys s :
  for_each body (xs ++ ys) s = (s' ← for_each body xs s; for_each body ys s').
Proof.
  revert s. induction xs as [|x xs IH]; intros s; simpl; [done|].
  destruct (body s x) as [s'|e]; simpl; [apply IH|done].
Qed.

Lemma str_index_chars s i : str_index s i = index (chars s) i.
Proof.
  unfold str_index, index, chars. revert i.
  induction s as [|c s IH]; intros [|i]; simpl; auto.
Qed.

Lemma len_chars s : len s = length (chars s).
Proof. unfold len, chars. induction s; simpl; congruence. Qed.

Lemma join_chars s : join (chars s) = s.
Proof. apply Strings.String.string_of_list_ascii_of_string. Qed.

Lemma chars_join l : chars (join l) = l.
Proof. apply Strings.String.list_ascii_of_string_of_list_ascii. Qed.

Lemma chars_inj s1 s2 : chars s1 = chars s2 → s1 = s2.
Proof. intros H. rewrite <-(join_chars s1), <-(join_chars s2). by rewrite H. Qed.

Lemma index_Some {A} (l : list A) i x : l !! i = Some x → index l i = Ok x.
Proof. unfold index. by intros ->. Qed.

Lemma assign_lt {A} (l : list A) i x : i < length l → assign l i x = Ok (<[i:=x]> l).
Proof. unfold assign. intros. by rewrite decide_True. Qed.

Import Solver HardMode Harness TwoPass.

(** ** Feedback encoder: the two loops against the two passes *)

Lemma paint_length L X : length (paint L X) = L.
Proof. unfold paint. by rewrite length_fmap, length_seq. Qed.

Lemma paint_lookup L X i : i < L →
  paint L X !! i = Some (if decide (i ∈ X) then "2" else "0")%char.
Proof.
  intros Hi. unfold paint. rewrite list_lookup_fmap, lookup_seq_lt by done. done.
Qed.

Lemma paint_empty L : paint L ∅ = replicate L "0"%char.
Proof.
  apply list_eq. intros i. destruct (decide (i < L)) as [Hi|Hi].
  - rewrite paint_lookup by done. rewrite lookup_replicate_2 by done.
    by rewrite decide_False by set_solver.
  - rewrite !lookup_ge_None_2; [done|rewrite length_replicate; lia|rewrite paint_length; lia].
Qed.

Lemma paint_insert L X i : i < L → <[i:="2"%char]> (paint L X) = paint L ({[i]} ∪ X).
Proof.
  intros Hi. apply list_eq. intros j.
  destruct (decide (j < L)) as [Hj|Hj].
  - rewrite (paint_lookup _ _ j) by done.
    destruct (decide (i = j)) as [->|Hne].
    + rewrite list_lookup_insert_eq by (rewrite paint_length; lia).
      by rewrite decide_True by set_solver.
    + rewrite list_lookup_insert_ne by done. rewrite paint_lookup by done.
      destruct (decide (j ∈ X)); [by rewrite decide_True by set_solver|
                                   by rewrite decide_False by set_solver].
  - rewrite !lookup_ge_None_2; [done|rewrite paint_length; lia|
      rewrite length_insert, paint_length; lia].
Qed.

Lemma unconsumed_length s X : length (unconsumed s X) = length s.
Proof. unfold unconsumed. by rewrite length_imap. Qed.

Lemma unconsumed_lookup s X j :
  unconsumed s X !! j = (λ x, if decide (j ∈ X) then None else Some x) <$> s !! j.
Proof. unfold unconsumed. by rewrite list_lookup_imap. Qed.

Lemma unconsumed_empty s : unconsumed s ∅ = Some <$> s.
Proof.
  apply list_eq. intros j. rewrite unconsumed_lookup, list_lookup_fmap.
  destruct (s !! j); simpl; [|done]. by rewrite decide_False by set_solver.
Qed.

Lemma unconsumed_insert s X j :
  <[j:=None]> (unconsumed s X) = unconsumed s ({[j]} ∪ X).
Proof.
  apply list_eq. intros k. rewrite unconsumed_lookup.
  destruct (decide (j = k)) as [->|Hne].
  - destruct (decide (k < length s)) as [Hk|Hk].
    + rewrite list_lookup_insert_eq by (rewrite unconsumed_length; lia).
      destruct (lookup_lt_is_Some_2 s k Hk) as [x ->]. simpl.
      by rewrite decide_True by set_solver.
    + rewrite !lookup_ge_None_2; [done|lia|rewrite length_insert, unconsumed_length; lia].
  - rewrite list_lookup_insert_ne by done. rewrite unconsumed_lookup.
    destruct (s !! k); simpl; [|done].
    destruct (decide (k ∈ X)); [by rewrite decide_True by set_solver|
                                 by rewrite decide_False by set_solver].
Qed.

Lemma exact_below_S g s n :
  exact_below g s (S n) =
  if decide (g !! n = s !! n) then {[n]} ∪ exact_below g s n else exact_below g s n.
Proof.
  unfold exact_below. rewrite seq_S, filter_app, list_to_set_app_L. simpl.
  rewrite filter_cons, filter_nil. case_decide; simpl; set_solver.
Qed.

Lemma elem_of_exact_below g s n i :
  i ∈ exact_below g s n ↔ i < n ∧ g !! i = s !! i.
Proof.
  unfold exact_below. rewrite elem_of_list_to_set, list_elem_of_filter, elem_of_seq.
  naive_solver lia.
Qed.

(** Pass 1: the first loop marks and consumes the exact positions. *)
Lemma first_pass_spec guess answer n :
  let g := chars guess in let s := chars answer in
  length g = 5 → length s = 5 → n ≤ 5 →
  for_each (first_pass_body guess answer) (seq 0 n)
    (paint 5 ∅, unconsumed s ∅)
  = Ok (paint 5 (exact_below g s n), unconsumed s (exact_below g s n)).
Proof.
  intros g s Hg Hs. induction n as [|n IH]; intros Hn.
  - done.
  - rewrite seq_S, for_each_app, IH by lia. simpl.
    unfold first_pass_body. rewrite !str_index_chars. fold g s.
    destruct (lookup_lt_is_Some_2 g n ltac:(lia)) as [x Hx].
    destruct (lookup_lt_is_Some_2 s n ltac:(lia)) as [y Hy].
    rewrite (index_Some _ _ _ Hx), (index_Some _ _ _ Hy). simpl.
    rewrite exact_below_S, Hx, Hy.
    destruct (decide (x = y)) as [->|Hne].
    + rewrite decide_True by done. simpl.
      rewrite !assign_lt by (rewrite ?paint_length, ?unconsumed_length; lia). simpl.
      by rewrite paint_insert, unconsumed_insert by lia.
    + rewrite decide_False by congruence. done.
Qed.

Lemma consume_spec c C pre rest :
  let s := pre ++ rest in
  consume (seq (length pre) (length rest)) c (unconsumed s C)
  = Ok (match first_unconsumed (length pre) rest C c with
        | Some k => unconsumed s ({[k]} ∪ C)
        | None => unconsumed s C
        end).
Proof.
  revert pre. induction rest as [|x rest IH]; intros pre s; [done|].
  simpl. unfold index. rewrite unconsumed_lookup.
  assert (s !! length pre = Some x) as ->.
  { unfold s. by rewrite list_lookup_middle. }
  simpl. destruct (decide (length pre ∈ C)) as [Hin|Hout].
  - rewrite decide_False by done. rewrite decide_False by tauto.
    specialize (IH (pre ++ [x])). rewrite length_app, Nat.add_1_r in IH.
    simpl in IH. rewrite <-app_assoc in IH. apply IH.
  - destruct (decide (x = c)) as [->|Hne].
    + rewrite decide_True by done. rewrite decide_True by done.
      rewrite assign_lt.
      * by rewrite unconsumed_insert.
      * rewrite unconsumed_length. unfold s. rewrite length_app. simpl. lia.
    + rewrite decide_False by congruence. rewrite decide_False by tauto.
      specialize (IH (pre ++ [x])). rewrite length_app, Nat.add_1_r in IH.
      simpl in IH. rewrite <-app_assoc in IH. apply IH.
Qed.

Lemma first_unconsumed_None j rest C c :
  first_unconsumed j rest C c = None ↔
  ∀ k, rest !! k = Some c → j + k ∈ C.
Proof.
  revert j. induction rest as [|x rest IH]; intros j; simpl.
  - split; [intros _ k Hk; by rewrite lookup_nil in Hk|done].
  - case_decide as Hd.
    + split; [done|]. intros Hall. destruct Hd as [Hd ->].
      specialize (Hall 0 eq_refl). by rewrite Nat.add_0_r in Hall.
    + rewrite IH. split.
      * intros Hall [|k] Hk; simpl in Hk.
        -- injection Hk as ->. rewrite Nat.add_0_r.
           destruct (decide (j ∈ C)); [done|]. exfalso. by apply Hd.
        -- specialize (Hall k Hk). by rewrite Nat.add_succ_r.
      * intros Hall k Hk. specialize (Hall (S k) Hk).
        by rewrite Nat.add_succ_r in Hall.
Qed.

Lemma elem_of_unconsumed s C c :
  Some c ∈ unconsumed s C ↔ first_unconsumed 0 s C c ≠ None.
Proof.
  rewrite list_elem_of_lookup. split.
  - intros [k Hk] Hnone. rewrite unconsumed_lookup in Hk.
    destruct (s !! k) as [x|] eqn:Hx; simpl in Hk; [|done].
    case_decide as Hin; [done|]. injection Hk as ->.
    apply Hin. by apply (proj1 (first_unconsumed_None 0 s C c) Hnone k).
  - intros Hsome. destruct (decide (Some c ∈ unconsumed s C)) as [Hin|Hnot].
    + by apply list_elem_of_lookup.
    + exfalso. apply Hsome, first_unconsumed_None. intros k Hk. simpl.
      destruct (decide (k ∈ C)) as [|Hout]; [done|]. exfalso. apply Hnot.
      apply list_elem_of_lookup. exists k. rewrite unconsumed_lookup, Hk. simpl.
      by rewrite decide_False.
Qed.

(** Pass 2: one iteration of the second loop, then the whole loop. *)
Lemma second_pass_body_exact guess fb ac i :
  fb !! i = Some "2"%char → second_pass_body guess (fb, ac) i = Ok (fb, ac).
Proof.
  intros Hfb. unfold second_pass_body. simpl. by rewrite (index_Some _ _ _ Hfb).
Qed.

Lemma second_pass_body_open guess fb s C i g :
  length s = 5 → i < length fb →
  fb !! i = Some "0"%char → chars guess !! i = Some g →
  second_pass_body guess (fb, unconsumed s C) i
  = Ok (match first_unconsumed 0 s C g with
        | Some j => (<[i:="1"%char]> fb, unconsumed s ({[j]} ∪ C))
        | None => (fb, unconsumed s C)
        end).
Proof.
  intros Hs Hi Hfb Hg. unfold second_pass_body. cbn [fst snd].
  rewrite (index_Some _ _ _ Hfb). cbn [mbind result_bind].
  rewrite decide_True by done.
  rewrite str_index_chars, (index_Some _ _ _ Hg). cbn [mbind result_bind].
  pose proof (consume_spec g C [] s) as Hc. cbn [length app] in Hc.
  rewrite Hs in Hc. unfold range. rewrite Hc.
  destruct (first_unconsumed 0 s C g) as [j|] eqn:Hfu.
  - rewrite decide_True by (apply elem_of_unconsumed; congruence).
    by rewrite assign_lt by done.
  - by rewrite decide_False by (rewrite elem_of_unconsumed; congruence).
Qed.

Lemma second_pass_spec guess s exact rest : ∀ pre fb C,
  chars guess = pre ++ rest →
  length s = 5 →
  length fb = length (pre ++ rest) →
  drop (length pre) fb
    = (λ i, if decide (i ∈ exact) then "2" else "0")%char <$> seq (length pre) (length rest) →
  ∃ ac,
    for_each (second_pass_body guess) (seq (length pre) (length rest))
      (fb, unconsumed s C)
    = Ok (take (length pre) fb
            ++ (symbol <$> second_pass (length pre) rest s exact C), ac).
Proof.
  induction rest as [|g rest IH]; intros pre fb C Hguess Hs Hlen Hdrop.
  { simpl. rewrite app_nil_r in *. rewrite take_ge by lia. eauto. }
  assert (Hi : length pre < length fb).
  { rewrite Hlen, length_app. simpl. lia. }
  assert (Hfb : fb !! length pre = Some (if decide (length pre ∈ exact) then "2" else "0")%char).
  { rewrite <-(Nat.add_0_r (length pre)), <-lookup_drop, Hdrop. simpl. by rewrite Nat.add_0_r. }
  assert (Hg : chars guess !! length pre = Some g).
  { rewrite Hguess. by rewrite list_lookup_middle. }
  assert (Hnext : ∀ fb',
    drop (S (length pre)) fb' = drop (S (length pre)) fb →
    drop (length (pre ++ [g])) fb'
    = (λ i, if decide (i ∈ exact) then "2" else "0")%char
        <$> seq (length (pre ++ [g])) (length rest)).
  { intros fb' Hfb'. rewrite length_app, Nat.add_1_r, Hfb'.
    replace (drop (S (length pre)) fb) with (drop 1 (drop (length pre) fb))
      by (rewrite drop_drop; f_equal; lia).
    rewrite Hdrop. done. }
  assert (Hguess' : chars guess = (pre ++ [g]) ++ rest) by (by rewrite <-app_assoc).
  assert (Hlen' : length fb = length ((pre ++ [g]) ++ rest)) by (by rewrite <-app_assoc).
  cbn [length seq for_each second_pass].
  destruct (decide (length pre ∈ exact)) as [Hex|Hnex].
  - rewrite second_pass_body_exact by done. cbn [mbind result_bind].
    destruct (IH (pre ++ [g]) fb C Hguess' Hs Hlen' (Hnext fb eq_refl)) as [ac Hac].
    exists ac. rewrite length_app, Nat.add_1_r in Hac. rewrite Hac.
    by rewrite (take_S_r _ _ _ Hfb), <-app_assoc.
  - rewrite (second_pass_body_open _ _ _ _ _ g) by done. cbn [mbind result_bind].
    destruct (first_unconsumed 0 s C g) as [j|] eqn:Hfu.
    + destruct (IH (pre ++ [g]) (<[length pre:="1"%char]> fb) ({[j]} ∪ C)) as [ac Hac].
      * done.
      * done.
      * by rewrite length_insert.
      * apply Hnext. by rewrite drop_insert_lt by lia.
      * exists ac. rewrite length_app, Nat.add_1_r in Hac. rewrite Hac.
        rewrite (take_S_r _ _ "1"%char) by (by rewrite list_lookup_insert_eq).
        rewrite take_insert_ge by lia. by rewrite <-app_assoc.
    + destruct (IH (pre ++ [g]) fb C Hguess' Hs Hlen' (Hnext fb eq_refl)) as [ac Hac].
      exists ac. rewrite length_app, Nat.add_1_r in Hac. rewrite Hac.
      by rewrite (take_S_r _ _ _ Hfb), <-app_assoc.
Qed.

(** The encoder computes the two-pass pattern. *)
Lemma get_feedback_encode guess secret :
  is_word guess → is_word secret →
  get_feedback guess secret = Ok (render (encode guess secret)).
Proof.
  unfold is_word. rewrite !len_chars. intros Hg Hs.
  unfold get_feedback, encode, render. cbn zeta.
  rewrite <-paint_empty, <-unconsumed_empty. unfold range.
  rewrite first_pass_spec by (done || lia). cbn [mbind result_bind].
  destruct (second_pass_spec guess (chars secret)
              (exact_below (chars guess) (chars secret) 5)
              (chars guess) [] (paint 5 (exact_below (chars guess) (chars secret) 5))
              (exact_below (chars guess) (chars secret) 5)) as [ac Hac].
  - done.
  - done.
  - by rewrite paint_length.
  - by rewrite Hg.
  - cbn [length] in Hac. rewrite Hg in *. rewrite Hac. done.
Qed.

Lemma second_pass_all_exact i rest s exact C :
  symbol <$> second_pass i rest s exact C = replicate (length rest) "2"%char
  ↔ ∀ k, k < length rest → i + k ∈ exact.
Proof.
  revert i C. induction rest as [|g rest IH]; intros i C; cbn [second_pass length].
  - split; [intros _ k Hk; lia|done].
  - destruct (decide (i ∈ exact)) as [Hin|Hout].
    + cbn [fmap list_fmap replicate symbol]. split.
      * intros [= Heq] [|k] Hk; [by rewrite Nat.add_0_r|].
        rewrite Nat.add_succ_r. apply (proj1 (IH (S i) C) Heq k). lia.
      * intros Hall. f_equal. apply IH. intros k Hk.
        specialize (Hall (S k)). rewrite Nat.add_succ_r in Hall. apply Hall. lia.
    + split.
      * intros Heq. exfalso. destruct (first_unconsumed 0 s C g); discriminate Heq.
      * intros Hall. exfalso. apply Hout. specialize (Hall 0).
        rewrite Nat.add_0_r in Hall. apply Hall. lia.
Qed.

(** C8: for 5-letter words [guess] and [secret], [get_feedback] yields the
    all-EXACT pattern "22222" exactly when the two words are equal. *)
Theorem get_feedback_solved guess secret :
  is_word guess → is_word secret →
  get_feedback guess secret = Ok "22222" ↔ guess = secret.
Proof.
  intros Hg Hs. rewrite get_feedback_encode by done.
  unfold is_word in *. rewrite len_chars in Hg, Hs.
  unfold render, encode. cbn zeta.
  split.
  - intros [= Heq]. apply (f_equal chars) in Heq. rewrite chars_join in Heq.
    change (chars "22222") with (replicate 5 "2"%char) in Heq.
    replace (replicate 5 "2"%char) with (replicate (length (chars guess)) "2"%char)
      in Heq by (by rewrite Hg).
    pose proof (proj1 (second_pass_all_exact _ _ _ _ _) Heq) as Hall. clear Heq.
    rename Hall into Heq. apply chars_inj, list_eq. intros k.
    destruct (decide (k < 5)) as [Hk|Hk].
    + specialize (Heq k). rewrite Hg in Heq. specialize (Heq Hk).
      by apply elem_of_exact_below in Heq as [_ ?].
    + by rewrite !lookup_ge_None_2 by lia.
  - intros ->. f_equal.
    change "22222" with (join (replicate 5 "2"%char)). f_equal.
    rewrite <-Hs. apply second_pass_all_exact. intros k Hk.
    apply elem_of_exact_below. split; [lia|done].
Qed.

(** ** Pattern cache and candidate filter *)

Lemma get_feedback_total guess secret :
  is_word guess → is_word secret → is_Ok (get_feedback guess secret).
Proof. intros. eexists. by apply get_feedback_encode. Qed.

Lemma lookup_or_compute_total P w g :
  is_word g → is_word w → is_Ok (lookup_or_compute P w g).
Proof.
  intros. unfold lookup_or_compute. destruct (cached P w g); [by eexists|].
  by apply get_feedback_total.
Qed.

Lemma lookup_or_compute_empty w g : lookup_or_compute ∅ w g = get_feedback g w.
Proof. unfold lookup_or_compute, cached. by rewrite lookup_empty. Qed.

Lemma same_lookups_refl P : same_lookups P P.
Proof. by intros w g. Qed.

Lemma same_lookups_trans P1 P2 P3 :
  same_lookups P1 P2 → same_lookups P2 P3 → same_lookups P1 P3.
Proof. intros H12 H23 w g. by rewrite H23, H12. Qed.

Lemma cache_fill_spec st w g p :
  lookup_or_compute (precomputed_patterns st) w g = Ok p →
  ∃ st', cache_fill st w g = Ok (p, st')
         ∧ same_lookups (precomputed_patterns st) (precomputed_patterns st')
         ∧ precomputed_patterns st' ≠ ∅.
Proof.
  destruct st as [P d]. unfold lookup_or_compute, cached, cache_fill.
  cbn [precomputed_patterns cache_dirty].
  destruct (P !! w) as [row|] eqn:Hw; cbn [mbind option_bind].
  - rewrite Hw. cbn [default from_option id]. destruct (row !! g) as [q|] eqn:Hg.
    + intros [= ->]. eexists. split; [done|]. split; [apply same_lookups_refl|].
      cbn. intros ->. by rewrite lookup_empty in Hw.
    + intros Hp. rewrite Hp. cbn. eexists. split; [done|]. cbn. split.
      * intros w' g'. unfold lookup_or_compute, cached.
        destruct (decide (w' = w)) as [->|Hne].
        -- rewrite lookup_insert_eq, Hw. cbn.
           destruct (decide (g' = g)) as [->|Hneg].
           ++ by rewrite lookup_insert_eq, Hg.
           ++ by rewrite lookup_insert_ne.
        -- by rewrite lookup_insert_ne.
      * apply insert_non_empty.
  - rewrite lookup_insert_eq. cbn [default from_option id]. rewrite lookup_empty.
    intros Hp. rewrite Hp. cbn. eexists. split; [done|]. cbn. split.
    + intros w' g'. unfold lookup_or_compute, cached.
      destruct (decide (w' = w)) as [->|Hne].
      * rewrite lookup_insert_eq, Hw. cbn.
        destruct (decide (g' = g)) as [->|Hneg].
        -- by rewrite lookup_insert_eq.
        -- by rewrite lookup_insert_ne, lookup_empty.
      * by rewrite !lookup_insert_ne.
    + apply insert_non_empty.
Qed.

Lemma filter_comp_spec {A} (p : A → result bool) (P : A → Prop)
    `{∀ x, Decision (P x)} (l : list A) :
  (∀ x, x ∈ l → p x = Ok (bool_decide (P x))) →
  filter_comp p l = Ok (filter P l).
Proof.
  induction l as [|x l IH]; intros Hp; [done|].
  rewrite filter_cons. cbn [filter_comp].
  rewrite (Hp x (list_elem_of_here _ _)). cbn [mbind result_bind].
  rewrite IH. 2:{ intros y Hy. apply Hp. by apply list_elem_of_further. }
  cbn [mbind result_bind].
  destruct (decide (P x)); [by rewrite bool_decide_true|by rewrite bool_decide_false].
Qed.

Lemma test_feedback_spec g fb w :
  is_Ok (get_feedback g w) →
  (p ← get_feedback g w; Ok (bool_decide (p = fb)))
  = Ok (bool_decide (matches (g, fb) w)).
Proof.
  intros [p Hp]. rewrite Hp. cbn [mbind result_bind]. f_equal.
  apply bool_decide_ext. unfold matches. cbn [fst snd]. rewrite Hp. naive_solver.
Qed.

Lemma keep_cached_step g fb acc st w p st' :
  cache_fill st w g = Ok (p, st') →
  Solver.keep_cached g fb (acc, st) w
  = Ok (if decide (p = fb) then acc ++ [w] else acc, st').
Proof. intros Hfill. unfold Solver.keep_cached. cbn [fst snd]. by rewrite Hfill. Qed.

Lemma keep_cached_loop g fb l : ∀ acc st,
  (∀ w, w ∈ l → is_Ok (lookup_or_compute (precomputed_patterns st) w g)) →
  ∃ st', for_each (Solver.keep_cached g fb) l (acc, st)
         = Ok (acc ++ filter (keeps (precomputed_patterns st) (g, fb)) l, st')
       ∧ same_lookups (precomputed_patterns st) (precomputed_patterns st')
       ∧ (l ≠ [] → precomputed_patterns st' ≠ ∅).
Proof.
  induction l as [|w l IH]; intros acc st Hok.
  { exists st. rewrite app_nil_r. split; [done|]. split; [apply same_lookups_refl|done]. }
  destruct (Hok w) as [p Hp]; [apply list_elem_of_here|].
  destruct (cache_fill_spec _ _ _ _ Hp) as (st1 & Hfill & Hsame & Hne).
  destruct (IH (if decide (p = fb) then acc ++ [w] else acc) st1) as (st' & Hrun & Hsame' & _).
  { intros w' Hw'. rewrite Hsame. apply Hok. by apply list_elem_of_further. }
  exists st'. split; [|split].
  - cbn [for_each]. rewrite (keep_cached_step _ _ _ _ _ _ _ Hfill).
    cbn [mbind result_bind]. rewrite Hrun. f_equal. f_equal.
    rewrite filter_cons.
    rewrite (list_filter_iff (keeps (precomputed_patterns st1) (g, fb))
                             (keeps (precomputed_patterns st) (g, fb))).
    2:{ intros x. unfold keeps. by rewrite Hsame. }
    destruct (decide (p = fb)) as [->|Hneq].
    + rewrite decide_True by done. by rewrite <-app_assoc.
    + rewrite decide_False; [done|]. unfold keeps. cbn [fst snd]. rewrite Hp. congruence.
  - by eapply same_lookups_trans.
  - intros _. intros Hemp.
    destruct l as [|w2 l].
    + cbn in Hrun. injection Hrun as _ <-. done.
    + destruct (IH (if decide (p = fb) then acc ++ [w] else acc) st1) as (st2 & Hrun2 & _ & Hne2).
      { intros w' Hw'. rewrite Hsame. apply Hok. by apply list_elem_of_further. }
      rewrite Hrun in Hrun2. injection Hrun2 as <-. by apply Hne2.
Qed.

Lemma keeps_same P P' gf w : same_lookups P P' → keeps P' gf w ↔ keeps P gf w.
Proof. intros Hs. unfold keeps. by rewrite Hs. Qed.

Lemma survives_same P P' hist w :
  same_lookups P P' → survives P' hist w ↔ survives P hist w.
Proof.
  intros Hs. unfold survives. apply Forall_proper; [|done].
  intros gf. by apply keeps_same.
Qed.

Lemma keeps_empty gf w : keeps ∅ gf w ↔ matches gf w.
Proof. unfold keeps, matches. by rewrite lookup_or_compute_empty. Qed.

Lemma filter_all {A} (P : A → Prop) `{∀ x, Decision (P x)} (l : list A) :
  (∀ x, x ∈ l → P x) → filter P l = l.
Proof.
  induction l as [|x l IH]; intros HP; [done|].
  rewrite filter_cons, decide_True by (apply HP, list_elem_of_here).
  f_equal. apply IH. intros y Hy. by apply HP, list_elem_of_further.
Qed.

Lemma filter_ext_in {A} (P Q : A → Prop) `{∀ x, Decision (P x)}
    `{∀ x, Decision (Q x)} (l : list A) :
  (∀ x, x ∈ l → P x ↔ Q x) → filter P l = filter Q l.
Proof.
  induction l as [|x l IH]; intros HPQ; [done|].
  rewrite !filter_cons. rewrite IH by (intros y Hy; by apply HPQ, list_elem_of_further).
  pose proof (HPQ x (list_elem_of_here _ _)).
  destruct (decide (P x)), (decide (Q x)); tauto || done.
Qed.

Lemma solver_filter_round_spec l st gf :
  (∀ w, w ∈ l → is_Ok (lookup_or_compute (precomputed_patterns st) w gf.1)) →
  ∃ st', Solver.filter_round (l, st) gf
         = Ok (filter (keeps (precomputed_patterns st) gf) l, st')
       ∧ same_lookups (precomputed_patterns st) (precomputed_patterns st').
Proof.
  intros Hok. destruct gf as [g fb]. unfold Solver.filter_round. cbn [fst snd] in *.
  destruct (decide (precomputed_patterns st ≠ ∅)) as [Hne|He].
  - destruct (keep_cached_loop g fb l [] st Hok) as (st' & Hrun & Hsame & _).
    exists st'. by rewrite Hrun.
  - apply dec_stable in He. exists st. split; [|apply same_lookups_refl].
    rewrite (filter_comp_spec _ (matches (g, fb))).
    + cbn [mbind result_bind]. f_equal. f_equal. apply list_filter_iff.
      intros w. rewrite He. symmetry. apply keeps_empty.
    + intros w Hw. apply test_feedback_spec.
      specialize (Hok w Hw). by rewrite He, lookup_or_compute_empty in Hok.
Qed.

Lemma solver_filter_rounds_spec hist : ∀ l st,
  (∀ w g, w ∈ l → g ∈ hist.*1 →
          is_Ok (lookup_or_compute (precomputed_patterns st) w g)) →
  ∃ st', for_each Solver.filter_round hist (l, st)
         = Ok (filter (survives (precomputed_patterns st) hist) l, st')
       ∧ same_lookups (precomputed_patterns st) (precomputed_patterns st').
Proof.
  induction hist as [|gf hist IH]; intros l st Hok.
  { exists st. split; [|apply same_lookups_refl]. cbn [for_each]. f_equal. f_equal.
    symmetry. apply filter_all. intros; apply Forall_nil_2. }
  destruct (solver_filter_round_spec l st gf) as (st1 & Hround & Hsame1).
  { intros w Hw. apply Hok; [done|]. rewrite fmap_cons. apply list_elem_of_here. }
  destruct (IH (filter (keeps (precomputed_patterns st) gf) l) st1) as (st' & Hrun & Hsame').
  { intros w g Hw Hg. rewrite Hsame1. apply Hok.
    - by apply list_elem_of_filter in Hw as [_ ?].
    - rewrite fmap_cons. by apply list_elem_of_further. }
  exists st'. split; [|by eapply same_lookups_trans].
  cbn [for_each]. rewrite Hround. cbn [mbind result_bind]. rewrite Hrun.
  f_equal. f_equal. rewrite list_filter_filter. apply list_filter_iff.
  intros w. rewrite (survives_same _ _ _ _ Hsame1). unfold survives.
  rewrite Forall_cons. tauto.
Qed.

Lemma helper_keep_cached_loop P g fb l : ∀ acc,
  (∀ w, w ∈ l → is_Ok (lookup_or_compute P w g)) →
  for_each (Helper.keep_cached P g fb) l acc
  = Ok (acc ++ filter (keeps P (g, fb)) l).
Proof.
  induction l as [|w l IH]; intros acc Hok.
  { by rewrite app_nil_r. }
  destruct (Hok w (list_elem_of_here _ _)) as [p Hp].
  assert (Hstep : Helper.keep_cached P g fb acc w
                  = Ok (if decide (p = fb) then acc ++ [w] else acc)).
  { unfold Helper.keep_cached. unfold lookup_or_compute, cached in Hp.
    destruct (P !! w ≫= λ row, row !! g) as [q|].
    - by injection Hp as ->.
    - by rewrite Hp. }
  cbn [for_each]. rewrite Hstep. cbn [mbind result_bind].
  rewrite IH by (intros y Hy; by apply Hok, list_elem_of_further).
  f_equal. rewrite filter_cons.
  destruct (decide (p = fb)) as [->|Hneq].
  - rewrite decide_True by done. by rewrite <-app_assoc.
  - rewrite decide_False; [done|]. unfold keeps. cbn [fst snd]. rewrite Hp. congruence.
Qed.

Lemma helper_filter_round_spec P l gf :
  (∀ w, w ∈ l → is_Ok (lookup_or_compute P w gf.1)) →
  Helper.filter_round P l gf = Ok (filter (keeps P gf) l).
Proof.
  intros Hok. destruct gf as [g fb]. unfold Helper.filter_round. cbn [fst snd] in *.
  destruct (decide (P ≠ ∅)) as [Hne|He].
  - by rewrite helper_keep_cached_loop.
  - apply dec_stable in He. subst P.
    rewrite (filter_comp_spec _ (matches (g, fb))).
    + reflexivity.
    + intros w Hw. apply test_feedback_spec.
      specialize (Hok w Hw). by rewrite lookup_or_compute_empty in Hok.
Qed.

Lemma helper_filter_rounds_spec P hist : ∀ l,
  (∀ w g, w ∈ l → g ∈ hist.*1 → is_Ok (lookup_or_compute P w g)) →
  for_each (Helper.filter_round P) hist l = Ok (filter (survives P hist) l).
Proof.
  induction hist as [|gf hist IH]; intros l Hok.
  { cbn [for_each]. f_equal. symmetry. apply filter_all. intros; apply Forall_nil_2. }
  cbn [for_each]. rewrite helper_filter_round_spec.
  2:{ intros w Hw. apply Hok; [done|]. rewrite fmap_cons. apply list_elem_of_here. }
  cbn [mbind result_bind]. rewrite IH.
  2:{ intros w g Hw Hg. apply Hok.
      - by apply list_elem_of_filter in Hw as [_ ?].
      - rewrite fmap_cons. by apply list_elem_of_further. }
  f_equal. rewrite list_filter_filter. apply list_filter_iff.
  intros w. unfold survives. rewrite Forall_cons. tauto.
Qed.

Lemma enumerate_lookup {A} (l : list A) k x :
  l !! k = Some x → (k, x) ∈ enumerate l.
Proof.
  intros Hk. unfold enumerate. apply list_elem_of_lookup. exists k.
  apply lookup_zip_with_Some. exists k, x. split; [done|]. split; [|done].
  apply lookup_seq. split; [done|]. by eapply lookup_lt_Some.
Qed.

Lemma entry_agrees_keeps P w gf :
  entry_agrees P w gf.1 → keeps P gf w ↔ matches gf w.
Proof.
  unfold entry_agrees, keeps, matches, lookup_or_compute.
  destruct (cached P w gf.1); [|done]. by intros ->.
Qed.

Lemma survives_consistent P answers hist w :
  cache_agrees P answers hist → w ∈ answers →
  survives P hist w ↔ consistent_with hist w.
Proof.
  intros Hagree Hw.
  assert (Hk : ∀ k, survives P (take k hist) w ↔ consistent_with (take k hist) w).
  { induction k as [|k IH].
    { rewrite take_0. split; intros _; apply Forall_nil_2. }
    destruct (hist !! k) as [gf|] eqn:Hgf.
    - rewrite (take_S_r _ _ _ Hgf). unfold survives, consistent_with in *.
      rewrite !Forall_app, !Forall_singleton.
      unfold cache_agrees in Hagree. rewrite Forall_forall in Hagree.
      specialize (Hagree _ (enumerate_lookup _ _ _ Hgf)). cbn [fst snd] in Hagree.
      rewrite Forall_forall in Hagree. specialize (Hagree w Hw).
      split.
      + intros [Hs Hkeep]. apply IH in Hs. split; [done|].
        by apply (entry_agrees_keeps P w gf (Hagree Hs)).
      + intros [Hc Hm]. split; [by apply IH|].
        by apply (entry_agrees_keeps P w gf (Hagree Hc)).
    - apply lookup_ge_None in Hgf. rewrite take_ge by lia.
      by rewrite take_ge in IH by lia. }
  specialize (Hk (length hist)). by rewrite take_ge in Hk by lia.
Qed.

Lemma words_lookups_ok P (answers guesses : list string) (fbs : list string) :
  Forall is_word answers → Forall is_word guesses →
  ∀ w g, w ∈ answers → g ∈ (zip guesses fbs).*1 → is_Ok (lookup_or_compute P w g).
Proof.
  intros Ha Hg w g Hw Hgin. apply lookup_or_compute_total.
  - rewrite Forall_forall in Hg. apply Hg.
    apply list_elem_of_fmap in Hgin as ([g' fb] & -> & Hin).
    unfold zip in Hin. by apply elem_of_zip_l in Hin.
  - rewrite Forall_forall in Ha. by apply Ha.
Qed.

(** C3: for every history, [filter_possible_answers] (both the caching
    one of [solver.py] and the read-only one of [helper.py]) returns exactly
    the words [w] of the Answer Set, in its order, with
    [get_feedback(guess, w) == feedback] for every pair of the history,
    provided the cache entries it consults agree with [get_feedback]. *)
Theorem filter_possible_answers_exact
    (possible_answers : list string) (st : Solver.state)
    (P : gmap string (gmap string string)) (guesses feedbacks : list string) :
  Forall is_word possible_answers → Forall is_word guesses →
  cache_agrees (precomputed_patterns st) possible_answers (zip guesses feedbacks) →
  cache_agrees P possible_answers (zip guesses feedbacks) →
  (∃ st', Solver.filter_possible_answers possible_answers st guesses feedbacks
          = Ok (filter (consistent_with (zip guesses feedbacks)) possible_answers, st'))
  ∧ Helper.filter_possible_answers possible_answers P guesses feedbacks
    = Ok (filter (consistent_with (zip guesses feedbacks)) possible_answers).
Proof.
  intros Ha Hg Hst HP. split.
  - destruct (solver_filter_rounds_spec (zip guesses feedbacks) possible_answers st)
      as (st' & Hrun & _).
    { by apply words_lookups_ok. }
    exists st'. unfold Solver.filter_possible_answers. rewrite Hrun. f_equal. f_equal.
    apply filter_ext_in. intros w Hw. by eapply survives_consistent.
  - unfold Helper.filter_possible_answers. rewrite helper_filter_rounds_spec.
    + f_equal. apply filter_ext_in. intros w Hw. by eapply survives_consistent.
    + by apply words_lookups_ok.
Qed.

Lemma Forall_is_word_filter (P : string → Prop) `{∀ x, Decision (P x)} l :
  Forall is_word l → Forall is_word (filter P l).
Proof.
  rewrite !Forall_forall. intros Hl w Hw. apply Hl.
  by apply list_elem_of_filter in Hw as [_ ?].
Qed.

Lemma filter_filter_same {A} (P : A → Prop) `{∀ x, Decision (P x)} (l : list A) :
  filter P (filter P l) = filter P l.
Proof. by apply list_filter_filter_r. Qed.

Lemma filter_by_membership {A} `{EqDecision A} (P : A → Prop)
    `{∀ x, Decision (P x)} (l : list A) :
  filter P l = filter (λ x, x ∈ filter P l) l.
Proof.
  apply filter_ext_in. intros x Hx. rewrite list_elem_of_filter. tauto.
Qed.

(** C9: the result of the filter is a subset of the candidate list it
    starts from, and running the filter again with the same history on its
    own output (in the state the first run left, for [solver.py]) returns
    that output unchanged. *)
Theorem filter_subset_idempotent
    (possible_answers : list string) (st : Solver.state)
    (P : gmap string (gmap string string)) (guesses feedbacks : list string) :
  Forall is_word possible_answers → Forall is_word guesses →
  (∃ out st',
      Solver.filter_possible_answers possible_answers st guesses feedbacks = Ok (out, st')
      ∧ out ⊆ possible_answers
      ∧ ∃ st'', Solver.filter_possible_answers out st' guesses feedbacks = Ok (out, st''))
  ∧ (∃ out,
      Helper.filter_possible_answers possible_answers P guesses feedbacks = Ok out
      ∧ out ⊆ possible_answers
      ∧ Helper.filter_possible_answers out P guesses feedbacks = Ok out).
Proof.
  intros Ha Hg. set (hist := zip guesses feedbacks). split.
  - destruct (solver_filter_rounds_spec hist possible_answers st) as (st' & Hrun & Hsame).
    { by apply words_lookups_ok. }
    set (out := filter (survives (precomputed_patterns st) hist) possible_answers) in *.
    exists out, st'. split; [done|]. split; [apply list_subseteq_filter|].
    destruct (solver_filter_rounds_spec hist out st') as (st'' & Hrun' & _).
    { apply words_lookups_ok; [|done]. by apply Forall_is_word_filter. }
    exists st''. unfold Solver.filter_possible_answers. fold hist. rewrite Hrun'.
    f_equal. f_equal. unfold out.
    rewrite (list_filter_iff _ (survives (precomputed_patterns st) hist)).
    + apply filter_filter_same.
    + intros w. by apply survives_same.
  - set (out := filter (survives P hist) possible_answers).
    exists out. split; [|split].
    + unfold Helper.filter_possible_answers. apply helper_filter_rounds_spec.
      by apply words_lookups_ok.
    + apply list_subseteq_filter.
    + unfold Helper.filter_possible_answers. fold hist.
      rewrite helper_filter_rounds_spec.
      * f_equal. apply filter_filter_same.
      * apply words_lookups_ok; [|done]. by apply Forall_is_word_filter.
Qed.

(** C10: the list [filter_possible_answers] returns is an order-preserving
    sublist of the Answer Set list: it is the Answer Set with the words that
    do not survive struck out, so survivors keep their relative order. *)
Theorem filter_preserves_order
    (possible_answers : list string) (st : Solver.state)
    (P : gmap string (gmap string string)) (guesses feedbacks : list string) :
  Forall is_word possible_answers → Forall is_word guesses →
  (∃ out st',
      Solver.filter_possible_answers possible_answers st guesses feedbacks = Ok (out, st')
      ∧ out `sublist_of` possible_answers
      ∧ out = filter (λ w, w ∈ out) possible_answers)
  ∧ (∃ out,
      Helper.filter_possible_answers possible_answers P guesses feedbacks = Ok out
      ∧ out `sublist_of` possible_answers
      ∧ out = filter (λ w, w ∈ out) possible_answers).
Proof.
  intros Ha Hg. set (hist := zip guesses feedbacks). split.
  - destruct (solver_filter_rounds_spec hist possible_answers st) as (st' & Hrun & _).
    { by apply words_lookups_ok. }
    eexists _, st'. split; [exact Hrun|]. split; [apply sublist_filter|].
    apply filter_by_membership.
  - eexists. split; [|split].
    + unfold Helper.filter_possible_answers. apply helper_filter_rounds_spec.
      by apply words_lookups_ok.
    + apply sublist_filter.
    + apply filter_by_membership.
Qed.


(** ** Hard-mode checker *)

Lemma pinned_items_app its1 its2 i :
  pinned_items (its1 ++ its2) i
  = match pinned_items its2 i with
    | Some c => Some c
    | None => pinned_items its1 i
    end.
Proof.
  induction its1 as [|x its1 IH]; cbn [app pinned_items].
  - by destruct (pinned_items its2 i).
  - rewrite IH. by destruct (pinned_items its2 i).
Qed.

Lemma for_each_concat {A B S} (body : S → B → result S) (f : A → list B) xs s :
  for_each (λ s x, for_each body (f x) s) xs s
  = for_each body (mjoin (f <$> xs)) s.
Proof.
  revert s. induction xs as [|x xs IH]; intros s; [done|].
  cbn [for_each fmap list_fmap mjoin list_join]. rewrite for_each_app.
  destruct (for_each body (f x) s); cbn [mbind result_bind]; [apply IH|done].
Qed.

Lemma enumerate_elem {A} (l : list A) k x :
  (k, x) ∈ enumerate l ↔ l !! k = Some x.
Proof.
  unfold enumerate. rewrite list_elem_of_lookup. split.
  - intros [j Hj]. apply lookup_zip_with_Some in Hj as (a & b & [= <- <-] & Ha & Hb).
    apply lookup_seq in Ha as [-> _]. done.
  - intros Hk. exists k. apply lookup_zip_with_Some. exists k, x.
    split; [done|]. split; [|done]. apply lookup_seq. split; [done|].
    by eapply lookup_lt_Some.
Qed.

Lemma round_items_elem gf j g f :
  (j, (g, f)) ∈ round_items gf ↔ chars gf.1 !! j = Some g ∧ chars gf.2 !! j = Some f.
Proof.
  unfold round_items. rewrite enumerate_elem. unfold zip.
  rewrite lookup_zip_with_Some. split.
  - intros (a & b & [= <- <-] & Ha & Hb). done.
  - intros [Ha Hb]. eauto.
Qed.

Lemma items_elem hist j g f :
  (j, (g, f)) ∈ mjoin (round_items <$> hist)
  ↔ ∃ gf, gf ∈ hist ∧ chars gf.1 !! j = Some g ∧ chars gf.2 !! j = Some f.
Proof.
  rewrite list_elem_of_join. split.
  - intros (l & Hin & Hl). apply list_elem_of_fmap in Hl as (gf & -> & Hgf).
    exists gf. split; [done|]. by apply round_items_elem.
  - intros (gf & Hgf & Hg). exists (round_items gf). split.
    + by apply round_items_elem.
    + apply list_elem_of_fmap. eauto.
Qed.

Lemma pinned_items_snoc items item i :
  pinned_items (items ++ [item]) i
  = match item_pin item i with
    | Some c => Some c
    | None => pinned_items items i
    end.
Proof. rewrite pinned_items_app. done. Qed.

Lemma record_items_spec items :
  (∀ item, item ∈ items → item.1 < 5) →
  ∃ c, for_each record_letter items (Constraints (replicate 5 None) ∅ ∅) = Ok c
       ∧ records items c.
Proof.
  induction items as [|[j [g f]] items IH] using rev_ind; intros Hlt.
  { eexists. split; [done|]. split; cbn [green_positions yellow_letters yellow_positions].
    - done.
    - intros i Hi. by rewrite lookup_replicate_2.
    - intros g. split; [set_solver|]. intros [j Hj]. by apply not_elem_of_nil in Hj.
    - set_solver.
    - intros g _. apply lookup_empty. }
  destruct IH as (c & Hrun & [Hlen Hgreen Hyellow Hpos Hdom]).
  { intros item Hin. apply Hlt. apply elem_of_app. by left. }
  assert (Hj : j < 5).
  { apply (Hlt (j, (g, f))). apply elem_of_app. right. apply list_elem_of_here. }
  rewrite for_each_app, Hrun. cbn [mbind result_bind for_each].
  unfold record_letter.
  destruct (decide (f = "2"%char)) as [->|Hf2].
  - rewrite assign_lt by lia. cbn [mbind result_bind].
    eexists. split; [done|]. split; cbn [green_positions yellow_letters yellow_positions].
    + by rewrite length_insert.
    + intros i Hi. rewrite pinned_items_snoc. unfold item_pin. cbn [fst snd].
      destruct (decide (j = i)) as [->|Hne].
      * rewrite list_lookup_insert_eq by lia. by rewrite decide_True.
      * rewrite list_lookup_insert_ne by done. rewrite decide_False by tauto. by apply Hgreen.
    + intros g'. rewrite Hyellow. split; intros [j' Hj'].
      * exists j'. apply elem_of_app. by left.
      * apply elem_of_app in Hj' as [?|Hj']; [eauto|].
        apply list_elem_of_singleton in Hj'. discriminate Hj'.
    + intros g' Hg'. destruct (Hpos g' Hg') as (ps & Hps & Hiff).
      exists ps. split; [done|]. intros j'. rewrite Hiff, elem_of_app.
      split; [by left|]. intros [?|Hj']; [done|].
      apply list_elem_of_singleton in Hj'. discriminate Hj'.
    + done.
  - destruct (decide (f = "1"%char)) as [->|Hf1].
    + eexists. split; [done|]. split; cbn [green_positions yellow_letters yellow_positions].
      * done.
      * intros i Hi. rewrite pinned_items_snoc. unfold item_pin. cbn [fst snd].
        rewrite decide_False by (intros [_ ?]; done). by apply Hgreen.
      * intros g'. rewrite elem_of_union, elem_of_singleton, Hyellow. split.
        -- intros [->|[j' Hj']].
           ++ exists j. apply elem_of_app. right. apply list_elem_of_here.
           ++ exists j'. apply elem_of_app. by left.
        -- intros [j' Hj']. apply elem_of_app in Hj' as [?|Hj']; [eauto|].
           apply list_elem_of_singleton in Hj'. injection Hj' as -> ->. by left.
      * intros g' Hg'. destruct (decide (g' = g)) as [->|Hne].
        -- rewrite lookup_insert_eq. eexists. split; [done|].
           intros j'. rewrite elem_of_union, elem_of_singleton, elem_of_app,
             list_elem_of_singleton.
           destruct (decide (g ∈ yellow_letters c)) as [Hin|Hout].
           ++ destruct (Hpos g Hin) as (ps & -> & Hiff). cbn [default from_option id].
              rewrite Hiff. split; [intros [?| ->]; auto|].
              intros [?|[= ->]]; auto.
           ++ rewrite (Hdom g Hout). cbn [default from_option id]. split.
              ** intros [Hj'| ->]; [set_solver|by right].
              ** intros [Hj'|[= ->]]; [|by right].
                 exfalso. apply Hout, Hyellow. eauto.
        -- rewrite lookup_insert_ne by done.
           apply elem_of_union in Hg' as [Hg'|Hg']; [set_solver|].
           destruct (Hpos g' Hg') as (ps & Hps & Hiff).
           exists ps. split; [done|]. intros j'. rewrite Hiff, elem_of_app.
           split; [by left|]. intros [?|Hj']; [done|].
           apply list_elem_of_singleton in Hj'. congruence.
      * intros g' Hg'. rewrite lookup_insert_ne by set_solver. apply Hdom. set_solver.
    + eexists. split; [done|]. split.
      * done.
      * intros i Hi. rewrite pinned_items_snoc. unfold item_pin. cbn [fst snd].
        rewrite decide_False by (intros [_ ?]; done). by apply Hgreen.
      * intros g'. rewrite Hyellow. split; intros [j' Hj'].
        -- exists j'. apply elem_of_app. by left.
        -- apply elem_of_app in Hj' as [?|Hj']; [eauto|].
           apply list_elem_of_singleton in Hj'. congruence.
      * intros g' Hg'. destruct (Hpos g' Hg') as (ps & Hps & Hiff).
        exists ps. split; [done|]. intros j'. rewrite Hiff, elem_of_app.
        split; [by left|]. intros [?|Hj']; [done|].
        apply list_elem_of_singleton in Hj'. congruence.
      * done.
Qed.

Lemma check_green_spec guess items :
  (∀ i l, (i, Some l) ∈ items → i < length (chars guess)) →
  ∃ b, check_green guess items = Ok b
       ∧ (b = true ↔ ∀ i l, (i, Some l) ∈ items → chars guess !! i = Some l).
Proof.
  induction items as [|[i [l|]] items IH]; intros Hlt.
  - exists true. split; [done|]. split; [|done].
    intros _ i l Hin. by apply not_elem_of_nil in Hin.
  - destruct IH as (b & Hrun & Hb).
    { intros i' l' Hin. apply (Hlt i' l'). by apply list_elem_of_further. }
    cbn [check_green]. rewrite str_index_chars.
    destruct (lookup_lt_is_Some_2 (chars guess) i) as [c Hc].
    { apply (Hlt i l). apply list_elem_of_here. }
    rewrite (index_Some _ _ _ Hc). cbn [mbind result_bind].
    destruct (decide (c ≠ l)) as [Hne|Heq].
    + exists false. split; [done|]. split; [done|]. intros Hall.
      specialize (Hall i l (list_elem_of_here _ _)). congruence.
    + apply dec_stable in Heq. subst c. exists b. split; [done|].
      rewrite Hb. split.
      * intros Hall i' l' Hin. apply elem_of_cons in Hin as [[= -> ->]|Hin]; [done|].
        by apply Hall.
      * intros Hall i' l' Hin. apply Hall. by apply list_elem_of_further.
  - destruct IH as (b & Hrun & Hb).
    { intros i' l' Hin. apply (Hlt i' l'). by apply list_elem_of_further. }
    exists b. split; [done|]. rewrite Hb. split.
    + intros Hall i' l' Hin. apply elem_of_cons in Hin as [[=]|Hin]. by apply Hall.
    + intros Hall i' l' Hin. apply Hall. by apply list_elem_of_further.
Qed.

Lemma check_positions_spec guess letter ps :
  (∀ pos, pos ∈ ps → pos < length (chars guess)) →
  ∃ b, check_positions guess letter ps = Ok b
       ∧ (b = true ↔ ∀ pos, pos ∈ ps → chars guess !! pos ≠ Some letter).
Proof.
  induction ps as [|pos ps IH]; intros Hlt.
  - exists true. split; [done|]. split; [|done].
    intros _ pos Hin. by apply not_elem_of_nil in Hin.
  - destruct IH as (b & Hrun & Hb).
    { intros pos' Hin. apply Hlt. by apply list_elem_of_further. }
    cbn [check_positions]. rewrite str_index_chars.
    destruct (lookup_lt_is_Some_2 (chars guess) pos) as [c Hc].
    { apply Hlt. apply list_elem_of_here. }
    rewrite (index_Some _ _ _ Hc). cbn [mbind result_bind].
    destruct (decide (c = letter)) as [->|Hne].
    + exists false. split; [done|]. split; [done|]. intros Hall.
      by specialize (Hall pos (list_elem_of_here _ _)).
    + exists b. split; [done|]. rewrite Hb. split.
      * intros Hall pos' Hin. apply elem_of_cons in Hin as [->|Hin]; [congruence|].
        by apply Hall.
      * intros Hall pos' Hin. apply Hall. by apply list_elem_of_further.
Qed.

Lemma check_yellow_spec guess yp letters :
  (∀ letter, letter ∈ letters →
     ∃ ps, yp !! letter = Some ps ∧ ∀ pos, pos ∈ ps → pos < length (chars guess)) →
  ∃ b, check_yellow guess yp letters = Ok b
       ∧ (b = true ↔
          ∀ letter, letter ∈ letters →
            letter ∈ chars guess
            ∧ ∀ ps pos, yp !! letter = Some ps → pos ∈ ps →
                        chars guess !! pos ≠ Some letter).
Proof.
  induction letters as [|letter letters IH]; intros Hok.
  - exists true. split; [done|]. split; [|done].
    intros _ l Hin. by apply not_elem_of_nil in Hin.
  - destruct IH as (b & Hrun & Hb).
    { intros l Hin. apply Hok. by apply list_elem_of_further. }
    destruct (Hok letter (list_elem_of_here _ _)) as (ps & Hps & Hlt).
    destruct (check_positions_spec guess letter (elements ps)) as (bp & Hrunp & Hbp).
    { intros pos Hin. apply Hlt. by apply elem_of_elements. }
    cbn [check_yellow].
    destruct (decide (letter ∉ chars guess)) as [Hout|Hin].
    + exists false. split; [done|]. split; [done|]. intros Hall.
      destruct (Hall letter (list_elem_of_here _ _)) as [? _]. done.
    + apply dec_stable in Hin. rewrite Hps, Hrunp. cbn [mbind result_bind].
      destruct bp.
      * exists b. split; [done|]. rewrite Hb. split.
        -- intros Hall l Hl. apply elem_of_cons in Hl as [->|Hl]; [|by apply Hall].
           split; [done|]. intros ps' pos Hps' Hpos. rewrite Hps in Hps'.
           injection Hps' as <-. apply (proj1 Hbp eq_refl). by apply elem_of_elements.
        -- intros Hall l Hl. apply Hall. by apply list_elem_of_further.
      * exists false. split; [done|]. split; [done|]. intros Hall.
        destruct (Hall letter (list_elem_of_here _ _)) as [_ Hpos].
        assert (false = true); [|done]. apply Hbp. intros pos Hin'.
        apply (Hpos ps); [done|]. by apply elem_of_elements.
Qed.

Lemma pinned_items_zip_seq (l : list (ascii * ascii)) : ∀ o i,
  pinned_items (base.zip (seq o (length l)) l) i
  = if decide (o ≤ i) then
      match l !! (i - o) with
      | Some (g, f) => if decide (f = "2"%char) then Some g else None
      | None => None
      end
    else None.
Proof.
  induction l as [|[g f] l IH]; intros o i.
  { cbn. by case_decide. }
  cbn [length seq base.zip zip_with pinned_items]. rewrite IH.
  unfold item_pin. cbn [fst snd].
  destruct (decide (S o ≤ i)) as [Hle|Hgt].
  - rewrite (decide_True (P := o ≤ i)) by lia.
    rewrite (decide_False (P := o = i ∧ f = "2"%char)) by (intros [? _]; lia).
    replace (i - o) with (S (i - S o)) by lia. cbn [lookup list_lookup].
    destruct (l !! (i - S o)) as [[g' f']|] eqn:Hl; [|done].
    by destruct (decide (f' = "2"%char)).
  - destruct (decide (o = i)) as [->|Hne].
    + rewrite (decide_True (P := i ≤ i)) by lia.
      rewrite Nat.sub_diag. cbn [lookup list_lookup].
      destruct (decide (f = "2"%char)).
      * by rewrite decide_True.
      * by rewrite decide_False by tauto.
    + rewrite (decide_False (P := o = i ∧ f = "2"%char)) by tauto.
      by rewrite decide_False by lia.
Qed.

Lemma pinned_items_round gf i :
  pinned_items (round_items gf) i = exact_letter gf i.
Proof.
  unfold round_items, enumerate. rewrite pinned_items_zip_seq.
  rewrite decide_True by lia. rewrite Nat.sub_0_r. unfold exact_letter, zip.
  rewrite lookup_zip_with.
  destruct (chars gf.1 !! i) as [c|]; cbn; [|done].
  destruct (chars gf.2 !! i) as [f|]; cbn; done.
Qed.

Lemma pinned_items_hist hist i :
  pinned_items (mjoin (round_items <$> hist)) i = pinned hist i.
Proof.
  induction hist as [|gf hist IH]; [done|].
  rewrite fmap_cons. change (mjoin (?x :: ?l)) with (x ++ mjoin l).
  cbn [pinned]. by rewrite pinned_items_app, IH, pinned_items_round.
Qed.

Lemma pinned_flagged hist i c :
  pinned hist i = Some c → flagged hist "2" i c.
Proof.
  induction hist as [|gf hist IH]; [done|]. cbn [pinned].
  destruct (pinned hist i) as [c'|].
  - intros [= ->]. destruct (IH eq_refl) as (gf' & Hin & Hg).
    exists gf'. split; [by apply list_elem_of_further|done].
  - unfold exact_letter. intros He. exists gf. split; [apply list_elem_of_here|].
    destruct (chars gf.1 !! i) as [x|]; [|done].
    destruct (chars gf.2 !! i) as [f|]; [|done].
    case_decide; [|done]. by simplify_eq.
Qed.

Lemma flagged_pinned hist i c :
  flagged hist "2" i c → ∃ c', pinned hist i = Some c'.
Proof.
  induction hist as [|gf hist IH]; intros (gf0 & Hin & Hg & Hf).
  { by apply not_elem_of_nil in Hin. }
  cbn [pinned]. destruct (pinned hist i) as [c'|] eqn:Hpin; [by exists c'|].
  apply elem_of_cons in Hin as [->|Hin].
  - exists c. unfold exact_letter. rewrite Hg, Hf. by rewrite decide_True.
  - destruct IH as [c' Hc']; [by exists gf0|done].
Qed.

(** the two readings of (a) agree on a history that pins no position to
    two different letters *)
Lemma pins_held_latest hist guess :
  (∀ i c c', flagged hist "2" i c → flagged hist "2" i c' → c = c') →
  latest_pins_held hist guess ↔ pins_held hist guess.
Proof.
  intros Hone. split; intros Hheld i c.
  - intros Hflag. destruct (flagged_pinned hist i c Hflag) as [c' Hpin].
    rewrite (Hone i c c' Hflag (pinned_flagged hist i c' Hpin)). by apply Hheld.
  - intros Hpin. by apply Hheld, pinned_flagged.
Qed.

Lemma flagged_lt guesses feedbacks sym i c :
  Forall is_word guesses → flagged (zip guesses feedbacks) sym i c → i < 5.
Proof.
  intros Hw ([g fb] & Hin & Hg & _). cbn [fst snd] in *.
  unfold zip in Hin. apply elem_of_zip_l in Hin.
  rewrite Forall_forall in Hw. specialize (Hw g Hin). unfold is_word in Hw.
  rewrite len_chars in Hw. apply lookup_lt_Some in Hg. lia.
Qed.

Lemma record_round_items c gf :
  record_round c gf = for_each record_letter (round_items gf) c.
Proof. done. Qed.

Lemma enforce_latest guesses feedbacks guess :
  Forall is_word guesses → is_word guess →
  ∃ b, enforce_hard_mode_constraints guesses feedbacks guess = Ok b
       ∧ (b = true ↔
          latest_pins_held (zip guesses feedbacks) guess
          ∧ misplaced_present (zip guesses feedbacks) guess
          ∧ misplaced_moved (zip guesses feedbacks) guess).
Proof.
  intros Hws Hw. set (hist := zip guesses feedbacks).
  assert (Hlen : length (chars guess) = 5) by (by rewrite <-len_chars).
  assert (Hflag : ∀ sym j g, (j, (g, sym)) ∈ mjoin (round_items <$> hist)
                  ↔ flagged hist sym j g).
  { intros. apply items_elem. }
  destruct (record_items_spec (mjoin (round_items <$> hist)))
    as (c & Hrun & [Hgl Hgreen Hyellow Hpos Hdom]).
  { intros [j [g f]] Hin. apply Hflag in Hin. by eapply flagged_lt. }
  unfold enforce_hard_mode_constraints. fold hist.
  unfold record_round. rewrite (for_each_concat record_letter round_items), Hrun.
  cbn [mbind result_bind].
  destruct (check_green_spec guess (enumerate (green_positions c))) as (bg & Hrg & Hbg).
  { intros i l Hin. apply enumerate_elem, lookup_lt_Some in Hin. lia. }
  rewrite Hrg. cbn [mbind result_bind].
  assert (Hgreen_iff : bg = true ↔ latest_pins_held hist guess).
  { rewrite Hbg. unfold latest_pins_held. split.
    - intros Hall i l Hpin. apply Hall. apply enumerate_elem.
      rewrite Hgreen, pinned_items_hist, Hpin; [done|].
      apply pinned_flagged in Hpin. by eapply flagged_lt.
    - intros Hall i l Hin. apply enumerate_elem in Hin.
      assert (i < 5) by (apply lookup_lt_Some in Hin; lia).
      rewrite Hgreen, pinned_items_hist in Hin by done. apply Hall. congruence. }
  destruct (check_yellow_spec guess (yellow_positions c) (elements (yellow_letters c)))
    as (by' & Hry & Hby).
  { intros letter Hin. apply elem_of_elements in Hin.
    destruct (Hpos letter Hin) as (ps & Hps & Hiff). exists ps. split; [done|].
    intros pos Hp. apply Hiff, Hflag in Hp. rewrite Hlen. by eapply flagged_lt. }
  assert (Hyellow_iff : by' = true ↔ misplaced_present hist guess ∧ misplaced_moved hist guess).
  { rewrite Hby. unfold misplaced_present, misplaced_moved. split.
    - intros Hall. split; intros i g Hf.
      + apply (Hall g). apply elem_of_elements, Hyellow. exists i. by apply Hflag.
      + assert (Hg : g ∈ yellow_letters c) by (apply Hyellow; exists i; by apply Hflag).
        destruct (Hpos g Hg) as (ps & Hps & Hiff).
        destruct (Hall g) as [_ Hmoved]; [by apply elem_of_elements|].
        apply (Hmoved ps i Hps). by apply Hiff, Hflag.
    - intros [Hpres Hmoved] letter Hin. apply elem_of_elements in Hin.
      pose proof Hin as Hin'. apply Hyellow in Hin' as [j Hj]. apply Hflag in Hj.
      split; [by eapply Hpres|]. intros ps pos Hps Hp.
      destruct (Hpos letter Hin) as (ps' & Hps' & Hiff). rewrite Hps in Hps'.
      injection Hps' as <-. apply Hmoved. by apply Hflag, Hiff. }
  destruct bg.
  - exists by'. split; [done|]. rewrite Hyellow_iff.
    split; [intros; split; [by apply Hgreen_iff|done]|tauto].
  - exists false. split; [done|]. split; [done|]. intros [Hp _].
    by apply Hgreen_iff in Hp.
Qed.


(** ** Guess selector: the pattern counts are the buckets *)

Lemma bump_filter p q acc :
  filter (λ e : string * nat, e.1 ≠ p) (bump q acc)
  = if decide (q = p) then filter (λ e : string * nat, e.1 ≠ p) acc
    else bump q (filter (λ e : string * nat, e.1 ≠ p) acc).
Proof.
  induction acc as [|[r c] acc IH]; cbn [bump].
  - rewrite filter_cons, filter_nil. cbn [fst].
    destruct (decide (q = p)) as [->|Hne].
    + by rewrite decide_False by (intros H; by apply H).
    + by rewrite decide_True.
  - destruct (decide (r = q)) as [->|Hrq].
    + rewrite !filter_cons. cbn [fst].
      destruct (decide (q = p)) as [->|Hne].
      * by rewrite !decide_False by (intros H; by apply H).
      * rewrite !decide_True by done. cbn [bump]. by rewrite decide_True.
    + rewrite !filter_cons. cbn [fst]. rewrite IH.
      destruct (decide (r ≠ p)) as [Hrp|Hrp]; destruct (decide (q = p)) as [->|Hne]; try done.
      cbn [bump]. by rewrite decide_False.
Qed.

Lemma tally_filter p ps : ∀ acc,
  filter (λ e : string * nat, e.1 ≠ p) (tally acc ps)
  = tally (filter (λ e : string * nat, e.1 ≠ p) acc) (filter (λ q, q ≠ p) ps).
Proof.
  induction ps as [|q ps IH]; intros acc; [done|].
  cbn [tally foldl]. fold (tally (bump q acc) ps). rewrite IH, bump_filter.
  rewrite filter_cons. destruct (decide (q = p)) as [->|Hne].
  - by rewrite decide_False by (intros H; by apply H).
  - by rewrite decide_True.
Qed.

Lemma tally_head p c ps : ∀ acc,
  p ∉ acc.*1 →
  tally ((p, c) :: acc) ps
  = (p, c + bucket_size ps p) :: filter (λ e : string * nat, e.1 ≠ p) (tally acc ps).
Proof.
  revert c. induction ps as [|q ps IH]; intros c acc Hp.
  - cbn [tally foldl]. unfold bucket_size. rewrite filter_nil. cbn [length].
    rewrite Nat.add_0_r. f_equal. symmetry. apply filter_all.
    intros [r k] Hin. cbn [fst]. intros ->. apply Hp.
    apply list_elem_of_fmap. by exists (p, k).
  - cbn [tally foldl bump]. fold (tally). unfold bucket_size. rewrite filter_cons.
    destruct (decide (p = q)) as [->|Hne].
    + rewrite decide_True by done. fold (tally ((q, c + 1) :: acc) ps).
      rewrite IH by done. cbn [length]. fold (bucket_size ps q). f_equal.
      * f_equal. lia.
      * fold (tally (bump q acc) ps). rewrite !tally_filter, bump_filter.
        by rewrite decide_True.
    + rewrite decide_False by congruence.
      fold (tally ((p, c) :: bump q acc) ps). rewrite IH; [done|].
      intros Hin. apply list_elem_of_fmap in Hin as ([r k] & Hr & Hin). cbn [fst] in Hr. subst r.
      apply Hp.
      assert (Hin' : (p, k) ∈ filter (λ e : string * nat, e.1 ≠ q) (bump q acc)).
      { apply list_elem_of_filter. split; [done|done]. }
      rewrite bump_filter, decide_True in Hin' by done.
      apply list_elem_of_filter in Hin' as [_ Hin'].
      apply list_elem_of_fmap. by exists (p, k).
Qed.

Example buckets_sample :
  buckets ["00100"; "22222"; "00100"; "01000"] = [("00100", 2); ("22222", 1); ("01000", 1)].
Proof. reflexivity. Qed.

Lemma tally_buckets ps : tally [] ps = buckets ps.
Proof.
  induction ps as [|p ps IH]; [done|].
  cbn [tally foldl bump]. fold (tally [(p, 1)] ps).
  rewrite tally_head by (cbn; apply not_elem_of_nil).
  rewrite IH. unfold buckets. cbn [distinct fmap list_fmap]. f_equal.
  - f_equal. unfold bucket_size. rewrite filter_cons, decide_True by done. done.
  - induction (distinct ps) as [|q qs IHq]; [done|].
    cbn [fmap list_fmap]. rewrite !filter_cons. cbn [fst].
    destruct (decide (q ≠ p)) as [Hne|Heq].
    + cbn [fmap list_fmap]. f_equal; [|apply IHq].
      f_equal. unfold bucket_size. rewrite filter_cons. by rewrite decide_False by congruence.
    + apply IHq.
Qed.

Lemma tally_total ps : ∀ acc,
  sum_list (tally acc ps).*2 = sum_list acc.*2 + length ps.
Proof.
  assert (Hb : ∀ q acc, sum_list (bump q acc).*2 = sum_list acc.*2 + 1).
  { intros q acc. induction acc as [|[r c] acc IH]; cbn [bump]; [done|].
    case_decide; rewrite !fmap_cons; cbn [snd];
      change (sum_list (?x :: ?l)) with (x + sum_list l);
      [|rewrite IH]; lia. }
  induction ps as [|q ps IH]; intros acc; [cbn; lia|].
  cbn [tally foldl]. fold (tally (bump q acc) ps). rewrite IH, Hb. cbn [length]. lia.
Qed.

Section Score.
Context {R : Runtime}.

Lemma pattern_of_same P P' a g :
  same_lookups P P' → pattern_of P' a g = pattern_of P a g.
Proof. intros Hs. unfold pattern_of. by rewrite Hs. Qed.

Lemma expected_remaining_same P P' candidates g :
  same_lookups P P' →
  expected_remaining P' candidates g = expected_remaining P candidates g.
Proof.
  intros Hs. unfold expected_remaining. cbn zeta. do 4 f_equal.
  apply list_fmap_ext. intros _ a _. by apply pattern_of_same.
Qed.

Lemma count_cached_step g acc st a p st' :
  cache_fill st a g = Ok (p, st') →
  count_cached g (acc, st) a = Ok (bump p acc, st').
Proof. intros Hfill. unfold count_cached. cbn [fst snd]. by rewrite Hfill. Qed.

Lemma count_plain_step g acc st a p :
  get_feedback g a = Ok p →
  count_plain g (acc, st) a = Ok (bump p acc, st).
Proof. intros Hp. unfold count_plain. cbn [fst snd]. by rewrite Hp. Qed.

Lemma count_cached_loop g l : ∀ acc st,
  (∀ a, a ∈ l → is_Ok (lookup_or_compute (precomputed_patterns st) a g)) →
  ∃ st', for_each (count_cached g) l (acc, st)
         = Ok (tally acc ((λ a, pattern_of (precomputed_patterns st) a g) <$> l), st')
       ∧ same_lookups (precomputed_patterns st) (precomputed_patterns st').
Proof.
  induction l as [|a l IH]; intros acc st Hok.
  { exists st. split; [done|apply same_lookups_refl]. }
  destruct (Hok a (list_elem_of_here _ _)) as [p Hp].
  destruct (cache_fill_spec _ _ _ _ Hp) as (st1 & Hfill & Hsame & _).
  destruct (IH (bump p acc) st1) as (st' & Hrun & Hsame').
  { intros a' Ha'. rewrite Hsame. by apply Hok, list_elem_of_further. }
  exists st'. split; [|by eapply same_lookups_trans].
  cbn [for_each]. rewrite (count_cached_step _ _ _ _ _ _ Hfill).
  cbn [mbind result_bind]. rewrite Hrun. f_equal. f_equal.
  rewrite fmap_cons. cbn [tally foldl].
  assert (pattern_of (precomputed_patterns st) a g = p) as ->.
  { unfold pattern_of. by rewrite Hp. }
  f_equal. apply list_fmap_ext. intros _ a' _. by apply pattern_of_same.
Qed.

Lemma count_plain_loop g l st : ∀ acc,
  (∀ a, a ∈ l → is_Ok (get_feedback g a)) →
  for_each (count_plain g) l (acc, st)
  = Ok (tally acc ((λ a, pattern_of ∅ a g) <$> l), st).
Proof.
  induction l as [|a l IH]; intros acc Hok; [done|].
  destruct (Hok a (list_elem_of_here _ _)) as [p Hp].
  cbn [for_each]. rewrite (count_plain_step _ _ _ _ _ Hp).
  cbn [mbind result_bind]. rewrite IH by (intros a' Ha'; by apply Hok, list_elem_of_further).
  rewrite fmap_cons. cbn [tally foldl].
  assert (pattern_of ∅ a g = p) as ->; [|done].
  unfold pattern_of. by rewrite lookup_or_compute_empty, Hp.
Qed.

(** on a cache that agrees with the encoder the buckets are those of the
    true feedback patterns *)
Lemma expected_remaining_agrees P candidates g :
  (∀ a, a ∈ candidates → entry_agrees P a g) →
  expected_remaining P candidates g = expected_remaining ∅ candidates g.
Proof.
  intros Hagree. unfold expected_remaining. cbn zeta. do 4 f_equal.
  apply list_fmap_ext. intros _ a Ha%list_elem_of_lookup_2.
  specialize (Hagree a Ha). unfold entry_agrees in Hagree.
  unfold pattern_of. rewrite lookup_or_compute_empty. unfold lookup_or_compute.
  destruct (cached P a g); [by rewrite Hagree|done].
Qed.

Lemma expected_of_tally P candidates g :
  expected_of (tally [] ((λ a, pattern_of P a g) <$> candidates))
  = expected_remaining P candidates g.
Proof.
  unfold expected_of, expected_remaining. cbn zeta.
  rewrite tally_total. cbn [fmap list_fmap sum_list]. rewrite Nat.add_0_l.
  rewrite length_fmap. by rewrite tally_buckets.
Qed.

Lemma score_guess_spec candidates best bg st g :
  (∀ a, a ∈ candidates → is_Ok (lookup_or_compute (precomputed_patterns st) a g)) →
  ∃ st', score_guess candidates (best, bg, st) g
         = Ok (select (best, bg) (expected_remaining (precomputed_patterns st) candidates g) g, st')
       ∧ same_lookups (precomputed_patterns st) (precomputed_patterns st').
Proof.
  intros Hok. unfold score_guess.
  destruct (decide (precomputed_patterns st ≠ ∅)) as [Hne|He].
  - destruct (count_cached_loop g candidates [] st Hok) as (st' & Hrun & Hsame).
    exists st'. split; [|done]. rewrite Hrun. cbn [mbind result_bind].
    rewrite expected_of_tally. unfold select. cbn [fst snd].
    destruct best as [b|]; [|done].
    destruct (num_lt _ b); [done|]. by destruct (num_eq _ b).
  - apply dec_stable in He. exists st. split; [|apply same_lookups_refl].
    rewrite count_plain_loop.
    2:{ intros a Ha. specialize (Hok a Ha).
        by rewrite He, lookup_or_compute_empty in Hok. }
    cbn [mbind result_bind]. rewrite He, expected_of_tally. unfold select. cbn [fst snd].
    destruct best as [b|]; [|done].
    destruct (num_lt _ b); [done|]. by destruct (num_eq _ b).
Qed.
End Score.

(** ** Guess selector: the selection loop *)

Lemma filter_none {A} (P : A → Prop) `{∀ x, Decision (P x)} (l : list A) :
  (∀ x, x ∈ l → ¬ P x) → filter P l = [].
Proof.
  induction l as [|x l IH]; intros HP; [done|].
  rewrite filter_cons, decide_False by (apply HP, list_elem_of_here).
  apply IH. intros y Hy. by apply HP, list_elem_of_further.
Qed.

Section Selection.
Context {R : Runtime} {L : RuntimeLaws R}.
Variable score : string → num.

Lemma num_lt_irrefl x : num_lt x x = false.
Proof.
  destruct (num_lt x x) eqn:Hlt; [|done].
  apply num_lt_not_eq in Hlt. by rewrite num_eq_refl in Hlt.
Qed.

Lemma select_selected seen sel g :
  selected score seen sel → selected score (seen ++ [g]) (select sel (score g) g).
Proof.
  destruct sel as [[best|] bg]; unfold selected, select; cbn [fst snd].
  - intros (Hmin & Hbg & Hne).
    destruct (num_lt (score g) best) eqn:Hlt; cbn [fst snd].
    + split; [|split; [|done]].
      * intros h Hh. apply elem_of_app in Hh as [Hh|Hh].
        -- destruct (num_lt (score h) (score g)) eqn:Hhg; [|done].
           rewrite <-(Hmin h Hh). symmetry. by eapply num_lt_trans.
        -- apply list_elem_of_singleton in Hh as ->. apply num_lt_irrefl.
      * rewrite filter_app, filter_cons, filter_nil.
        rewrite decide_True by apply num_eq_refl.
        rewrite filter_none; [done|].
        intros h Hh Heq.
        pose proof (num_lt_eq_l _ _ best (num_eq_sym _ _ Heq) Hlt) as Hcontra.
        by rewrite (Hmin h Hh) in Hcontra.
    + destruct (num_eq (score g) best) eqn:Heq; cbn [fst snd].
      * split; [|split].
        -- intros h Hh. apply elem_of_app in Hh as [Hh|Hh]; [by apply Hmin|].
           by apply list_elem_of_singleton in Hh as ->.
        -- rewrite filter_app, filter_cons, filter_nil, decide_True by done.
           by rewrite Hbg.
        -- intros Happ. by apply app_eq_nil in Happ as [_ ?].
      * split; [|split; [|done]].
        -- intros h Hh. apply elem_of_app in Hh as [Hh|Hh]; [by apply Hmin|].
           by apply list_elem_of_singleton in Hh as ->.
        -- rewrite filter_app, filter_cons, filter_nil.
           rewrite decide_False by (by rewrite Heq). by rewrite app_nil_r.
  - intros [-> ->]. split; [|split; [|done]].
    + intros h Hh. apply list_elem_of_singleton in Hh as ->. apply num_lt_irrefl.
    + rewrite app_nil_l, filter_cons, filter_nil.
      by rewrite decide_True by apply num_eq_refl.
Qed.

Lemma run_select_selected pool : ∀ seen sel,
  selected score seen sel → selected score (seen ++ pool) (run_select score pool sel).
Proof.
  induction pool as [|g pool IH]; intros seen sel Hsel.
  { by rewrite app_nil_r. }
  cbn [run_select foldl]. fold (run_select score pool (select sel (score g) g)).
  rewrite (cons_middle g seen pool), app_assoc. apply IH. by apply select_selected.
Qed.

(** what the loop leaves in [best_guesses]: the pool words of minimal score *)
Lemma run_select_minimal pool :
  pool ≠ [] →
  ∃ best bg, run_select score pool (None, []) = (Some best, bg) ∧ bg ≠ []
    ∧ (∀ g, g ∈ bg ↔ g ∈ pool ∧ ∀ h, h ∈ pool → num_lt (score h) (score g) = false).
Proof.
  intros Hne. pose proof (run_select_selected pool [] (None, [])) as Hsel.
  rewrite app_nil_l in Hsel. specialize (Hsel (conj eq_refl eq_refl)).
  destruct (run_select score pool (None, [])) as [[best|] bg]; unfold selected in Hsel;
    cbn [fst snd] in Hsel.
  2:{ by destruct Hsel as [? _]. }
  destruct Hsel as (Hmin & Hbg & Hbgne). exists best, bg. split; [done|]. split; [done|].
  assert (Hwit : ∃ g0, g0 ∈ pool ∧ num_eq (score g0) best = true).
  { destruct bg as [|g0 bg']; [done|]. exists g0.
    assert (Hin : g0 ∈ filter (λ h, num_eq (score h) best = true) pool).
    { rewrite <-Hbg. apply list_elem_of_here. }
    apply list_elem_of_filter in Hin. tauto. }
  destruct Hwit as (g0 & Hg0 & Heq0).
  intros g. rewrite Hbg, list_elem_of_filter. split.
  - intros [Heq Hg]. split; [done|]. intros h Hh.
    destruct (num_lt (score h) (score g)) eqn:Hlt; [|done].
    rewrite <-(Hmin h Hh). symmetry. by eapply num_lt_eq_r.
  - intros [Hg Hall]. split; [|done].
    destruct (num_eq (score g) best) eqn:Heq; [done|].
    pose proof (num_total _ _ (Hmin g Hg) Heq) as Hlt.
    pose proof (num_lt_eq_l _ _ (score g) (num_eq_sym _ _ Heq0) Hlt) as Hcontra.
    by rewrite (Hall g0 Hg0) in Hcontra.
Qed.
End Selection.

Lemma pick_spec (bg candidates : list string) :
  bg ≠ [] →
  ∃ g, pick bg candidates = Ok g ∧ g ∈ bg
       ∧ ((∃ h, h ∈ bg ∧ h ∈ candidates) → g ∈ candidates).
Proof.
  intros Hne. unfold pick.
  destruct (list_find (λ guess, guess ∈ candidates) bg) as [[i g]|] eqn:Hfind.
  - apply list_find_Some in Hfind as (Hi & Hg & _). exists g.
    split; [done|]. split; [|done]. by eapply list_elem_of_lookup_2.
  - destruct bg as [|g bg]; [done|]. exists g. split; [done|].
    split; [apply list_elem_of_here|]. intros (h & Hh & Hc). exfalso.
    apply list_find_None in Hfind. rewrite Forall_forall in Hfind. by apply (Hfind h).
Qed.

Section Minimax.
Context {R : Runtime} {L : RuntimeLaws R}.

Lemma score_loop P0 candidates pool : ∀ sel st,
  same_lookups P0 (precomputed_patterns st) →
  (∀ g a, g ∈ pool → a ∈ candidates → is_Ok (lookup_or_compute P0 a g)) →
  ∃ st', for_each (score_guess candidates) pool (sel, st)
         = Ok (run_select (expected_remaining P0 candidates) pool sel, st')
       ∧ same_lookups P0 (precomputed_patterns st').
Proof.
  induction pool as [|g pool IH]; intros [best bg] st Hsame Hok.
  { exists st. by split. }
  destruct (score_guess_spec candidates best bg st g) as (st1 & Hstep & Hsame1).
  { intros a Ha. rewrite Hsame. apply Hok; [apply list_elem_of_here|done]. }
  rewrite (expected_remaining_same _ _ _ _ Hsame) in Hstep.
  destruct (IH (select (best, bg) (expected_remaining P0 candidates g) g) st1)
    as (st' & Hrun & Hsame').
  { by eapply same_lookups_trans. }
  { intros g' a Hg' Ha. apply Hok; [by apply list_elem_of_further|done]. }
  exists st'. split; [|done]. cbn [for_each]. rewrite Hstep. cbn [mbind result_bind].
  by rewrite Hrun.
Qed.

Lemma guess_pool_small candidates allowed :
  length candidates ≤ 2 → guess_pool candidates allowed = candidates.
Proof. intros. unfold guess_pool. by rewrite decide_True. Qed.

Lemma guess_pool_large candidates allowed :
  2 < length candidates →
  NoDup (guess_pool candidates allowed)
  ∧ ∀ w, w ∈ guess_pool candidates allowed ↔ w ∈ allowed ∨ w ∈ candidates.
Proof.
  intros. unfold guess_pool. rewrite decide_False by lia. split.
  - apply list_of_set_NoDup.
  - intros w. by rewrite list_of_set_elem, elem_of_app.
Qed.

Lemma guess_pool_elem candidates allowed w :
  w ∈ guess_pool candidates allowed → w ∈ allowed ∨ w ∈ candidates.
Proof.
  unfold guess_pool. case_decide; [by right|].
  by rewrite list_of_set_elem, elem_of_app.
Qed.

Lemma candidates_in_pool candidates allowed w :
  w ∈ candidates → w ∈ guess_pool candidates allowed.
Proof.
  intros Hw. unfold guess_pool. case_decide; [done|].
  rewrite list_of_set_elem, elem_of_app. by right.
Qed.

Lemma minimax_entropy_select E st candidates allowed :
  Forall is_word candidates → Forall is_word allowed →
  1 < length candidates →
  first_guess E candidates allowed = None →
  let P := precomputed_patterns st in
  let pool := guess_pool candidates allowed in
  (length candidates ≤ 2 → pool = candidates)
  ∧ (2 < length candidates →
       NoDup pool ∧ ∀ w, w ∈ pool ↔ w ∈ allowed ∨ w ∈ candidates)
  ∧ ∃ g st',
      minimax_entropy E st candidates allowed = Ok (g, st')
      ∧ g ∈ pool
      ∧ minimal_in P candidates pool g
      ∧ ((∃ h, h ∈ pool ∧ h ∈ candidates ∧ minimal_in P candidates pool h)
         → g ∈ candidates).
Proof.
  intros Hc Ha Hlen Hfast P pool.
  split; [apply guess_pool_small|]. split; [apply guess_pool_large|].
  assert (Hpool_ne : pool ≠ []).
  { destruct candidates as [|c cs]; [cbn in Hlen; lia|].
    intros Hnil. pose proof (candidates_in_pool (c :: cs) allowed c (list_elem_of_here _ _)) as Hin.
    fold pool in Hin. rewrite Hnil in Hin. by apply not_elem_of_nil in Hin. }
  destruct (score_loop P candidates pool (None, []) st) as (st' & Hrun & _).
  { apply same_lookups_refl. }
  { intros g a Hg Ha'. apply lookup_or_compute_total.
    - apply guess_pool_elem in Hg. rewrite Forall_forall in Hc, Ha.
      destruct Hg; auto.
    - rewrite Forall_forall in Hc. by apply Hc. }
  destruct (run_select_minimal (expected_remaining P candidates) pool Hpool_ne)
    as (best & bg & Hsel & Hbgne & Hbg).
  destruct (pick_spec bg candidates Hbgne) as (g & Hpick & Hgin & Hpref).
  exists g, st'. split; [|split; [|split]].
  - unfold minimax_entropy. rewrite Hfast.
    rewrite decide_False by lia. rewrite decide_False by lia.
    fold pool. rewrite Hrun, Hsel. cbn [mbind result_bind].
    rewrite decide_False by done. by rewrite Hpick.
  - exact (proj1 (proj1 (Hbg g) Hgin)).
  - exact (proj2 (proj1 (Hbg g) Hgin)).
  - intros (h & Hh & Hhc & Hmin). apply Hpref. exists h. split; [|done].
    apply Hbg. by split.
Qed.
End Minimax.


(** ** The exact runtime obeys the laws *)

Lemma q_lt_spec x y : q_lt x y = true ↔ (x < y)%Q.
Proof.
  unfold q_lt. rewrite Qlt_alt. destruct (x ?= y)%Q; split; congruence.
Qed.

Lemma q_lt_false x y : q_lt x y = false ↔ (y <= x)%Q.
Proof.
  rewrite <-not_true_iff_false, q_lt_spec. split.
  - apply Qnot_lt_le.
  - apply Qle_not_lt.
Qed.

Lemma exact_runtime_laws : RuntimeLaws exact_runtime.
Proof.
  split; cbn [num num_lt num_eq list_of_set exact_runtime].
  - apply Qeq_bool_refl.
  - apply Qeq_bool_sym.
  - intros x y z ?%q_lt_spec ?%q_lt_spec. apply q_lt_spec. by eapply Qlt_trans.
  - intros x y z Heq%Qeq_bool_eq Hlt%q_lt_spec. apply q_lt_spec. by rewrite <-Heq.
  - intros x y z Heq%Qeq_bool_eq Hlt%q_lt_spec. apply q_lt_spec. by rewrite <-Heq.
  - intros x y Hlt%q_lt_spec. apply not_true_iff_false. intros Heq%Qeq_bool_eq.
    rewrite Heq in Hlt. by apply Qlt_irrefl in Hlt.
  - intros x y Hlt%q_lt_false Hne. apply q_lt_spec.
    apply Qle_lteq in Hlt as [Hlt|Heq]; [done|].
    apply Qeq_bool_neq in Hne. exfalso. apply Hne. by symmetry.
  - apply NoDup_remove_dups.
  - intros l x. apply elem_of_remove_dups.
Qed.


(** ** Degenerate candidate sets, and the harness *)

Section Degenerate.
Context {R : Runtime}.

Lemma minimax_entropy_small E st candidates allowed :
  first_guess E candidates allowed = None →
  (candidates = [] → minimax_entropy E st candidates allowed = Raise ValueError)
  ∧ (∀ w, candidates = [w] → minimax_entropy E st candidates allowed = Ok (w, st)).
Proof.
  intros Hfast. unfold minimax_entropy. rewrite Hfast. split.
  - by intros ->.
  - by intros w ->.
Qed.
End Degenerate.

Section Harness.
Context {R : Runtime} {L : RuntimeLaws R}.

Lemma first_guess_elem E candidates allowed fg :
  first_guess E candidates allowed = Some fg → fg ∈ allowed ∨ fg ∈ candidates.
Proof.
  unfold first_guess. destruct (first_guess_cache E) as [fgc|]; [|done].
  case_decide; [|done]. destruct (fgc !! "minimax_entropy") as [fg'|]; [|done].
  case_decide as Hd; [|done]. intros [= ->]. by destruct Hd.
Qed.

(** under the word-list hypotheses the selector returns a word, unless the
    candidate list is empty *)
Lemma minimax_entropy_returns E st candidates allowed :
  Forall is_word candidates → Forall is_word allowed →
  minimax_entropy E st candidates allowed = Raise ValueError
  ∨ ∃ w st', minimax_entropy E st candidates allowed = Ok (w, st') ∧ is_word w.
Proof.
  intros Hc Ha.
  assert (Hword : ∀ w, w ∈ allowed ∨ w ∈ candidates → is_word w).
  { rewrite Forall_forall in Hc, Ha. intros w [?|?]; auto. }
  destruct (first_guess E candidates allowed) as [fg|] eqn:Hfast.
  { right. exists fg, st. unfold minimax_entropy. rewrite Hfast. split; [done|].
    by apply Hword, (first_guess_elem E). }
  destruct candidates as [|c [|c' cs]].
  - left. by apply minimax_entropy_small.
  - right. exists c, st. split; [by apply minimax_entropy_small|].
    apply Hword. right. apply list_elem_of_here.
  - destruct (minimax_entropy_select E st (c :: c' :: cs) allowed Hc Ha)
      as (_ & _ & g & st' & Hrun & Hg & _); [cbn; lia|done|].
    right. exists g, st'. split; [done|]. by apply Hword, guess_pool_elem.
Qed.

Lemma unpack_guess_word w : is_word w → unpack_guess (Str w) = Raise ValueError.
Proof.
  unfold is_word. rewrite len_chars. intros Hw. unfold unpack_guess.
  by destruct (chars w) as [|a [|b [|c l]]].
Qed.

Lemma enforce_no_history guess :
  enforce_hard_mode_constraints [] [] guess = Ok true.
Proof. done. Qed.

Lemma filter_comp_all {A} (p : A → result bool) (l : list A) :
  (∀ x, p x = Ok true) → filter_comp p l = Ok l.
Proof.
  intros Hp. induction l as [|x l IH]; [done|].
  cbn [filter_comp]. by rewrite Hp, IH.
Qed.

Lemma minimax_entropy_hard_mode_first E st possible allowed :
  minimax_entropy_hard_mode E st possible allowed [] []
  = minimax_entropy E st possible allowed.
Proof.
  unfold minimax_entropy_hard_mode.
  rewrite !filter_comp_all by apply enforce_no_history. cbn [mbind result_bind].
  by do 2 case_decide; subst.
Qed.

(** C7 (the code departs from it): with [minimax_entropy] as the strategy,
    as [calculate_average_tries] passes it, [simulate_game] returns no
    rounds-to-solve value at all: for every secret and every pair of word
    lists it raises [ValueError], and so does [simulate_game_hard_mode].
    [minimax_entropy] returns a bare 5-letter word and [guess, _ = ...]
    cannot unpack five characters into two names. *)
Theorem simulate_game_raises E st allowed possible answer :
  Forall is_word allowed → Forall is_word possible →
  simulate_game answer (minimax_strategy E) allowed possible st = Raise ValueError
  ∧ simulate_game_hard_mode E allowed possible st answer = Raise ValueError.
Proof.
  intros Ha Hp.
  destruct (minimax_entropy_returns E st possible allowed Hp Ha)
    as [Hraise|(w & st' & Hrun & Hw)].
  - split.
    + unfold simulate_game, range_from. cbn [Nat.sub seq simulate_rounds].
      unfold minimax_strategy. by rewrite Hraise.
    + unfold simulate_game_hard_mode, range_from. cbn [Nat.sub seq simulate_rounds_hard_mode].
      by rewrite minimax_entropy_hard_mode_first, Hraise.
  - split.
    + unfold simulate_game, range_from. cbn [Nat.sub seq simulate_rounds].
      unfold minimax_strategy. rewrite Hrun. cbn [mbind result_bind].
      by rewrite unpack_guess_word.
    + unfold simulate_game_hard_mode, range_from. cbn [Nat.sub seq simulate_rounds_hard_mode].
      rewrite minimax_entropy_hard_mode_first, Hrun. cbn [mbind result_bind].
      by rewrite unpack_guess_word.
Qed.

(** with a strategy that hands back [(guess, score)] pairs the loop can
    only return an attempt number or the sentinel *)
Lemma simulate_rounds_range answer strategy_func allowed attempts :
  ∀ possible st n,
  simulate_rounds answer strategy_func allowed attempts possible st = Ok n →
  n ∈ attempts ∨ n = 7.
Proof.
  induction attempts as [|attempt rest IH]; intros possible st n; cbn [simulate_rounds].
  { intros [= <-]. by right. }
  destruct (strategy_func st possible allowed) as [[v st']|]; [|done].
  cbn [mbind result_bind]. destruct (unpack_guess v) as [guess|]; [|done].
  cbn [mbind result_bind]. case_decide.
  - intros [= <-]. left. apply list_elem_of_here.
  - destruct (get_feedback guess answer) as [fb|]; [|done]. cbn [mbind result_bind].
    destruct (filter_comp _ possible) as [possible'|]; [|done]. cbn [mbind result_bind].
    intros Hn. destruct (IH _ _ _ Hn) as [?|?]; [left; by apply list_elem_of_further|by right].
Qed.
End Harness.

(* ===================================================================== *)
(** * The remaining claims, and every claim at a concrete input           *)
(* ===================================================================== *)

(** C1: for every guess and secret of length 5, [get_feedback] computes the
    two-pass pattern: positions with [guess[i] == secret[i]] are EXACT and
    consume the secret's letter there; then, left to right, a remaining
    position is MISPLACED when its letter still occurs among the unconsumed
    letters of the secret, consuming the leftmost such occurrence, and
    ABSENT otherwise.  The pattern is returned in the '0'/'1'/'2' notation. *)
Theorem get_feedback_refines_two_pass guess secret :
  is_word guess → is_word secret →
  get_feedback guess secret = Ok (render (encode guess secret)).
Proof. apply get_feedback_encode. Qed.

Lemma get_feedback_refines_two_pass_witness :
  get_feedback "SPEED" "ERASE" = Ok (render (encode "SPEED" "ERASE")).
Proof. apply (get_feedback_refines_two_pass "SPEED" "ERASE"); reflexivity. Defined.

(** C2 as stated fails: the encoder does not answer "00100" for SPEED
    against ERASE. *)
Lemma get_feedback_speed_erase_not_00100 :
  get_feedback "SPEED" "ERASE" ≠ Ok "00100".
Proof. vm_compute. discriminate. Qed.

(** C2, amended: [get_feedback("SPEED", "ERASE")] is "10110": 'S' is
    MISPLACED (ERASE has an S), 'P' is ABSENT, both 'E's are MISPLACED (ERASE
    has two E's, neither in place) and 'D' is ABSENT. *)
Theorem get_feedback_speed_erase :
  get_feedback "SPEED" "ERASE" = Ok "10110"
  ∧ encode "SPEED" "ERASE" = [MISPLACED; ABSENT; MISPLACED; MISPLACED; ABSENT].
Proof. split; vm_compute; reflexivity. Qed.

(** the consumption rule on a secret with a single E: the second E of the
    guess finds nothing left *)
Example get_feedback_speed_abide : get_feedback "SPEED" "ABIDE" = Ok "00101".
Proof. vm_compute. reflexivity. Qed.

Lemma get_feedback_solved_witness :
  get_feedback "CRANE" "CRANE" = Ok "22222" ↔ "CRANE" = "CRANE".
Proof. apply (get_feedback_solved "CRANE" "CRANE"); reflexivity. Defined.

Lemma filter_possible_answers_exact_witness :
  (∃ st', Solver.filter_possible_answers sample_answers sample_state ["slate"] ["00202"]
          = Ok (filter (consistent_with (zip ["slate"] ["00202"])) sample_answers, st'))
  ∧ Helper.filter_possible_answers sample_answers sample_cache ["slate"] ["00202"]
    = Ok (filter (consistent_with (zip ["slate"] ["00202"])) sample_answers).
Proof.
  apply (filter_possible_answers_exact sample_answers sample_state sample_cache
           ["slate"] ["00202"]); compute_done.
Defined.

Lemma filter_subset_idempotent_witness :
  (∃ out st',
      Solver.filter_possible_answers sample_answers sample_state ["slate"] ["00202"]
      = Ok (out, st')
      ∧ out ⊆ sample_answers
      ∧ ∃ st'', Solver.filter_possible_answers out st' ["slate"] ["00202"] = Ok (out, st''))
  ∧ (∃ out,
      Helper.filter_possible_answers sample_answers sample_cache ["slate"] ["00202"] = Ok out
      ∧ out ⊆ sample_answers
      ∧ Helper.filter_possible_answers out sample_cache ["slate"] ["00202"] = Ok out).
Proof.
  apply (filter_subset_idempotent sample_answers sample_state sample_cache
           ["slate"] ["00202"]); compute_done.
Defined.

Lemma filter_preserves_order_witness :
  (∃ out st',
      Solver.filter_possible_answers sample_answers sample_state ["slate"] ["00202"]
      = Ok (out, st')
      ∧ out `sublist_of` sample_answers
      ∧ out = filter (λ w, w ∈ out) sample_answers)
  ∧ (∃ out,
      Helper.filter_possible_answers sample_answers sample_cache ["slate"] ["00202"] = Ok out
      ∧ out `sublist_of` sample_answers
      ∧ out = filter (λ w, w ∈ out) sample_answers).
Proof.
  apply (filter_preserves_order sample_answers sample_state sample_cache
           ["slate"] ["00202"]); compute_done.
Defined.

(** what the selector returns on the sample lists *)
Example minimax_entropy_sample :
  ∃ st', minimax_entropy (R:=exact_runtime) no_first_guess empty_state
           sample_answers sample_allowed = Ok ("crate", st').
Proof. eexists. vm_compute. reflexivity. Qed.

(** the checker on one history: 'R' flagged at 1 and 'T' at 3 *)
Example enforce_after_crate :
  enforce_hard_mode_constraints ["CRATE"] ["01010"] "TAROT" = Ok true
  ∧ enforce_hard_mode_constraints ["CRATE"] ["01010"] "TREAD" = Ok false
  ∧ enforce_hard_mode_constraints ["CRATE"] ["02000"] "FLOUR" = Ok false.
Proof. repeat split; vm_compute; reflexivity. Qed.

(** C6 as stated fails when the precomputed first guess applies: with the
    answer file holding the one word CRANE, the singleton candidate list
    gets SALET back, not CRANE; with an empty answer file, the empty
    candidate list gets SALET back instead of an error. *)
Lemma minimax_entropy_fast_path_first :
  minimax_entropy (R:=exact_runtime) (salet_first_guess ["CRANE"]) empty_state
    ["CRANE"] ["SALET"] = Ok ("SALET", empty_state)
  ∧ minimax_entropy (R:=exact_runtime) (salet_first_guess []) empty_state
      [] ["SALET"] = Ok ("SALET", empty_state).
Proof. split; vm_compute; reflexivity. Qed.

(** C6, amended: when the precomputed first guess does not apply,
    [minimax_entropy] raises [ValueError] on an empty candidate list, and on
    a singleton candidate list [[w]] it returns [w] at once, without scoring
    (the cache state is untouched and no feedback is computed); so [["CRANE"]]
    returns "CRANE". *)
Theorem minimax_entropy_degenerate {R : Runtime} E st candidates allowed :
  first_guess E candidates allowed = None →
  (candidates = [] → minimax_entropy E st candidates allowed = Raise ValueError)
  ∧ (∀ w, candidates = [w] → minimax_entropy E st candidates allowed = Ok (w, st))
  ∧ (candidates = ["CRANE"] →
     minimax_entropy E st candidates allowed = Ok ("CRANE", st)).
Proof.
  intros Hfast. destruct (minimax_entropy_small E st candidates allowed Hfast) as [H0 H1].
  split; [done|]. split; [done|]. apply H1.
Qed.

Lemma minimax_entropy_degenerate_witness :
  (["CRANE"] = [] →
   minimax_entropy (R:=exact_runtime) no_first_guess sample_state ["CRANE"] sample_allowed
   = Raise ValueError)
  ∧ (∀ w, ["CRANE"] = [w] →
     minimax_entropy (R:=exact_runtime) no_first_guess sample_state ["CRANE"] sample_allowed
     = Ok (w, sample_state))
  ∧ (["CRANE"] = ["CRANE"] →
     minimax_entropy (R:=exact_runtime) no_first_guess sample_state ["CRANE"] sample_allowed
     = Ok ("CRANE", sample_state)).
Proof.
  apply (@minimax_entropy_degenerate exact_runtime no_first_guess sample_state
           ["CRANE"] sample_allowed); reflexivity.
Defined.

Lemma simulate_game_raises_witness :
  simulate_game (R:=exact_runtime) "crane" (minimax_strategy no_first_guess)
    sample_allowed sample_answers empty_state = Raise ValueError
  ∧ simulate_game_hard_mode (R:=exact_runtime) no_first_guess
      sample_allowed sample_answers empty_state "crane" = Raise ValueError.
Proof.
  apply (@simulate_game_raises exact_runtime exact_runtime_laws
           no_first_guess empty_state sample_allowed sample_answers "crane");
    compute_done.
Defined.

(* ===================================================================== *)
(** * Further properties of the code                                   *)
(* ===================================================================== *)

(** ** Feedback encoder: marks, shape and short inputs *)

Lemma second_pass_length rest : ∀ i s exact C,
  length (second_pass i rest s exact C) = length rest.
Proof.
  induction rest as [|g rest IH]; intros i s exact C; [done|].
  cbn [second_pass]. case_decide; [cbn; by rewrite IH|].
  destruct (first_unconsumed 0 s C g); cbn; by rewrite IH.
Qed.

Lemma first_unconsumed_Some o s C c j :
  first_unconsumed o s C c = Some j →
  ∃ k, j = o + k ∧ s !! k = Some c ∧ j ∉ C.
Proof.
  revert o. induction s as [|x s IH]; intros o; [done|]. cbn [first_unconsumed].
  case_decide as Hd.
  - intros [= <-]. destruct Hd as [Hout ->]. exists 0. by rewrite Nat.add_0_r.
  - intros Hfu. destruct (IH _ Hfu) as (k & -> & Hk & Hout).
    exists (S k). split; [lia|done].
Qed.

(** what each mark of the second pass says *)
Lemma second_pass_lookup rest : ∀ i s exact C k m,
  exact ⊆ C →
  second_pass i rest s exact C !! k = Some m →
  (m = EXACT ↔ i + k ∈ exact)
  ∧ (m = MISPLACED → ∃ j, (j ∉ exact) ∧ s !! j = rest !! k).
Proof.
  induction rest as [|g rest IH]; intros i s exact C k m Hsub; [done|].
  cbn [second_pass].
  destruct (decide (i ∈ exact)) as [Hin|Hout].
  - destruct k as [|k]; cbn [lookup list_lookup].
    + intros [= <-]. rewrite Nat.add_0_r. by split.
    + intros Hk. rewrite Nat.add_succ_r. by apply (IH (S i) s exact C k m).
  - destruct (first_unconsumed 0 s C g) as [j|] eqn:Hfu.
    + destruct k as [|k]; cbn [lookup list_lookup].
      * intros [= <-]. rewrite Nat.add_0_r. split; [by split|].
        intros _. apply first_unconsumed_Some in Hfu as (k & -> & Hk & HC).
        exists k. split; [set_solver|done].
      * intros Hk. rewrite Nat.add_succ_r.
        apply (IH (S i) s exact ({[j]} ∪ C) k m); [set_solver|done].
    + destruct k as [|k]; cbn [lookup list_lookup].
      * intros [= <-]. rewrite Nat.add_0_r. by split.
      * intros Hk. rewrite Nat.add_succ_r. by apply (IH (S i) s exact C k m).
Qed.

Lemma chars_render marks : chars (render marks) = symbol <$> marks.
Proof. unfold render. apply chars_join. Qed.

Lemma symbol_inj : Inj (=) (=) symbol.
Proof. by intros [] [] ?. Qed.

Lemma get_feedback_marks guess answer :
  is_word guess → is_word answer →
  ∃ p, get_feedback guess answer = Ok p
       ∧ length (chars p) = 5
       ∧ ∀ i c, chars p !! i = Some c →
           (c = "0" ∨ c = "1" ∨ c = "2")%char
           ∧ (c = "2"%char ↔ chars guess !! i = chars answer !! i)
           ∧ (c = "1"%char →
              ∃ j, chars answer !! j = chars guess !! i
                   ∧ chars guess !! j ≠ chars answer !! j).
Proof.
  intros Hg Ha. exists (render (encode guess answer)).
  split; [by apply get_feedback_encode|].
  unfold is_word in *. rewrite len_chars in Hg, Ha.
  rewrite chars_render. unfold encode. cbn zeta.
  split; [by rewrite length_fmap, second_pass_length|].
  intros i c Hc. rewrite list_lookup_fmap in Hc.
  destruct (second_pass 0 (chars guess) (chars answer) _ _ !! i) as [m|] eqn:Hm; [|done].
  injection Hc as <-.
  assert (Hi : i < 5).
  { apply lookup_lt_Some in Hm. by rewrite second_pass_length, Hg in Hm. }
  destruct (second_pass_lookup _ _ _ _ _ _ _ (reflexivity _) Hm) as [Hex Hmis].
  cbn [Nat.add] in Hex. rewrite elem_of_exact_below in Hex.
  split; [destruct m; auto|]. split.
  - split.
    + intros Hs. apply (symbol_inj _ EXACT) in Hs. by apply Hex in Hs as [_ ?].
    + intros Heq. assert (m = EXACT) as -> by (apply Hex; split; [lia|done]). done.
  - intros Hs. apply (symbol_inj _ MISPLACED) in Hs. destruct (Hmis Hs) as (j & Hj & Hsj).
    exists j. split; [done|]. intros Heq. apply Hj, elem_of_exact_below.
    split; [|done]. apply lookup_lt_is_Some. rewrite Heq, Hsj.
    apply lookup_lt_is_Some. lia.
Qed.

(** X1: for 5-letter words [get_feedback] returns five symbols, each '0', '1'
    or '2'; the symbol at position i is '2' exactly when the guess and the
    answer have the same letter there, and a '1' at position i means that the
    letter of the guess at i stands in the answer at some position where the
    guess does not match. *)
Theorem get_feedback_positions guess answer :
  is_word guess → is_word answer →
  ∃ p, get_feedback guess answer = Ok p
       ∧ length (chars p) = 5
       ∧ ∀ i c, chars p !! i = Some c →
           (c = "0" ∨ c = "1" ∨ c = "2")%char
           ∧ (c = "2"%char ↔ chars guess !! i = chars answer !! i)
           ∧ (c = "1"%char →
              ∃ j, chars answer !! j = chars guess !! i
                   ∧ chars guess !! j ≠ chars answer !! j).
Proof. apply get_feedback_marks. Qed.

Lemma get_feedback_won guess answer :
  is_word guess → is_word answer →
  get_feedback guess answer = Ok "22222" → guess = answer.
Proof.
  intros Hg Ha Hrun. destruct (get_feedback_marks guess answer Hg Ha) as (p & Hp & _ & Hpos).
  rewrite Hrun in Hp. injection Hp as <-.
  unfold is_word in *. rewrite len_chars in Hg, Ha.
  apply chars_inj, list_eq. intros i. destruct (decide (i < 5)) as [Hi|Hi].
  - destruct (lookup_lt_is_Some_2 (chars "22222") i Hi) as [c Hc].
    destruct (Hpos i c Hc) as (_ & Heq & _). apply Heq.
    do 5 (destruct i as [|i]; [by injection Hc as <-|]). cbn in Hi. lia.
  - by rewrite !lookup_ge_None_2 by lia.
Qed.

Lemma get_feedback_same w : is_word w → get_feedback w w = Ok "22222".
Proof.
  intros Hw. destruct (get_feedback_marks w w Hw Hw) as (p & Hp & Hlen & Hpos).
  rewrite Hp. f_equal. apply chars_inj.
  change (chars "22222") with (replicate 5 "2"%char). rewrite <-Hlen.
  apply list_eq. intros i. destruct (chars p !! i) as [c|] eqn:Hc.
  - destruct (Hpos i c Hc) as (_ & Heq & _). rewrite (proj2 Heq eq_refl).
    symmetry. apply lookup_replicate_2. by apply lookup_lt_Some in Hc.
  - symmetry. apply lookup_replicate_None. by apply lookup_ge_None in Hc.
Qed.

Lemma get_feedback_valid guess answer :
  is_word guess → is_word answer →
  ∃ p, get_feedback guess answer = Ok p ∧ Helper.validate_feedback p = true.
Proof.
  intros Hg Ha. destruct (get_feedback_marks guess answer Hg Ha) as (p & Hp & Hlen & Hpos).
  exists p. split; [done|]. unfold Helper.validate_feedback.
  rewrite decide_False by (rewrite len_chars; lia).
  apply forallb_forall. intros c Hc%list_elem_of_In%list_elem_of_lookup.
  destruct Hc as [i Hi]. destruct (Hpos i c Hi) as [[->|[->| ->]] _]; by vm_compute.
Qed.

(** X2: whatever [get_feedback] returns for two 5-letter words is accepted
    by [validate_feedback]. *)
Theorem get_feedback_validates guess answer :
  is_word guess → is_word answer →
  ∃ p, get_feedback guess answer = Ok p ∧ Helper.validate_feedback p = true.
Proof. apply get_feedback_valid. Qed.

(** *** Short inputs *)
Lemma first_pass_prefix guess answer n :
  n ≤ 5 → n ≤ len guess → n ≤ len answer →
  ∃ st, for_each (first_pass_body guess answer) (seq 0 n)
          (replicate 5 "0"%char, Some <$> chars answer) = Ok st
        ∧ length st.1 = 5 ∧ length st.2 = len answer.
Proof.
  rewrite !len_chars. induction n as [|n IH]; intros H5 Hg Ha.
  - eexists. split; [done|]. cbn [fst snd]. by rewrite length_replicate, length_fmap.
  - destruct IH as ([fb ac] & Hrun & Hfb & Hac); [lia..|]. cbn [fst snd] in Hfb, Hac.
    rewrite seq_S, for_each_app, Hrun. cbn [Nat.add for_each mbind result_bind].
    unfold first_pass_body. rewrite !str_index_chars. unfold index.
    destruct (lookup_lt_is_Some_2 (chars guess) n ltac:(lia)) as [x ->].
    destruct (lookup_lt_is_Some_2 (chars answer) n ltac:(lia)) as [y ->].
    cbn [mbind result_bind fst snd]. case_decide.
    + rewrite !assign_lt by lia. cbn [mbind result_bind].
      eexists. split; [done|]. cbn [fst snd]. by rewrite !length_insert.
    + by exists (fb, ac).
Qed.

(** X3: when the guess or the answer has fewer than five characters,
    [get_feedback] raises [IndexError]: the first loop indexes both strings
    up to position 4. *)
Theorem get_feedback_short guess answer :
  len guess < 5 ∨ len answer < 5 →
  get_feedback guess answer = Raise IndexError.
Proof.
  intros Hshort. set (m := len guess `min` len answer).
  destruct (first_pass_prefix guess answer m) as (st & Hrun & _); [lia..|].
  assert (Hstep : first_pass_body guess answer st m = Raise IndexError).
  { unfold first_pass_body. rewrite !str_index_chars. unfold index.
    destruct (decide (len guess ≤ len answer)) as [Hle|Hgt].
    - by rewrite (lookup_ge_None_2 (chars guess) m) by (rewrite <-len_chars; lia).
    - destruct (lookup_lt_is_Some_2 (chars guess) m) as [x ->];
        [rewrite <-len_chars; lia|].
      by rewrite (lookup_ge_None_2 (chars answer) m) by (rewrite <-len_chars; lia). }
  assert (Hsplit : range 5 = seq 0 m ++ m :: seq (S m) (4 - m)).
  { unfold range. replace (m :: seq (S m) (4 - m)) with (seq (0 + m) (5 - m)).
    - rewrite <-(seq_app m (5 - m) 0). f_equal. lia.
    - replace (5 - m) with (S (4 - m)) by lia. done. }
  unfold get_feedback. cbn zeta. rewrite Hsplit at 1.
  rewrite for_each_app, Hrun. cbn [mbind result_bind for_each].
  by rewrite Hstep.
Qed.

Lemma get_feedback_short_witness :
  get_feedback "CRAN" "CRANE" = Raise IndexError.
Proof. apply (get_feedback_short "CRAN" "CRANE"). left. vm_compute. lia. Defined.

(** *** No letter is credited more often than the answer holds it *)
Lemma filter_length_mono {A} (P Q : A → Prop) `{∀ x, Decision (P x)}
    `{∀ x, Decision (Q x)} (l : list A) :
  (∀ x, x ∈ l → P x → Q x) → length (filter P l) ≤ length (filter Q l).
Proof.
  induction l as [|x l IH]; intros HPQ; [done|].
  assert (length (filter P l) ≤ length (filter Q l)) as IH'.
  { apply IH. intros y Hy. apply HPQ. by apply list_elem_of_further. }
  rewrite !filter_cons. destruct (decide (P x)) as [HP|HP].
  - rewrite decide_True by (apply HPQ; [apply list_elem_of_here|done]). cbn. lia.
  - destruct (decide (Q x)); cbn; lia.
Qed.

Lemma filter_length_strict {A} (P Q : A → Prop) `{∀ x, Decision (P x)}
    `{∀ x, Decision (Q x)} (l : list A) x :
  x ∈ l → Q x → ¬ P x → (∀ y, y ∈ l → P y → Q y) →
  S (length (filter P l)) ≤ length (filter Q l).
Proof.
  induction l as [|y l IH]; intros Hx HQ HP HPQ; [by apply not_elem_of_nil in Hx|].
  rewrite !filter_cons. apply elem_of_cons in Hx as [<-|Hx].
  - rewrite decide_False, decide_True by done. cbn.
    apply le_n_S, filter_length_mono. intros z Hz. apply HPQ. by apply list_elem_of_further.
  - assert (S (length (filter P l)) ≤ length (filter Q l)) as IH'.
    { apply IH; [done..|]. intros z Hz. apply HPQ. by apply list_elem_of_further. }
    destruct (decide (P y)) as [HPy|HPy].
    + rewrite decide_True by (apply HPQ; [apply list_elem_of_here|done]). cbn. lia.
    + destruct (decide (Q y)); cbn; lia.
Qed.

Lemma positions_of_letter (s : list ascii) c :
  length (filter (λ j, s !! j = Some c) (seq 0 (length s)))
  = length (filter (λ x, x = c) s).
Proof.
  induction s as [|x s IH] using rev_ind; [done|].
  rewrite length_app. cbn [length]. rewrite seq_app. cbn [seq Nat.add].
  rewrite !filter_app, !length_app, <-IH. f_equal.
  - f_equal. apply filter_ext_in. intros j Hj%elem_of_seq.
    by rewrite lookup_app_l by lia.
  - rewrite !filter_cons, !filter_nil.
    rewrite lookup_app_r, Nat.sub_diag by lia. cbn [lookup list_lookup].
    destruct (decide (x = c)) as [->|Hne].
    + by rewrite decide_True.
    + rewrite decide_False; [done|]. by intros [= ?].
Qed.

Lemma second_pass_budget (s : list ascii) exact c rest : ∀ i C,
  exact ⊆ C →
  (∀ j, j ∈ exact → i ≤ j → rest !! (j - i) = s !! j ∧ j < length s) →
  length (filter (λ gp : ascii * ascii, gp.1 = c ∧ gp.2 ≠ "0"%char)
            (zip rest (symbol <$> second_pass i rest s exact C)))
  ≤ length (filter (λ j, s !! j = Some c ∧ ((j ∉ C) ∨ (j ∈ exact ∧ i ≤ j)))
              (seq 0 (length s))).
Proof.
  induction rest as [|g rest IH]; intros i C Hsub Hex; [cbn; lia|].
  assert (Hex' : ∀ j, j ∈ exact → S i ≤ j → rest !! (j - S i) = s !! j ∧ j < length s).
  { intros j Hj Hle. destruct (Hex j Hj ltac:(lia)) as [Heq Hlt]. split; [|done].
    rewrite <-Heq. replace (j - i) with (S (j - S i)) by lia. done. }
  cbn [second_pass].
  destruct (decide (i ∈ exact)) as [Hin|Hout].
  - specialize (IH (S i) C Hsub Hex').
    destruct (Hex i Hin ltac:(lia)) as [Heq Hlt]. rewrite Nat.sub_diag in Heq.
    cbn [lookup list_lookup] in Heq.
    unfold zip. cbn [fmap list_fmap base.zip zip_with symbol]. rewrite filter_cons.
    destruct (decide _) as [[Hg _]|Hno]; cbn [fst snd] in *.
    + subst g. cbn [length]. etrans; [apply le_n_S, IH|].
      apply (filter_length_strict _ _ _ i).
      * apply elem_of_seq. lia.
      * split; [done|]. right. split; [done|lia].
      * intros [_ [HC|[_ Hle]]]; [set_solver|lia].
      * intros j _ [Hs [HC|[He Hle]]]; (split; [done|]); [by left|right; split; [done|lia]].
    + etrans; [apply IH|]. apply filter_length_mono.
      intros j _ [Hs [HC|[He Hle]]]; (split; [done|]); [by left|right; split; [done|lia]].
  - destruct (first_unconsumed 0 s C g) as [j0|] eqn:Hfu.
    + apply first_unconsumed_Some in Hfu as (k & -> & Hk & HC). cbn [Nat.add] in *.
      specialize (IH (S i) ({[k]} ∪ C) ltac:(set_solver) Hex').
      unfold zip. cbn [fmap list_fmap base.zip zip_with symbol]. rewrite filter_cons.
      destruct (decide _) as [[Hg _]|Hno]; cbn [fst snd] in *.
      * subst g. cbn [length]. etrans; [apply le_n_S, IH|].
        apply (filter_length_strict _ _ _ k).
        -- apply elem_of_seq. apply lookup_lt_Some in Hk. lia.
        -- split; [done|]. by left.
        -- intros [_ [HC'|[He _]]]; set_solver.
        -- intros j _ [Hs [HC'|[He Hle]]]; (split; [done|]);
             [left; set_solver|right; split; [done|lia]].
      * etrans; [apply IH|]. apply filter_length_mono.
        intros j _ [Hs [HC'|[He Hle]]]; (split; [done|]);
          [left; set_solver|right; split; [done|lia]].
    + specialize (IH (S i) C Hsub Hex').
      unfold zip. cbn [fmap list_fmap base.zip zip_with symbol]. rewrite filter_cons.
      rewrite decide_False by (cbn; by intros [_ ?]).
      etrans; [apply IH|]. apply filter_length_mono.
      intros j _ [Hs [HC|[He Hle]]]; (split; [done|]); [by left|right; split; [done|lia]].
Qed.

(** X4: for 5-letter words and every letter c, the positions of the guess that
    hold c and are marked '1' or '2' are at most as many as the copies of c in
    the answer. *)
Theorem get_feedback_letter_budget guess answer :
  is_word guess → is_word answer →
  ∃ p, get_feedback guess answer = Ok p
       ∧ ∀ c, length (filter (λ gp : ascii * ascii, gp.1 = c ∧ gp.2 ≠ "0"%char)
                        (zip (chars guess) (chars p)))
              ≤ length (filter (λ x, x = c) (chars answer)).
Proof.
  intros Hg Ha. exists (render (encode guess answer)).
  split; [by apply get_feedback_encode|]. intros c.
  rewrite chars_render. unfold encode. cbn zeta.
  etrans; [apply second_pass_budget|].
  - done.
  - intros j Hj%elem_of_exact_below _. rewrite Nat.sub_0_r. destruct Hj as [Hlt Heq].
    split; [done|]. apply lookup_lt_is_Some. rewrite <-Heq. by apply lookup_lt_is_Some.
  - rewrite <-positions_of_letter. apply filter_length_mono. by intros j _ [? _].
Qed.

Lemma get_feedback_letter_budget_witness :
  ∃ p, get_feedback "SPEED" "ABIDE" = Ok p
       ∧ ∀ c, length (filter (λ gp : ascii * ascii, gp.1 = c ∧ gp.2 ≠ "0"%char)
                        (zip (chars "SPEED") (chars p)))
              ≤ length (filter (λ x, x = c) (chars "ABIDE")).
Proof. apply (get_feedback_letter_budget "SPEED" "ABIDE"); reflexivity. Defined.

Lemma get_feedback_positions_witness :
  ∃ p, get_feedback "SPEED" "ERASE" = Ok p
       ∧ length (chars p) = 5
       ∧ ∀ i c, chars p !! i = Some c →
           (c = "0" ∨ c = "1" ∨ c = "2")%char
           ∧ (c = "2"%char ↔ chars "SPEED" !! i = chars "ERASE" !! i)
           ∧ (c = "1"%char →
              ∃ j, chars "ERASE" !! j = chars "SPEED" !! i
                   ∧ chars "SPEED" !! j ≠ chars "ERASE" !! j).
Proof. apply (get_feedback_positions "SPEED" "ERASE"); reflexivity. Defined.

Lemma get_feedback_validates_witness :
  ∃ p, get_feedback "SPEED" "ERASE" = Ok p ∧ Helper.validate_feedback p = true.
Proof. apply (get_feedback_validates "SPEED" "ERASE"); reflexivity. Defined.

(** ** Candidate filter: the cache it writes, and its history *)

Lemma grows_refl st : grows st st.
Proof. split; [done|]. split; [|done]. intros w g p H1 H2. congruence. Qed.

Lemma grows_trans st1 st2 st3 : grows st1 st2 → grows st2 st3 → grows st1 st3.
Proof.
  intros (He1 & Hn1 & Hd1) (He2 & Hn2 & Hd2). split; [|split].
  - intros w g p H. by apply He2, He1.
  - intros w g p H3 H1.
    destruct (cached (precomputed_patterns st2) w g) as [q|] eqn:H2.
    + pose proof (He2 _ _ _ H2) as H3'. rewrite H3 in H3'. injection H3' as ->.
      by apply Hn1.
    + by apply Hn2.
  - auto.
Qed.

Lemma for_each_rel {A S} (body : S → A → result S) (R : S → S → Prop) xs :
  (∀ s, R s s) → (∀ s1 s2 s3, R s1 s2 → R s2 s3 → R s1 s3) →
  (∀ s x s', x ∈ xs → body s x = Ok s' → R s s') →
  ∀ s s', for_each body xs s = Ok s' → R s s'.
Proof.
  intros Hrefl Htrans. induction xs as [|x xs IH]; intros Hbody s s'; cbn [for_each].
  - intros [= <-]. apply Hrefl.
  - destruct (body s x) as [s1|e] eqn:Hstep; [|done]. cbn [mbind result_bind].
    intros Hrest. apply (Htrans _ s1).
    + apply (Hbody s x); [apply list_elem_of_here|done].
    + apply IH; [|done]. intros s0 y s0' Hy. apply Hbody. by apply list_elem_of_further.
Qed.

Lemma cache_fill_hit st w g p :
  cached (precomputed_patterns st) w g = Some p → cache_fill st w g = Ok (p, st).
Proof.
  destruct st as [P d]. unfold cached, cache_fill. cbn [precomputed_patterns cache_dirty].
  destruct (P !! w) as [row|] eqn:Hrow; [|done]. cbn [mbind option_bind].
  rewrite Hrow. cbn [default from_option id]. by intros ->.
Qed.

Lemma cache_fill_grows st w g p st' :
  cache_fill st w g = Ok (p, st') → grows st st'.
Proof.
  destruct st as [P d]. unfold cache_fill. cbn [precomputed_patterns cache_dirty].
  destruct (P !! w) as [row|] eqn:Hrow.
  - rewrite Hrow. cbn [default from_option id].
    destruct (row !! g) as [q|] eqn:Hq.
    + intros [= <- <-]. apply grows_refl.
    + destruct (get_feedback g w) as [q|] eqn:Hfb; [|done]. cbn [mbind result_bind].
      intros [= <- <-]. unfold grows, cached. cbn [precomputed_patterns cache_dirty].
      split; [|split; [|done]].
      * intros w' g' p'. destruct (decide (w' = w)) as [->|Hw].
        -- rewrite lookup_insert_eq, Hrow. cbn [mbind option_bind].
           destruct (decide (g' = g)) as [->|Hg]; [by rewrite Hq|].
           by rewrite lookup_insert_ne.
        -- by rewrite lookup_insert_ne.
      * intros w' g' p'. destruct (decide (w' = w)) as [->|Hw].
        -- rewrite lookup_insert_eq, Hrow. cbn [mbind option_bind].
           destruct (decide (g' = g)) as [->|Hg].
           ++ rewrite lookup_insert_eq. by intros [= <-].
           ++ rewrite lookup_insert_ne by done. congruence.
        -- rewrite lookup_insert_ne by done. congruence.
  - rewrite lookup_insert_eq. cbn [default from_option id]. rewrite lookup_empty.
    destruct (get_feedback g w) as [q|] eqn:Hfb; [|done]. cbn [mbind result_bind].
    intros [= <- <-]. unfold grows, cached. cbn [precomputed_patterns cache_dirty].
    rewrite insert_insert_eq.
    split; [|split; [|done]].
    + intros w' g' p'. destruct (decide (w' = w)) as [->|Hw].
      * by rewrite Hrow.
      * by rewrite lookup_insert_ne.
    + intros w' g' p'. destruct (decide (w' = w)) as [->|Hw].
      * rewrite lookup_insert_eq. cbn [mbind option_bind].
        destruct (decide (g' = g)) as [->|Hg].
        -- rewrite lookup_insert_eq. by intros [= <-].
        -- by rewrite lookup_insert_ne, lookup_empty.
      * rewrite lookup_insert_ne by done. congruence.
Qed.

Lemma keep_cached_grows g fb acc w acc' :
  Solver.keep_cached g fb acc w = Ok acc' → grows acc.2 acc'.2.
Proof.
  unfold Solver.keep_cached. destruct (cache_fill acc.2 w g) as [[p st']|] eqn:Hfill; [|done].
  cbn [mbind result_bind]. intros [= <-]. cbn [snd]. by eapply cache_fill_grows.
Qed.

Lemma filter_round_grows acc gf acc' :
  Solver.filter_round acc gf = Ok acc' →
  grows acc.2 acc'.2 ∧ (precomputed_patterns acc.2 = ∅ → acc'.2 = acc.2).
Proof.
  unfold Solver.filter_round. case_decide as Hne.
  - intros Hrun. split; [|done].
    apply (for_each_rel _ (λ a b : list string * Solver.state, grows a.2 b.2)) in Hrun; [done|..].
    + intros. apply grows_refl.
    + intros ???. apply grows_trans.
    + intros s x s' _. apply keep_cached_grows.
  - destruct (filter_comp _ _) as [new|]; [|done]. cbn [mbind result_bind].
    intros [= <-]. cbn [snd]. split; [apply grows_refl|done].
Qed.

Lemma solver_filter_grows l st guesses feedbacks out st' :
  Solver.filter_possible_answers l st guesses feedbacks = Ok (out, st') →
  grows st st' ∧ (precomputed_patterns st = ∅ → st' = st).
Proof.
  unfold Solver.filter_possible_answers. intros Hrun.
  apply (for_each_rel _ (λ a b : list string * Solver.state,
           grows a.2 b.2 ∧ (precomputed_patterns a.2 = ∅ → b.2 = a.2))) in Hrun; [done|..].
  - intros s. split; [apply grows_refl|done].
  - intros s1 s2 s3 [H12 E12] [H23 E23]. split; [by eapply grows_trans|].
    intros He. rewrite E23; rewrite E12; done.
  - intros s x s' _. apply filter_round_grows.
Qed.

Lemma solver_filter_survives l st guesses feedbacks :
  Forall is_word l → Forall is_word guesses →
  ∃ st', Solver.filter_possible_answers l st guesses feedbacks
         = Ok (filter (survives (precomputed_patterns st) (zip guesses feedbacks)) l, st')
         ∧ same_lookups (precomputed_patterns st) (precomputed_patterns st').
Proof.
  intros Hl Hg. apply solver_filter_rounds_spec. by apply words_lookups_ok.
Qed.

Lemma helper_filter_survives l P guesses feedbacks :
  Forall is_word l → Forall is_word guesses →
  Helper.filter_possible_answers l P guesses feedbacks
  = Ok (filter (survives P (zip guesses feedbacks)) l).
Proof.
  intros Hl Hg. apply helper_filter_rounds_spec. by apply words_lookups_ok.
Qed.

(** X5: on word lists the filter of [solver.py] returns, and of the cache it
    only adds: an entry present before is still there with its pattern, an
    entry that is new holds the pattern [get_feedback] computes, the dirty
    flag is never cleared, and when the cache is empty the globals are left
    untouched. *)
Theorem filter_possible_answers_cache l st guesses feedbacks :
  Forall is_word l → Forall is_word guesses →
  let P := precomputed_patterns st in
  ∃ out st',
    Solver.filter_possible_answers l st guesses feedbacks = Ok (out, st')
    ∧ (∀ w g p, cached P w g = Some p → cached (precomputed_patterns st') w g = Some p)
    ∧ (∀ w g p, cached (precomputed_patterns st') w g = Some p → cached P w g = None →
                get_feedback g w = Ok p)
    ∧ (cache_dirty st = true → cache_dirty st' = true)
    ∧ (P = ∅ → st' = st).
Proof.
  intros Hl Hg P.
  destruct (solver_filter_survives l st guesses feedbacks Hl Hg) as (st' & Hrun & _).
  eexists _, st'. split; [exact Hrun|].
  destruct (solver_filter_grows _ _ _ _ _ _ Hrun) as [(H1 & H2 & H3) H4].
  by repeat split.
Qed.

Lemma filter_possible_answers_cache_witness :
  let P := precomputed_patterns sample_state in
  ∃ out st',
    Solver.filter_possible_answers sample_answers sample_state ["slate"] ["00202"] = Ok (out, st')
    ∧ (∀ w g p, cached P w g = Some p → cached (precomputed_patterns st') w g = Some p)
    ∧ (∀ w g p, cached (precomputed_patterns st') w g = Some p → cached P w g = None →
                get_feedback g w = Ok p)
    ∧ (cache_dirty sample_state = true → cache_dirty st' = true)
    ∧ (P = ∅ → st' = sample_state).
Proof.
  apply (filter_possible_answers_cache sample_answers sample_state ["slate"] ["00202"]);
    compute_done.
Defined.

(** X6: started on the same cache, the filter of [solver.py] and the read-only
    filter of [helper.py] return the same candidates. *)
Theorem filters_agree l st guesses feedbacks :
  Forall is_word l → Forall is_word guesses →
  ∃ out st',
    Solver.filter_possible_answers l st guesses feedbacks = Ok (out, st')
    ∧ Helper.filter_possible_answers l (precomputed_patterns st) guesses feedbacks = Ok out.
Proof.
  intros Hl Hg.
  destruct (solver_filter_survives l st guesses feedbacks Hl Hg) as (st' & Hrun & _).
  eexists _, st'. split; [exact Hrun|]. by apply helper_filter_survives.
Qed.

Lemma filters_agree_witness :
  ∃ out st',
    Solver.filter_possible_answers sample_answers sample_state ["slate"] ["00202"] = Ok (out, st')
    ∧ Helper.filter_possible_answers sample_answers (precomputed_patterns sample_state)
        ["slate"] ["00202"] = Ok out.
Proof.
  apply (filters_agree sample_answers sample_state ["slate"] ["00202"]); compute_done.
Defined.

Lemma true_feedbacks_consistent answer guesses feedbacks :
  Forall2 (λ g fb, get_feedback g answer = Ok fb) guesses feedbacks →
  consistent_with (zip guesses feedbacks) answer.
Proof.
  induction 1 as [|g fb gs fs Hfb _ IH]; [by apply Forall_nil|].
  by apply Forall_cons.
Qed.

Lemma filters_consistent l st P guesses feedbacks :
  Forall is_word l → Forall is_word guesses →
  cache_agrees (precomputed_patterns st) l (zip guesses feedbacks) →
  cache_agrees P l (zip guesses feedbacks) →
  (∃ st', Solver.filter_possible_answers l st guesses feedbacks
          = Ok (filter (consistent_with (zip guesses feedbacks)) l, st')
          ∧ same_lookups (precomputed_patterns st) (precomputed_patterns st'))
  ∧ Helper.filter_possible_answers l P guesses feedbacks
    = Ok (filter (consistent_with (zip guesses feedbacks)) l).
Proof.
  intros Hl Hg Hst HP. split.
  - destruct (solver_filter_survives l st guesses feedbacks Hl Hg) as (st' & Hrun & Hsame).
    exists st'. split; [|done]. rewrite Hrun. do 2 f_equal.
    apply filter_ext_in. intros w Hw. by apply survives_consistent with l.
  - rewrite helper_filter_survives by done. f_equal.
    apply filter_ext_in. intros w Hw. by apply survives_consistent with l.
Qed.

(** X7: when every feedback of the history is the one [get_feedback] gives
    for its guess against an answer of the list, and the caches agree with
    the encoder, both filters keep that answer. *)
Theorem filter_keeps_answer l st P guesses feedbacks answer :
  Forall is_word l → Forall is_word guesses →
  cache_agrees (precomputed_patterns st) l (zip guesses feedbacks) →
  cache_agrees P l (zip guesses feedbacks) →
  answer ∈ l →
  Forall2 (λ g fb, get_feedback g answer = Ok fb) guesses feedbacks →
  (∃ out st', Solver.filter_possible_answers l st guesses feedbacks = Ok (out, st')
              ∧ answer ∈ out)
  ∧ (∃ out, Helper.filter_possible_answers l P guesses feedbacks = Ok out
            ∧ answer ∈ out).
Proof.
  intros Hl Hg Hst HP Hin Htrue.
  destruct (filters_consistent l st P guesses feedbacks Hl Hg Hst HP)
    as [(st' & Hs & _) Hh].
  assert (answer ∈ filter (consistent_with (zip guesses feedbacks)) l).
  { apply list_elem_of_filter. split; [|done]. by apply true_feedbacks_consistent. }
  split; [by eexists _, st'|by eexists].
Qed.

Lemma filter_keeps_answer_witness :
  (∃ out st', Solver.filter_possible_answers sample_answers sample_state
                ["slate"; "crane"] ["00202"; "12202"] = Ok (out, st')
              ∧ "grace" ∈ out)
  ∧ (∃ out, Helper.filter_possible_answers sample_answers sample_cache
              ["slate"; "crane"] ["00202"; "12202"] = Ok out
            ∧ "grace" ∈ out).
Proof.
  apply (filter_keeps_answer sample_answers sample_state sample_cache
           ["slate"; "crane"] ["00202"; "12202"] "grace");
    [compute_done..|repeat constructor].
Defined.

(** X8: when the history holds a row [(g, "22222")] and the caches agree with
    the encoder, every candidate that both filters return is [g]. *)
Theorem filter_solved_row l st P guesses feedbacks g :
  Forall is_word l → Forall is_word guesses →
  cache_agrees (precomputed_patterns st) l (zip guesses feedbacks) →
  cache_agrees P l (zip guesses feedbacks) →
  (g, "22222") ∈ zip guesses feedbacks →
  (∃ out st', Solver.filter_possible_answers l st guesses feedbacks = Ok (out, st')
              ∧ ∀ w, w ∈ out → w = g)
  ∧ (∃ out, Helper.filter_possible_answers l P guesses feedbacks = Ok out
            ∧ ∀ w, w ∈ out → w = g).
Proof.
  intros Hl Hg Hst HP Hrow.
  destruct (filters_consistent l st P guesses feedbacks Hl Hg Hst HP)
    as [(st' & Hs & _) Hh].
  assert (Hall : ∀ w, w ∈ filter (consistent_with (zip guesses feedbacks)) l → w = g).
  { intros w [Hc Hw]%list_elem_of_filter. unfold consistent_with in Hc.
    rewrite Forall_forall in Hc. specialize (Hc _ Hrow). unfold matches in Hc.
    cbn [fst snd] in Hc. symmetry. apply get_feedback_won; [| |done].
    - rewrite Forall_forall in Hg. apply Hg.
      apply (elem_of_zip_l _ _ _ _ Hrow).
    - rewrite Forall_forall in Hl. by apply Hl. }
  split; [by eexists _, st'|by eexists].
Qed.

Lemma filter_solved_row_witness :
  (∃ out st', Solver.filter_possible_answers sample_answers sample_state
                ["slate"; "grace"] ["00202"; "22222"] = Ok (out, st')
              ∧ ∀ w, w ∈ out → w = "grace")
  ∧ (∃ out, Helper.filter_possible_answers sample_answers sample_cache
              ["slate"; "grace"] ["00202"; "22222"] = Ok out
            ∧ ∀ w, w ∈ out → w = "grace").
Proof.
  apply (filter_solved_row sample_answers sample_state sample_cache
           ["slate"; "grace"] ["00202"; "22222"] "grace"); compute_done.
Defined.

(** X9: both filters return the same candidates for two histories with the
    same rows in a different order. *)
Theorem filter_history_order l st P guesses feedbacks guesses' feedbacks' :
  Forall is_word l → Forall is_word guesses → Forall is_word guesses' →
  zip guesses feedbacks ≡ₚ zip guesses' feedbacks' →
  (∃ out st1 st2,
      Solver.filter_possible_answers l st guesses feedbacks = Ok (out, st1)
      ∧ Solver.filter_possible_answers l st guesses' feedbacks' = Ok (out, st2))
  ∧ (∃ out,
      Helper.filter_possible_answers l P guesses feedbacks = Ok out
      ∧ Helper.filter_possible_answers l P guesses' feedbacks' = Ok out).
Proof.
  intros Hl Hg Hg' Hperm.
  assert (Hsame : ∀ Q, filter (survives Q (zip guesses' feedbacks')) l
                       = filter (survives Q (zip guesses feedbacks)) l).
  { intros Q. apply filter_ext_in. intros w _. unfold survives. by rewrite Hperm. }
  split.
  - destruct (solver_filter_survives l st guesses feedbacks Hl Hg) as (st1 & H1 & _).
    destruct (solver_filter_survives l st guesses' feedbacks' Hl Hg') as (st2 & H2 & _).
    eexists _, st1, st2. split; [exact H1|]. by rewrite H2, Hsame.
  - eexists. split; [by apply helper_filter_survives|].
    by rewrite helper_filter_survives, Hsame.
Qed.

Lemma filter_history_order_witness :
  (∃ out st1 st2,
      Solver.filter_possible_answers sample_answers sample_state
        ["slate"; "crane"] ["00202"; "20202"] = Ok (out, st1)
      ∧ Solver.filter_possible_answers sample_answers sample_state
          ["crane"; "slate"] ["20202"; "00202"] = Ok (out, st2))
  ∧ (∃ out,
      Helper.filter_possible_answers sample_answers sample_cache
        ["slate"; "crane"] ["00202"; "20202"] = Ok out
      ∧ Helper.filter_possible_answers sample_answers sample_cache
          ["crane"; "slate"] ["20202"; "00202"] = Ok out).
Proof.
  apply (filter_history_order sample_answers sample_state sample_cache
           ["slate"; "crane"] ["00202"; "20202"] ["crane"; "slate"] ["20202"; "00202"]);
    [compute_done..|].
  apply perm_swap.
Defined.

Lemma zip_snoc {A B} (a : list A) (b : list B) x y :
  length a = length b → zip (a ++ [x]) (b ++ [y]) = zip a b ++ [(x, y)].
Proof.
  revert b. induction a as [|a0 a IH]; intros [|b0 b] Hlen; try done.
  cbn in Hlen. unfold zip in *. cbn. f_equal. apply IH. lia.
Qed.

(** X10: for a history with as many feedbacks as guesses, filtering the history
    extended by one row is filtering, by that row alone, the candidates and
    the cache that the shorter history leaves. *)
Theorem filter_one_more_round l st P guesses feedbacks g fb :
  Forall is_word l → Forall is_word guesses →
  length guesses = length feedbacks →
  (∃ out st1,
      Solver.filter_possible_answers l st guesses feedbacks = Ok (out, st1)
      ∧ Solver.filter_possible_answers l st (guesses ++ [g]) (feedbacks ++ [fb])
        = Solver.filter_possible_answers out st1 [g] [fb])
  ∧ (∃ out,
      Helper.filter_possible_answers l P guesses feedbacks = Ok out
      ∧ Helper.filter_possible_answers l P (guesses ++ [g]) (feedbacks ++ [fb])
        = Helper.filter_possible_answers out P [g] [fb]).
Proof.
  intros Hl Hg Hlen. split.
  - destruct (solver_filter_survives l st guesses feedbacks Hl Hg) as (st1 & H1 & _).
    eexists _, st1. split; [exact H1|].
    unfold Solver.filter_possible_answers in *.
    by rewrite zip_snoc, for_each_app, H1 by done.
  - eexists. split; [by apply helper_filter_survives|].
    pose proof (helper_filter_survives l P guesses feedbacks Hl Hg) as H1.
    unfold Helper.filter_possible_answers in *.
    by rewrite zip_snoc, for_each_app, H1 by done.
Qed.

Lemma filter_one_more_round_witness :
  (∃ out st1,
      Solver.filter_possible_answers sample_answers sample_state ["slate"] ["00202"]
      = Ok (out, st1)
      ∧ Solver.filter_possible_answers sample_answers sample_state
          (["slate"] ++ ["crane"]) (["00202"] ++ ["20202"])
        = Solver.filter_possible_answers out st1 ["crane"] ["20202"])
  ∧ (∃ out,
      Helper.filter_possible_answers sample_answers sample_cache ["slate"] ["00202"] = Ok out
      ∧ Helper.filter_possible_answers sample_answers sample_cache
          (["slate"] ++ ["crane"]) (["00202"] ++ ["20202"])
        = Helper.filter_possible_answers out sample_cache ["crane"] ["20202"]).
Proof.
  apply (filter_one_more_round sample_answers sample_state sample_cache
           ["slate"] ["00202"] "crane" "20202"); compute_done.
Defined.

(** X11: when the history holds a feedback that [validate_feedback] rejects
    and the caches agree with the encoder, both filters return the empty
    list; they do not raise. *)
Theorem filter_rejected_feedback l st P guesses feedbacks g fb :
  Forall is_word l → Forall is_word guesses →
  cache_agrees (precomputed_patterns st) l (zip guesses feedbacks) →
  cache_agrees P l (zip guesses feedbacks) →
  (g, fb) ∈ zip guesses feedbacks →
  Helper.validate_feedback fb = false →
  (∃ st', Solver.filter_possible_answers l st guesses feedbacks = Ok ([], st'))
  ∧ Helper.filter_possible_answers l P guesses feedbacks = Ok [].
Proof.
  intros Hl Hg Hst HP Hrow Hbad.
  destruct (filters_consistent l st P guesses feedbacks Hl Hg Hst HP)
    as [(st' & Hs & _) Hh].
  assert (Hnone : filter (consistent_with (zip guesses feedbacks)) l = []).
  { apply filter_none. intros w Hw Hc. unfold consistent_with in Hc.
    rewrite Forall_forall in Hc. specialize (Hc _ Hrow). unfold matches in Hc.
    cbn [fst snd] in Hc.
    destruct (get_feedback_valid g w) as (p & Hp & Hvalid).
    - rewrite Forall_forall in Hg. apply Hg. by apply elem_of_zip_l in Hrow.
    - rewrite Forall_forall in Hl. by apply Hl.
    - rewrite Hc in Hp. injection Hp as <-. congruence. }
  rewrite Hnone in Hs, Hh. split; [by exists st'|done].
Qed.

Lemma filter_rejected_feedback_witness :
  (∃ st', Solver.filter_possible_answers sample_answers sample_state
            ["slate"; "crane"] ["00202"; "2020"] = Ok ([], st'))
  ∧ Helper.filter_possible_answers sample_answers sample_cache
      ["slate"; "crane"] ["00202"; "2020"] = Ok [].
Proof.
  apply (filter_rejected_feedback sample_answers sample_state sample_cache
           ["slate"; "crane"] ["00202"; "2020"] "crane" "2020"); compute_done.
Defined.

(** ** Precomputed patterns *)

Lemma precompute_entries answer gs : ∀ P row,
  is_word answer → Forall is_word gs →
  P !! answer = Some row →
  ∃ row', for_each (precompute_entry answer) gs P = Ok (<[answer := row']> P)
          ∧ ∀ g p, row' !! g = Some p ↔
                   (g ∈ gs ∧ get_feedback g answer = Ok p) ∨ ((g ∉ gs) ∧ row !! g = Some p).
Proof.
  induction gs as [|g0 gs IH]; intros P row Ha Hgs Hrow.
  - exists row. split; [cbn; by rewrite insert_id|].
    intros g p. split; [intros ?; right; split; [apply not_elem_of_nil|done]|].
    intros [[H%not_elem_of_nil _]|[_ ?]]; done.
  - apply Forall_cons in Hgs as [Hg0 Hgs].
    destruct (get_feedback_total g0 answer Hg0 Ha) as [p0 Hp0].
    destruct (IH (<[answer := <[g0 := p0]> row]> P) (<[g0 := p0]> row) Ha Hgs)
      as (row' & Hrun & Hrow'); [by rewrite lookup_insert_eq|].
    exists row'. split.
    + cbn [for_each].
      assert (precompute_entry answer P g0 = Ok (<[answer := <[g0 := p0]> row]> P)) as ->.
      { unfold precompute_entry. rewrite Hp0. cbn [mbind result_bind]. by rewrite Hrow. }
      cbn [mbind result_bind]. rewrite Hrun. by rewrite insert_insert_eq.
    + intros g p. rewrite Hrow', elem_of_cons.
      destruct (decide (g = g0)) as [->|Hne].
      * rewrite lookup_insert_eq. split.
        -- intros [[Hin Hp]|[Hn [= <-]]]; left; (split; [auto|done]).
        -- intros [[_ Hp]|[Hn _]]; [|exfalso; apply Hn; by left].
           destruct (decide (g0 ∈ gs)); [left; by split|].
           right. split; [done|]. congruence.
      * rewrite lookup_insert_ne by done. split.
        -- intros [[Hin Hp]|[Hn Hp]]; [left; split; auto|].
           right. split; [|done]. by intros [?|?].
        -- intros [[[?|Hin] Hp]|[Hn Hp]]; [done|left; by split|].
           right. split; [|done]. intros ?. apply Hn. by right.
Qed.

Lemma precompute_answers gs answers : ∀ P,
  Forall is_word answers → Forall is_word gs →
  ∃ P', for_each (precompute_answer gs) answers P = Ok P'
        ∧ (∀ a g p, a ∈ answers →
             cached P' a g = Some p ↔ g ∈ gs ∧ get_feedback g a = Ok p)
        ∧ (∀ a, a ∉ answers → P' !! a = P !! a).
Proof.
  induction answers as [|a0 answers IH]; intros P Ha Hgs.
  - exists P. split; [done|]. split; [|done]. by intros a g p H%not_elem_of_nil.
  - apply Forall_cons in Ha as [Ha0 Ha].
    destruct (precompute_entries a0 gs (<[a0 := ∅]> P) ∅ Ha0 Hgs) as (row & Hrow & Hentries);
      [by rewrite lookup_insert_eq|].
    rewrite insert_insert_eq in Hrow.
    destruct (IH (<[a0 := row]> P) Ha Hgs) as (P' & Hrun & Hin & Hout).
    exists P'. split; [|split].
    + cbn [for_each].
      assert (precompute_answer gs P a0 = Ok (<[a0 := row]> P)) as -> by exact Hrow.
      by cbn [mbind result_bind].
    + intros a g p Hmem. destruct (decide (a ∈ answers)) as [Hrest|Hrest]; [by apply Hin|].
      apply elem_of_cons in Hmem as [->|?]; [|done].
      unfold cached. rewrite (Hout a0 Hrest), lookup_insert_eq. cbn [mbind option_bind].
      rewrite Hentries, lookup_empty. split.
      * by intros [?|[_ ?]].
      * intros ?. by left.
    + intros a [Hne Hrest]%not_elem_of_cons. rewrite (Hout a Hrest).
      by rewrite lookup_insert_ne.
Qed.

Lemma precompute_runs {R : Runtime} {L : RuntimeLaws R} allowed possible st :
  Forall is_word allowed → Forall is_word possible →
  ∃ st', precompute_feedback_patterns None allowed possible st = Ok st'
         ∧ (∀ a g p, a ∈ possible →
              cached (precomputed_patterns st') a g = Some p
              ↔ (g ∈ allowed ∨ g ∈ possible) ∧ get_feedback g a = Ok p)
         ∧ (∀ a, a ∉ possible →
              precomputed_patterns st' !! a = precomputed_patterns st !! a)
         ∧ cache_dirty st' = cache_dirty st.
Proof.
  intros Ha Hp.
  destruct (precompute_answers (list_of_set (allowed ++ possible)) possible
              (precomputed_patterns st)) as (P' & Hrun & Hin & Hout); [done| |].
  { apply Forall_forall. intros g Hg%list_of_set_elem%elem_of_app.
    rewrite Forall_forall in Ha, Hp. destruct Hg; auto. }
  exists (State P' (cache_dirty st)). split; [|split; [|split]].
  - unfold precompute_feedback_patterns. cbn zeta. by rewrite Hrun.
  - intros a g p Hmem. cbn [precomputed_patterns].
    by rewrite (Hin a g p Hmem), list_of_set_elem, elem_of_app.
  - done.
  - done.
Qed.

(** X12: when no cache file is loaded, [precompute_feedback_patterns] returns on
    word lists, and then the row of every possible answer holds exactly the
    guesses of the two lists, each with the pattern [get_feedback] computes;
    the rows of other words and the dirty flag are as before. *)
Theorem precompute_feedback_patterns_complete {R : Runtime} {L : RuntimeLaws R}
    allowed possible st :
  Forall is_word allowed → Forall is_word possible →
  ∃ st', precompute_feedback_patterns None allowed possible st = Ok st'
         ∧ (∀ a g p, a ∈ possible →
              cached (precomputed_patterns st') a g = Some p
              ↔ (g ∈ allowed ∨ g ∈ possible) ∧ get_feedback g a = Ok p)
         ∧ (∀ a, a ∉ possible →
              precomputed_patterns st' !! a = precomputed_patterns st !! a)
         ∧ cache_dirty st' = cache_dirty st.
Proof. apply precompute_runs. Qed.

Lemma precompute_feedback_patterns_complete_witness :
  ∃ st', precompute_feedback_patterns (R:=exact_runtime) None sample_allowed sample_answers
           sample_state = Ok st'
         ∧ (∀ a g p, a ∈ sample_answers →
              cached (precomputed_patterns st') a g = Some p
              ↔ (g ∈ sample_allowed ∨ g ∈ sample_answers) ∧ get_feedback g a = Ok p)
         ∧ (∀ a, a ∉ sample_answers →
              precomputed_patterns st' !! a = precomputed_patterns sample_state !! a)
         ∧ cache_dirty st' = cache_dirty sample_state.
Proof.
  apply (@precompute_feedback_patterns_complete exact_runtime exact_runtime_laws
           sample_allowed sample_answers sample_state); compute_done.
Defined.

(** *** A cache that holds every pair the filter asks for is only read *)
Lemma keep_cached_hits g fb l : ∀ acc st,
  Forall (λ w, is_Some (cached (precomputed_patterns st) w g)) l →
  for_each (Solver.keep_cached g fb) l (acc, st)
  = Ok (acc ++ filter (keeps (precomputed_patterns st) (g, fb)) l, st).
Proof.
  induction l as [|w l IH]; intros acc st Hhit.
  { cbn [for_each]. by rewrite filter_nil, app_nil_r. }
  apply Forall_cons in Hhit as [[p Hp] Hhit].
  cbn [for_each]. rewrite (keep_cached_step g fb acc st w p st) by by apply cache_fill_hit.
  cbn [mbind result_bind]. rewrite IH by done. f_equal. f_equal.
  assert (Hk : keeps (precomputed_patterns st) (g, fb) w ↔ p = fb).
  { unfold keeps, lookup_or_compute. cbn [fst snd]. rewrite Hp. split; congruence. }
  rewrite filter_cons. destruct (decide (p = fb)) as [Heq|Hne].
  - rewrite decide_True by by apply Hk. by rewrite <-app_assoc.
  - rewrite decide_False by by rewrite Hk. done.
Qed.

Lemma filter_round_hits l st gf :
  Forall (λ w, is_Some (cached (precomputed_patterns st) w gf.1)) l →
  Solver.filter_round (l, st) gf = Ok (filter (keeps (precomputed_patterns st) gf) l, st).
Proof.
  intros Hhit. unfold Solver.filter_round. cbn [fst snd]. case_decide as Hne.
  - destruct gf as [g fb]. by rewrite keep_cached_hits.
  - destruct l as [|w l]; [done|]. apply Forall_cons in Hhit as [[p Hp] _].
    unfold cached in Hp. by rewrite Hne, lookup_empty in Hp.
Qed.

Lemma filter_rounds_hits hist : ∀ l st,
  Forall (λ w, Forall (λ g, is_Some (cached (precomputed_patterns st) w g)) hist.*1) l →
  for_each Solver.filter_round hist (l, st)
  = Ok (filter (survives (precomputed_patterns st) hist) l, st).
Proof.
  induction hist as [|gf hist IH]; intros l st Hhit.
  { cbn. f_equal. f_equal. symmetry. apply filter_all. intros. apply Forall_nil_2. }
  cbn [for_each]. rewrite filter_round_hits.
  2:{ eapply Forall_impl; [exact Hhit|]. intros w Hw. cbn in Hw.
      by apply Forall_cons in Hw as [? _]. }
  cbn [mbind result_bind]. rewrite IH.
  2:{ apply Forall_forall. intros w [_ Hw]%list_elem_of_filter. rewrite Forall_forall in Hhit.
      specialize (Hhit w Hw). cbn in Hhit. by apply Forall_cons in Hhit as [_ ?]. }
  f_equal. f_equal. rewrite list_filter_filter. apply filter_ext_in. intros w _.
  unfold survives. rewrite Forall_cons. tauto.
Qed.

(** X13: when the cache holds a pattern for every candidate and every guess of
    the history, the filter of [solver.py] returns and leaves the globals as
    they were. *)
Theorem filter_possible_answers_read_only l st guesses feedbacks :
  Forall (λ w, Forall (λ g, is_Some (cached (precomputed_patterns st) w g)) guesses) l →
  ∃ out, Solver.filter_possible_answers l st guesses feedbacks = Ok (out, st).
Proof.
  intros Hhit. eexists. unfold Solver.filter_possible_answers. apply filter_rounds_hits.
  eapply Forall_impl; [exact Hhit|]. intros w Hw. rewrite Forall_forall in Hw.
  apply Forall_forall. intros g Hg. apply Hw.
  apply list_elem_of_fmap in Hg as ([g' fb] & -> & Hin). by apply elem_of_zip_l in Hin.
Qed.

Lemma filter_possible_answers_read_only_witness :
  ∃ out, Solver.filter_possible_answers ["crane"] sample_state ["slate"] ["00202"]
         = Ok (out, sample_state).
Proof.
  apply (filter_possible_answers_read_only ["crane"] sample_state ["slate"] ["00202"]).
  compute_done.
Defined.

Lemma survives_sound P hist w :
  (∀ g, entry_agrees P w g) → survives P hist w ↔ consistent_with hist w.
Proof.
  intros Hsound. unfold survives, consistent_with. rewrite !Forall_forall.
  split; intros H gf Hgf; specialize (H gf Hgf); by apply (entry_agrees_keeps P w gf).
Qed.

(** X14: after [precompute_feedback_patterns] has computed the cache, both
    filters return, for guesses taken from the two lists, exactly the
    possible answers consistent with every row of the history, and the solver's
    filter leaves the cache as precomputed. *)
Theorem precompute_then_filter {R : Runtime} {L : RuntimeLaws R}
    allowed possible st guesses feedbacks :
  Forall is_word allowed → Forall is_word possible →
  Forall (λ g, g ∈ allowed ∨ g ∈ possible) guesses →
  ∃ st', precompute_feedback_patterns None allowed possible st = Ok st'
         ∧ Solver.filter_possible_answers possible st' guesses feedbacks
           = Ok (filter (consistent_with (zip guesses feedbacks)) possible, st')
         ∧ Helper.filter_possible_answers possible (precomputed_patterns st')
             guesses feedbacks
           = Ok (filter (consistent_with (zip guesses feedbacks)) possible).
Proof.
  intros Ha Hp Hg.
  destruct (precompute_runs allowed possible st Ha Hp) as (st' & Hrun & Hin & _ & _).
  assert (Hword : ∀ g, g ∈ allowed ∨ g ∈ possible → is_word g).
  { rewrite Forall_forall in Ha, Hp. intros g [?|?]; auto. }
  assert (Hgw : Forall is_word guesses).
  { eapply Forall_impl; [exact Hg|]. apply Hword. }
  assert (Hsame : filter (survives (precomputed_patterns st') (zip guesses feedbacks)) possible
                  = filter (consistent_with (zip guesses feedbacks)) possible).
  { apply filter_ext_in. intros w Hw. apply survives_sound. intros g.
    unfold entry_agrees. destruct (cached _ w g) as [p|] eqn:Hc; [|done].
    by apply (Hin w g p Hw) in Hc as [_ ?]. }
  exists st'. split; [done|]. split.
  - rewrite <-Hsame. unfold Solver.filter_possible_answers. apply filter_rounds_hits.
    apply Forall_forall. intros w Hw. apply Forall_forall. intros g Hgin.
    apply list_elem_of_fmap in Hgin as ([g' fb] & -> & Hzip). apply elem_of_zip_l in Hzip.
    cbn [fst]. rewrite Forall_forall in Hg. specialize (Hg g' Hzip).
    destruct (get_feedback_total g' w) as [p Hfb]; [by apply Hword| |].
    { rewrite Forall_forall in Hp. by apply Hp. }
    exists p. by apply (Hin w g' p Hw).
  - rewrite <-Hsame. by apply helper_filter_survives.
Qed.

Lemma precompute_then_filter_witness :
  ∃ st', precompute_feedback_patterns (R:=exact_runtime) None sample_allowed sample_answers
           empty_state = Ok st'
         ∧ Solver.filter_possible_answers sample_answers st' ["slate"] ["00202"]
           = Ok (filter (consistent_with (zip ["slate"] ["00202"])) sample_answers, st')
         ∧ Helper.filter_possible_answers sample_answers (precomputed_patterns st')
             ["slate"] ["00202"]
           = Ok (filter (consistent_with (zip ["slate"] ["00202"])) sample_answers).
Proof.
  apply (@precompute_then_filter exact_runtime exact_runtime_laws
           sample_allowed sample_answers empty_state ["slate"] ["00202"]); compute_done.
Defined.

(** ** Guess selector: membership, cache and ties *)

Section SelectorMore.
Context {R : Runtime} {L : RuntimeLaws R}.

Lemma minimax_entropy_word E st candidates allowed :
  Forall is_word candidates → Forall is_word allowed → candidates ≠ [] →
  ∃ w st', minimax_entropy E st candidates allowed = Ok (w, st')
           ∧ (w ∈ allowed ∨ w ∈ candidates).
Proof.
  intros Hc Ha Hne.
  destruct (first_guess E candidates allowed) as [fg|] eqn:Hfast.
  { exists fg, st. unfold minimax_entropy. rewrite Hfast. split; [done|].
    by apply (first_guess_elem E). }
  destruct candidates as [|c [|c' cs]]; [done| |].
  - exists c, st. split; [by apply minimax_entropy_small|].
    right. apply list_elem_of_here.
  - destruct (minimax_entropy_select E st (c :: c' :: cs) allowed Hc Ha)
      as (_ & _ & g & st' & Hrun & Hg & _); [cbn; lia|done|].
    exists g, st'. split; [done|]. by apply guess_pool_elem.
Qed.

Lemma count_cached_grows g acc a acc' :
  count_cached g acc a = Ok acc' → grows acc.2 acc'.2.
Proof.
  unfold count_cached. destruct (cache_fill acc.2 a g) as [[p st']|] eqn:Hfill; [|done].
  cbn [mbind result_bind]. intros [= <-]. by eapply cache_fill_grows.
Qed.

Lemma count_plain_same g acc a acc' :
  count_plain g acc a = Ok acc' → acc'.2 = acc.2.
Proof.
  unfold count_plain. destruct (get_feedback g a); [|done].
  cbn [mbind result_bind]. by intros [= <-].
Qed.

Lemma score_guess_grows candidates (sel : selection) g sel' :
  score_guess candidates sel g = Ok sel' →
  grows sel.2 sel'.2 ∧ (precomputed_patterns sel.2 = ∅ → sel'.2 = sel.2).
Proof.
  destruct sel as [[best bg] st]. unfold score_guess. cbn [snd].
  case_decide as Hne.
  - destruct (for_each (count_cached g) candidates ([], st)) as [[pc st1]|] eqn:Hloop; [|done].
    apply (for_each_rel _ (λ a b : list (string * nat) * Solver.state, grows a.2 b.2))
      in Hloop.
    2:{ intros. apply grows_refl. }
    2:{ intros ???. apply grows_trans. }
    2:{ intros s x s' _. apply count_cached_grows. }
    cbn [mbind result_bind snd] in *. intros Hsel. split; [|done].
    destruct best as [b|]; [|by injection Hsel as <-].
    destruct (num_lt _ b); [by injection Hsel as <-|].
    destruct (num_eq _ b); by injection Hsel as <-.
  - destruct (for_each (count_plain g) candidates ([], st)) as [[pc st1]|] eqn:Hloop; [|done].
    apply (for_each_rel _ (λ a b : list (string * nat) * Solver.state, b.2 = a.2))
      in Hloop.
    2:{ done. }
    2:{ intros ??? H1 H2. by rewrite H2. }
    2:{ intros s x s' _. apply count_plain_same. }
    cbn [mbind result_bind snd] in *. subst st1. intros Hsel.
    assert (sel'.2 = st) as ->.
    { destruct best as [b|]; [|by injection Hsel as <-].
      destruct (num_lt _ b); [by injection Hsel as <-|].
      destruct (num_eq _ b); by injection Hsel as <-. }
    split; [apply grows_refl|done].
Qed.

Lemma minimax_entropy_grows E st candidates allowed w st' :
  minimax_entropy E st candidates allowed = Ok (w, st') →
  grows st st' ∧ (precomputed_patterns st = ∅ → st' = st).
Proof.
  unfold minimax_entropy. destruct (first_guess E candidates allowed).
  { intros [= _ <-]. split; [apply grows_refl|done]. }
  case_decide; [done|]. case_decide.
  { destruct (index candidates 0); [|done]. cbn [mbind result_bind].
    intros [= _ <-]. split; [apply grows_refl|done]. }
  destruct (for_each _ _ _) as [[[best bg] st1]|] eqn:Hloop; [|done].
  apply (for_each_rel _ (λ a b : selection,
           grows a.2 b.2 ∧ (precomputed_patterns a.2 = ∅ → b.2 = a.2))) in Hloop.
  2:{ intros s. split; [apply grows_refl|done]. }
  2:{ intros s1 s2 s3 [H12 E12] [H23 E23]. split; [by eapply grows_trans|].
      intros He. rewrite E23; rewrite E12; done. }
  2:{ intros s x s' _. apply score_guess_grows. }
  cbn [mbind result_bind snd] in *. case_decide.
  - destruct (index allowed 0); [|done]. cbn [mbind result_bind]. by intros [= _ <-].
  - destruct (pick bg candidates); [|done]. cbn [mbind result_bind]. by intros [= _ <-].
Qed.

(** X15: on word lists with at least one candidate, [minimax_entropy] returns,
    and the word it returns is a 5-letter word of the allowed guesses or of
    the candidates. *)
Theorem minimax_entropy_member E st candidates allowed :
  Forall is_word candidates → Forall is_word allowed → candidates ≠ [] →
  ∃ w st', minimax_entropy E st candidates allowed = Ok (w, st')
           ∧ (w ∈ allowed ∨ w ∈ candidates) ∧ is_word w.
Proof.
  intros Hc Ha Hne.
  destruct (minimax_entropy_word E st candidates allowed Hc Ha Hne) as (w & st' & Hrun & Hw).
  exists w, st'. split; [done|]. split; [done|].
  rewrite Forall_forall in Hc, Ha. destruct Hw; auto.
Qed.

(** X16: on word lists with at least one candidate, [minimax_entropy] only adds
    to the cache: old entries keep their patterns, new entries hold what
    [get_feedback] computes, the dirty flag is never cleared, and an empty
    cache is left untouched. *)
Theorem minimax_entropy_cache E st candidates allowed :
  Forall is_word candidates → Forall is_word allowed → candidates ≠ [] →
  let P := precomputed_patterns st in
  ∃ w st',
    minimax_entropy E st candidates allowed = Ok (w, st')
    ∧ (∀ a g p, cached P a g = Some p → cached (precomputed_patterns st') a g = Some p)
    ∧ (∀ a g p, cached (precomputed_patterns st') a g = Some p → cached P a g = None →
                get_feedback g a = Ok p)
    ∧ (cache_dirty st = true → cache_dirty st' = true)
    ∧ (P = ∅ → st' = st).
Proof.
  intros Hc Ha Hne P.
  destruct (minimax_entropy_word E st candidates allowed Hc Ha Hne) as (w & st' & Hrun & _).
  exists w, st'. split; [done|].
  destruct (minimax_entropy_grows _ _ _ _ _ _ Hrun) as [(H1 & H2 & H3) H4].
  by repeat split.
Qed.

(** *** Two candidates *)
Lemma buckets_pair x y :
  (buckets [x; y]).*2 = if decide (x = y) then [2] else [1; 1].
Proof.
  unfold buckets, bucket_size. cbn [distinct]. rewrite !filter_cons, !filter_nil.
  destruct (decide (x = y)) as [->|Hne].
  - rewrite (decide_False (P := y ≠ y)) by (intros ?; done). cbn [fmap list_fmap].
    rewrite !filter_cons, !filter_nil. by rewrite !decide_True by done.
  - rewrite (decide_True (P := y ≠ x)) by done. cbn [fmap list_fmap].
    rewrite !filter_cons, !filter_nil.
    rewrite (decide_True (P := x = x)) by done.
    rewrite (decide_False (P := y = x)) by done.
    rewrite (decide_False (P := x = y)) by done.
    rewrite (decide_True (P := y = y)) by done. done.
Qed.

Lemma pattern_of_agrees P w g :
  is_word g → is_word w → entry_agrees P w g →
  get_feedback g w = Ok (pattern_of P w g).
Proof.
  intros Hg Hw Hag. unfold pattern_of, lookup_or_compute. unfold entry_agrees in Hag.
  destruct (cached P w g) as [p|]; [done|].
  destruct (get_feedback_total g w Hg Hw) as [p ->]. done.
Qed.

Lemma minimax_entropy_two E st a b allowed :
  is_word a → is_word b → Forall is_word allowed →
  first_guess E [a; b] allowed = None →
  (∀ w g, w ∈ [a; b] → g ∈ [a; b] → entry_agrees (precomputed_patterns st) w g) →
  ∃ st', minimax_entropy E st [a; b] allowed = Ok (a, st').
Proof.
  intros Ha Hb Hall Hfast Hag. set (P := precomputed_patterns st).
  assert (Hin : ∀ w, w ∈ [a; b] → is_word w).
  { intros w [->|[->|H%not_elem_of_nil]%elem_of_cons]%elem_of_cons; done. }
  assert (Hsolved : ∀ w g, w ∈ [a; b] → g ∈ [a; b] →
                    pattern_of P w g = "22222" ↔ g = w).
  { intros w g Hw Hg.
    pose proof (pattern_of_agrees P w g (Hin g Hg) (Hin w Hw) (Hag w g Hw Hg)) as Hfb.
    split.
    - intros Heq. rewrite Heq in Hfb. apply get_feedback_won; auto.
    - intros ->. rewrite get_feedback_same in Hfb by auto. by injection Hfb. }
  assert (Ha_in : a ∈ [a; b]) by apply list_elem_of_here.
  assert (Hb_in : b ∈ [a; b]) by apply list_elem_of_further, list_elem_of_here.
  assert (Hscore : expected_remaining P [a; b] b = expected_remaining P [a; b] a).
  { unfold expected_remaining. cbn [fmap list_fmap length]. rewrite !buckets_pair.
    destruct (decide (a = b)) as [->|Hne]; [done|].
    rewrite (decide_False (P := pattern_of P a b = pattern_of P b b)).
    2:{ rewrite (proj2 (Hsolved b b Hb_in Hb_in) eq_refl). intros Heq.
        apply (Hsolved a b Ha_in Hb_in) in Heq. congruence. }
    rewrite (decide_False (P := pattern_of P a a = pattern_of P b a)).
    2:{ rewrite (proj2 (Hsolved a a Ha_in Ha_in) eq_refl). intros Heq. symmetry in Heq.
        apply (Hsolved b a Hb_in Ha_in) in Heq. congruence. }
    done. }
  destruct (score_loop P [a; b] [a; b] (None, []) st) as (st' & Hrun & _).
  { apply same_lookups_refl. }
  { intros g w Hg Hw. apply lookup_or_compute_total; auto. }
  exists st'. unfold minimax_entropy. rewrite Hfast.
  rewrite decide_False by (cbn; lia). rewrite decide_False by (cbn; lia).
  rewrite guess_pool_small by (cbn; lia). rewrite Hrun.
  unfold run_select. cbn [foldl]. unfold select at 2. cbn [fst snd].
  unfold select. cbn [fst snd]. rewrite Hscore.
  rewrite num_lt_irrefl, num_eq_refl. cbn [mbind result_bind app].
  rewrite decide_False by done.
  unfold pick. cbn [list_find]. rewrite decide_True by done. done.
Qed.

(** X17: with exactly two candidates, no precomputed first guess applying and a
    cache that agrees with the encoder on them, [minimax_entropy] returns the
    first candidate. *)
Theorem minimax_entropy_two_candidates E st a b allowed :
  is_word a → is_word b → Forall is_word allowed →
  first_guess E [a; b] allowed = None →
  Forall (λ w, Forall (λ g, entry_agrees (precomputed_patterns st) w g) [a; b]) [a; b] →
  ∃ st', minimax_entropy E st [a; b] allowed = Ok (a, st').
Proof.
  intros Ha Hb Hall Hfast Hag. apply minimax_entropy_two; [done..|].
  intros w g Hw Hg. rewrite Forall_forall in Hag. specialize (Hag w Hw).
  rewrite Forall_forall in Hag. by apply Hag.
Qed.
End SelectorMore.

Lemma minimax_entropy_member_witness :
  ∃ w st', minimax_entropy (R:=exact_runtime) no_first_guess sample_state
             sample_answers sample_allowed = Ok (w, st')
           ∧ (w ∈ sample_allowed ∨ w ∈ sample_answers) ∧ is_word w.
Proof.
  apply (@minimax_entropy_member exact_runtime exact_runtime_laws
           no_first_guess sample_state sample_answers sample_allowed); compute_done.
Defined.

Lemma minimax_entropy_cache_witness :
  let P := precomputed_patterns sample_state in
  ∃ w st',
    minimax_entropy (R:=exact_runtime) no_first_guess sample_state
      sample_answers sample_allowed = Ok (w, st')
    ∧ (∀ a g p, cached P a g = Some p → cached (precomputed_patterns st') a g = Some p)
    ∧ (∀ a g p, cached (precomputed_patterns st') a g = Some p → cached P a g = None →
                get_feedback g a = Ok p)
    ∧ (cache_dirty sample_state = true → cache_dirty st' = true)
    ∧ (P = ∅ → st' = sample_state).
Proof.
  apply (@minimax_entropy_cache exact_runtime exact_runtime_laws
           no_first_guess sample_state sample_answers sample_allowed); compute_done.
Defined.

Lemma minimax_entropy_two_candidates_witness :
  ∃ st', minimax_entropy (R:=exact_runtime) no_first_guess sample_state
           ["grace"; "crane"] sample_allowed = Ok ("grace", st').
Proof.
  apply (@minimax_entropy_two_candidates exact_runtime exact_runtime_laws
           no_first_guess sample_state "grace" "crane" sample_allowed); compute_done.
Defined.

(** ** Hard mode: the answer and the selected guess are legal *)

Lemma answer_is_legal guesses feedbacks answer :
  Forall is_word guesses → is_word answer →
  Forall2 (λ g fb, get_feedback g answer = Ok fb) guesses feedbacks →
  enforce_hard_mode_constraints guesses feedbacks answer = Ok true.
Proof.
  intros Hg Ha Htrue.
  destruct (enforce_latest guesses feedbacks answer Hg Ha) as (b & Hrun & Hb).
  rewrite Hrun. f_equal. apply Hb. clear b Hrun Hb.
  assert (Hrow : ∀ sym i c, flagged (zip guesses feedbacks) sym i c →
            ∃ g p, is_word g ∧ get_feedback g answer = Ok p
                   ∧ chars g !! i = Some c ∧ chars p !! i = Some sym).
  { intros sym i c ([g p] & Hin & Hc & Hs). cbn [fst snd] in *. exists g, p.
    pose proof (true_feedbacks_consistent _ _ _ Htrue) as Hcons.
    unfold consistent_with in Hcons. rewrite Forall_forall in Hcons.
    split; [|split; [exact (Hcons _ Hin)|done]].
    rewrite Forall_forall in Hg. apply Hg. by apply elem_of_zip_l in Hin. }
  assert (Hmark : ∀ sym i c, flagged (zip guesses feedbacks) sym i c →
            ∃ g, chars g !! i = Some c
                 ∧ (sym = "2"%char ↔ chars g !! i = chars answer !! i)
                 ∧ (sym = "1"%char → ∃ j, chars answer !! j = chars g !! i)).
  { intros sym i c Hflag. destruct (Hrow sym i c Hflag) as (g & p & Hgw & Hfb & Hc & Hs).
    destruct (get_feedback_marks g answer Hgw Ha) as (p' & Hp' & _ & Hpos).
    rewrite Hfb in Hp'. injection Hp' as <-.
    destruct (Hpos i sym Hs) as (_ & H2 & H1). exists g. split; [done|]. split; [done|].
    intros Hsym. destruct (H1 Hsym) as (j & Hj & _). by exists j. }
  split; [|split].
  - intros i c Hpin%pinned_flagged. destruct (Hmark _ _ _ Hpin) as (g & Hc & H2 & _).
    rewrite <-(proj1 H2 eq_refl). done.
  - intros i c Hflag. destruct (Hmark _ _ _ Hflag) as (g & Hc & _ & H1).
    destruct (H1 eq_refl) as (j & Hj). rewrite Hc in Hj.
    by apply list_elem_of_lookup_2 in Hj.
  - intros i c Hflag Hat. destruct (Hmark _ _ _ Hflag) as (g & Hc & H2 & _).
    assert ("1"%char = "2"%char) as Habs; [|discriminate Habs].
    apply H2. by rewrite Hc, Hat.
Qed.

(** X18: when every feedback of the history is the one [get_feedback] gives for
    its guess against the answer, [enforce_hard_mode_constraints] accepts the
    answer. *)
Theorem enforce_accepts_answer guesses feedbacks answer :
  Forall is_word guesses → is_word answer →
  Forall2 (λ g fb, get_feedback g answer = Ok fb) guesses feedbacks →
  enforce_hard_mode_constraints guesses feedbacks answer = Ok true.
Proof. apply answer_is_legal. Qed.

Lemma enforce_accepts_answer_witness :
  enforce_hard_mode_constraints ["slate"; "crane"] ["00202"; "12202"] "grace" = Ok true.
Proof.
  apply (enforce_accepts_answer ["slate"; "crane"] ["00202"; "12202"] "grace");
    [compute_done..|repeat constructor].
Defined.

(** ** Histories of one secret, and the hard-mode checker *)

(** a history of feedbacks against one secret flags a position EXACT only
    with the letter the secret has there *)
Lemma one_secret_pins guesses feedbacks secret i c :
  Forall is_word guesses → is_word secret →
  Forall2 (λ g fb, get_feedback g secret = Ok fb) guesses feedbacks →
  flagged (zip guesses feedbacks) "2" i c → chars secret !! i = Some c.
Proof.
  intros Hg Hs Htrue ([g fb] & Hin & Hc & Hf). cbn [fst snd] in *.
  pose proof (true_feedbacks_consistent _ _ _ Htrue) as Hcons.
  unfold consistent_with in Hcons. rewrite Forall_forall in Hcons.
  specialize (Hcons _ Hin). unfold matches in Hcons. cbn [fst snd] in Hcons.
  destruct (get_feedback_marks g secret) as (p & Hp & _ & Hpos); [|done|].
  { rewrite Forall_forall in Hg. apply Hg. by apply elem_of_zip_l in Hin. }
  rewrite Hcons in Hp. injection Hp as <-.
  destruct (Hpos i _ Hf) as (_ & H2 & _). by rewrite <-(proj1 H2 eq_refl).
Qed.

(** so it pins no position to two different letters *)
Lemma one_secret_pins_agree guesses feedbacks secret :
  Forall is_word guesses → is_word secret →
  Forall2 (λ g fb, get_feedback g secret = Ok fb) guesses feedbacks →
  ∀ i c c', flagged (zip guesses feedbacks) "2" i c →
            flagged (zip guesses feedbacks) "2" i c' → c = c'.
Proof.
  intros Hg Hs Htrue i c c' H1 H2.
  pose proof (one_secret_pins _ _ _ _ _ Hg Hs Htrue H1) as E1.
  pose proof (one_secret_pins _ _ _ _ _ Hg Hs Htrue H2) as E2. congruence.
Qed.

(** C5: for 5-letter words and a history in which each position flagged
    EXACT has one pinned letter (no position is flagged EXACT with two
    different letters; every history of feedbacks against one secret is
    such), [enforce_hard_mode_constraints] returns True exactly when (a)
    every position pinned by a prior EXACT feedback holds that pinned
    letter in the guess, (b) every letter flagged MISPLACED in a prior guess
    appears somewhere in the guess and (c) no letter of the guess sits at a
    position where it was flagged MISPLACED; after [("CRATE", "02000")]
    every guess without 'R' at position 1 is rejected; and a guess with a
    MISPLACED-flagged letter back at its flagged position is rejected
    wherever else the letter appears. *)
Theorem enforce_hard_mode_constraints_legal guesses feedbacks guess :
  Forall is_word guesses → is_word guess →
  let hist := zip guesses feedbacks in
  (∀ i c c', flagged hist "2" i c → flagged hist "2" i c' → c = c') →
  (∃ b, enforce_hard_mode_constraints guesses feedbacks guess = Ok b
        ∧ (b = true ↔
           pins_held hist guess
           ∧ misplaced_present hist guess
           ∧ misplaced_moved hist guess))
  ∧ (guesses = ["CRATE"] → feedbacks = ["02000"] →
     chars guess !! 1 ≠ Some "R"%char →
     enforce_hard_mode_constraints guesses feedbacks guess = Ok false)
  ∧ (∀ i c, flagged hist "1" i c → chars guess !! i = Some c →
     enforce_hard_mode_constraints guesses feedbacks guess = Ok false).
Proof.
  intros Hws Hw hist Hone.
  destruct (enforce_latest guesses feedbacks guess Hws Hw) as (b & Hrun & Hb).
  fold hist in Hb. rewrite (pins_held_latest hist guess Hone) in Hb.
  split; [by exists b|]. split.
  - intros -> -> HR. rewrite Hrun. f_equal. destruct b; [|done].
    destruct (proj1 Hb eq_refl) as [Hpins _]. exfalso. apply HR.
    apply (Hpins 1 "R"%char). exists ("CRATE", "02000").
    split; [apply list_elem_of_here|]. by split.
  - intros i c Hflag Hat. rewrite Hrun. f_equal. destruct b; [|done].
    destruct (proj1 Hb eq_refl) as (_ & _ & Hmoved). exfalso.
    by apply (Hmoved i c).
Qed.

Lemma enforce_hard_mode_constraints_legal_witness :
  let hist := zip ["SLATE"; "CRANE"] ["00202"; "12202"] in
  (∃ b, enforce_hard_mode_constraints ["SLATE"; "CRANE"] ["00202"; "12202"] "GRACE" = Ok b
        ∧ (b = true ↔
           pins_held hist "GRACE"
           ∧ misplaced_present hist "GRACE"
           ∧ misplaced_moved hist "GRACE"))
  ∧ (["SLATE"; "CRANE"] = ["CRATE"] → ["00202"; "12202"] = ["02000"] →
     chars "GRACE" !! 1 ≠ Some "R"%char →
     enforce_hard_mode_constraints ["SLATE"; "CRANE"] ["00202"; "12202"] "GRACE" = Ok false)
  ∧ (∀ i c, flagged hist "1" i c → chars "GRACE" !! i = Some c →
     enforce_hard_mode_constraints ["SLATE"; "CRANE"] ["00202"; "12202"] "GRACE" = Ok false).
Proof.
  apply (enforce_hard_mode_constraints_legal ["SLATE"; "CRANE"] ["00202"; "12202"] "GRACE");
    [compute_done|compute_done|].
  apply (one_secret_pins_agree ["SLATE"; "CRANE"] ["00202"; "12202"] "GRACE");
    [compute_done|compute_done|repeat constructor].
Defined.

(** the checker after SLATE and CRANE against the secret GRACE: 'R', 'A'
    and 'E' are pinned at 1, 2 and 4, and 'C' is flagged MISPLACED at 0 *)
Example enforce_after_slate_crane :
  enforce_hard_mode_constraints ["SLATE"; "CRANE"] ["00202"; "12202"] "GRACE" = Ok true
  ∧ enforce_hard_mode_constraints ["SLATE"; "CRANE"] ["00202"; "12202"] "TRACE" = Ok true
  ∧ enforce_hard_mode_constraints ["SLATE"; "CRANE"] ["00202"; "12202"] "CRAZE" = Ok false
  ∧ enforce_hard_mode_constraints ["SLATE"; "CRANE"] ["00202"; "12202"] "BRAVE" = Ok false
  ∧ enforce_hard_mode_constraints ["SLATE"; "CRANE"] ["00202"; "12202"] "CHASE" = Ok false.
Proof. repeat split; vm_compute; reflexivity. Qed.

(** outside such histories: when position 1 is flagged EXACT with 'R' and
    later with 'L', which no secret's feedbacks do, [green_positions] keeps
    the later letter *)
Example enforce_later_exact_flag :
  enforce_hard_mode_constraints ["CRATE"; "BLAST"] ["02000"; "02000"] "FLOUR" = Ok true
  ∧ enforce_hard_mode_constraints ["CRATE"; "BLAST"] ["02000"; "02000"] "FROWN" = Ok false.
Proof. repeat split; vm_compute; reflexivity. Qed.

Section HardSelector.
Context {R : Runtime} {L : RuntimeLaws R}.

Lemma legal_filter guesses feedbacks l :
  Forall is_word guesses → Forall is_word l →
  filter_comp (enforce_hard_mode_constraints guesses feedbacks) l
  = Ok (filter (λ w, enforce_hard_mode_constraints guesses feedbacks w = Ok true) l).
Proof.
  intros Hg Hl. apply filter_comp_spec. intros w Hw.
  rewrite Forall_forall in Hl.
  destruct (enforce_latest guesses feedbacks w Hg (Hl w Hw)) as (b & -> & _).
  f_equal. destruct b; [by rewrite bool_decide_true|by rewrite bool_decide_false].
Qed.

Lemma hard_mode_legal E st possible allowed guesses feedbacks :
  Forall is_word guesses → Forall is_word possible → Forall is_word allowed →
  Exists (λ w, enforce_hard_mode_constraints guesses feedbacks w = Ok true) allowed →
  Exists (λ w, enforce_hard_mode_constraints guesses feedbacks w = Ok true) possible →
  ∃ w st',
    minimax_entropy_hard_mode E st possible allowed guesses feedbacks = Ok (w, st')
    ∧ enforce_hard_mode_constraints guesses feedbacks w = Ok true
    ∧ (w ∈ allowed ∨ w ∈ possible).
Proof.
  intros Hg Hp Ha Hea Hep.
  set (legal := λ w, enforce_hard_mode_constraints guesses feedbacks w = Ok true).
  assert (Hne : ∀ l, Exists legal l → filter legal l ≠ []).
  { intros l (w & Hw & Hlegal)%Exists_exists Hnil.
    assert (w ∈ filter legal l) as Hin by (by apply list_elem_of_filter).
    rewrite Hnil in Hin. by apply not_elem_of_nil in Hin. }
  destruct (minimax_entropy_word E st (filter legal possible) (filter legal allowed))
    as (w & st' & Hrun & Hw).
  { by apply Forall_is_word_filter. }
  { by apply Forall_is_word_filter. }
  { by apply Hne. }
  exists w, st'. split; [|split].
  - unfold minimax_entropy_hard_mode. rewrite !legal_filter by done.
    cbn [mbind result_bind]. fold legal.
    rewrite !decide_False by by apply Hne. done.
  - destruct Hw as [Hw|Hw]; by apply list_elem_of_filter in Hw as [? _].
  - destruct Hw as [Hw|Hw]; apply list_elem_of_filter in Hw as [_ ?]; auto.
Qed.

(** X19: when some allowed guess and some candidate pass
    [enforce_hard_mode_constraints], [minimax_entropy_hard_mode] returns a
    word of the two lists that passes it. *)
Theorem minimax_entropy_hard_mode_legal E st possible allowed guesses feedbacks :
  Forall is_word guesses → Forall is_word possible → Forall is_word allowed →
  Exists (λ w, enforce_hard_mode_constraints guesses feedbacks w = Ok true) allowed →
  Exists (λ w, enforce_hard_mode_constraints guesses feedbacks w = Ok true) possible →
  ∃ w st',
    minimax_entropy_hard_mode E st possible allowed guesses feedbacks = Ok (w, st')
    ∧ enforce_hard_mode_constraints guesses feedbacks w = Ok true
    ∧ (w ∈ allowed ∨ w ∈ possible).
Proof. apply hard_mode_legal. Qed.
End HardSelector.

Lemma minimax_entropy_hard_mode_legal_witness :
  ∃ w st',
    minimax_entropy_hard_mode (R:=exact_runtime) no_first_guess sample_state
      sample_answers ["slate"; "adieu"; "brace"] ["slate"] ["00202"] = Ok (w, st')
    ∧ enforce_hard_mode_constraints ["slate"] ["00202"] w = Ok true
    ∧ (w ∈ ["slate"; "adieu"; "brace"] ∨ w ∈ sample_answers).
Proof.
  apply (@minimax_entropy_hard_mode_legal exact_runtime exact_runtime_laws
           no_first_guess sample_state sample_answers ["slate"; "adieu"; "brace"]
           ["slate"] ["00202"]); compute_done.
Defined.

(** ** Word lists and input validation *)

Lemma lstrip_length l : length (lstrip l) ≤ length l.
Proof. induction l as [|c l IH]; cbn; [lia|]. destruct (isspace c); cbn; lia. Qed.

Lemma rstrip_length l : length (rstrip l) ≤ length l.
Proof.
  induction l as [|c l IH]; cbn; [lia|].
  destruct (rstrip l); [destruct (isspace c)|]; cbn in *; lia.
Qed.

Lemma rstrip_rstrip l : rstrip (rstrip l) = rstrip l.
Proof.
  induction l as [|c l IH]; [done|]. cbn [rstrip].
  destruct (rstrip l) as [|k kept] eqn:Hk.
  - destruct (isspace c) eqn:Hc; [done|]. cbn. by rewrite Hc.
  - cbn [rstrip]. cbn [rstrip] in IH. by rewrite IH.
Qed.

Lemma rstrip_head c l : isspace c = false → rstrip (c :: l) = c :: rstrip l.
Proof. intros Hc. cbn. rewrite Hc. by destruct (rstrip l). Qed.

Lemma lstrip_head l : lstrip l = [] ∨ ∃ c l', lstrip l = c :: l' ∧ isspace c = false.
Proof.
  induction l as [|c l IH]; [by left|]. cbn. destruct (isspace c) eqn:Hc; [done|].
  right. by exists c, l.
Qed.

Lemma strip_chars s : chars (strip s) = rstrip (lstrip (chars s)).
Proof. unfold strip. apply chars_join. Qed.

Lemma strip_strip s : strip (strip s) = strip s.
Proof.
  apply chars_inj. rewrite !strip_chars.
  destruct (lstrip_head (chars s)) as [->|(c & l' & -> & Hc)]; [done|].
  rewrite rstrip_head by done. cbn [lstrip]. rewrite Hc.
  by rewrite <-(rstrip_head c l'), rstrip_rstrip by done.
Qed.

Lemma chars_append s t : chars (s +:+ t) = chars s ++ chars t.
Proof. unfold chars. induction s as [|c s IH]; [done|]. cbn. by rewrite <-IH. Qed.

Lemma rstrip_newline l : rstrip (l ++ chars newline) = rstrip l.
Proof. induction l as [|c l IH]; [done|]. cbn [app rstrip]. by rewrite IH. Qed.

Lemma clean_head s c l :
  strip s = s → chars s = c :: l → isspace c = false.
Proof.
  intros Hclean Hs. apply (f_equal chars) in Hclean. rewrite strip_chars, Hs in Hclean.
  destruct (isspace c) eqn:Hc; [|done]. exfalso. cbn [lstrip] in Hclean. rewrite Hc in Hclean.
  apply (f_equal length) in Hclean. cbn [length] in Hclean.
  pose proof (rstrip_length (lstrip l)). pose proof (lstrip_length l). lia.
Qed.

Lemma strip_line w : w ≠ "" → strip w = w → strip (w +:+ newline) = w.
Proof.
  intros Hne Hclean. apply chars_inj. rewrite strip_chars.
  rewrite chars_append.
  destruct (chars w) as [|c l] eqn:Hw.
  { exfalso. apply Hne, chars_inj. by rewrite Hw. }
  pose proof (clean_head w c l Hclean Hw) as Hc.
  cbn [app lstrip]. rewrite Hc.
  change (c :: l ++ chars newline) with ((c :: l) ++ chars newline).
  rewrite rstrip_newline.
  apply (f_equal chars) in Hclean. rewrite strip_chars, Hw in Hclean.
  cbn [lstrip] in Hclean. by rewrite Hc in Hclean.
Qed.

Lemma read_word_list_clean lines :
  Forall (λ w, w ≠ "" ∧ strip w = w) (read_word_list lines).
Proof.
  unfold read_word_list. apply Forall_fmap, Forall_forall.
  intros line [Hne _]%list_elem_of_filter. cbn. split; [done|apply strip_strip].
Qed.

Lemma read_word_list_lines words :
  Forall (λ w, w ≠ "" ∧ strip w = w) words →
  read_word_list ((λ w, w +:+ newline) <$> words) = words.
Proof.
  induction 1 as [|w words [Hne Hclean] _ IH]; [done|].
  unfold read_word_list in *. cbn [fmap list_fmap]. rewrite filter_cons.
  rewrite decide_True by (by rewrite strip_line). cbn [fmap list_fmap].
  rewrite strip_line by done. f_equal. apply IH.
Qed.

(** X20: [read_word_list] gives back a list of non-empty words without
    surrounding whitespace when each is written on a line of its own; every
    word it returns is non-empty and stripped; and the words come in the order
    of their lines. *)
Theorem read_word_list_round_trip lines words :
  Forall (λ w, w ≠ "" ∧ strip w = w) words →
  read_word_list ((λ w, w +:+ newline) <$> words) = words
  ∧ Forall (λ w, w ≠ "" ∧ strip w = w) (read_word_list lines)
  ∧ read_word_list lines `sublist_of` (strip <$> lines).
Proof.
  intros Hwords. split; [by apply read_word_list_lines|].
  split; [apply read_word_list_clean|].
  unfold read_word_list. apply fmap_sublist, sublist_filter.
Qed.

Lemma read_word_list_round_trip_witness :
  read_word_list ((λ w, w +:+ newline) <$> ["crane"; "slate"]) = ["crane"; "slate"]
  ∧ Forall (λ w, w ≠ "" ∧ strip w = w) (read_word_list [" crane "; "  "; "slate"])
  ∧ read_word_list [" crane "; "  "; "slate"] `sublist_of` (strip <$> [" crane "; "  "; "slate"]).
Proof.
  apply (read_word_list_round_trip [" crane "; "  "; "slate"] ["crane"; "slate"]).
  compute_done.
Defined.

Lemma lower_char_idem c : lower_char (lower_char c) = lower_char c.
Proof. by destruct c as [[] [] [] [] [] [] [] []]. Qed.

Lemma lower_lower s : lower (lower s) = lower s.
Proof.
  unfold lower. rewrite chars_join, <-list_fmap_compose. f_equal.
  apply list_fmap_ext. intros _ c _. apply lower_char_idem.
Qed.

Lemma len_lower s : len (lower s) = len s.
Proof. unfold lower. by rewrite !len_chars, chars_join, length_fmap. Qed.

(** X21: [validate_guess] gives the same answer for a guess and for its
    lower-case form, and a guess it accepts has five characters and its
    lower-case form is in one of the two lists. *)
Theorem validate_guess_lower allowed possible guess :
  Helper.validate_guess allowed possible (lower guess)
  = Helper.validate_guess allowed possible guess
  ∧ (Helper.validate_guess allowed possible guess = true →
     is_word guess ∧ (lower guess ∈ allowed ∨ lower guess ∈ possible)).
Proof.
  unfold Helper.validate_guess. split.
  { destruct (decide (len (lower guess) ≠ 5)) as [H1|H1];
      destruct (decide (len guess ≠ 5)) as [H2|H2]; rewrite len_lower in H1;
      [done|done|done|by rewrite lower_lower]. }
  case_decide as Hlen; [done|]. intros [H|H]%orb_true_iff; apply bool_decide_eq_true in H.
  - split; [unfold is_word; lia|by left].
  - split; [unfold is_word; lia|by right].
Qed.

(** X22: with a list of 5-letter possible answers, the filter of [helper.py]
    raises on no history whose guesses [validate_guess] accepts, whatever the
    feedback strings and the cache are; it returns some of the possible
    answers, in their order. *)
Theorem validated_history_filters allowed possible P guesses feedbacks :
  Forall is_word possible →
  Forall (λ g, Helper.validate_guess allowed possible g = true) guesses →
  ∃ out, Helper.filter_possible_answers possible P guesses feedbacks = Ok out
         ∧ out `sublist_of` possible.
Proof.
  intros Hp Hv. eexists. split.
  - apply helper_filter_survives; [done|].
    eapply Forall_impl; [exact Hv|]. intros g Hg. cbn in Hg.
    unfold Helper.validate_guess in Hg. case_decide as Hlen; [done|].
    unfold is_word. lia.
  - apply sublist_filter.
Qed.

Lemma validated_history_filters_witness :
  ∃ out, Helper.filter_possible_answers sample_answers sample_cache ["slate"] ["00202"] = Ok out
         ∧ out `sublist_of` sample_answers.
Proof.
  apply (validated_history_filters sample_allowed sample_answers sample_cache
           ["slate"] ["00202"]); compute_done.
Defined.

(** ** The game loops *)

Lemma sound_grows allowed possible st st' :
  grows st st' → sound allowed possible st → sound allowed possible st'.
Proof.
  intros (Hext & Hnew & _) Hs w g Hw Hg. specialize (Hs w g Hw Hg).
  unfold entry_agrees in *.
  destruct (cached (precomputed_patterns st') w g) as [p|] eqn:Hc'; [|done].
  destruct (cached (precomputed_patterns st) w g) as [p0|] eqn:Hc.
  - apply Hext in Hc. congruence.
  - by apply Hnew.
Qed.

Lemma sound_Forall allowed possible st :
  Forall (λ w, Forall (λ g, entry_agrees (precomputed_patterns st) w g)
                 (allowed ++ possible)) possible →
  sound allowed possible st.
Proof.
  intros H w g Hw Hg. rewrite Forall_forall in H. specialize (H w Hw).
  rewrite Forall_forall in H. apply H. by apply elem_of_app.
Qed.

Lemma survives_sound_on P hist w :
  (∀ gf, gf ∈ hist → entry_agrees P w gf.1) →
  survives P hist w ↔ consistent_with hist w.
Proof.
  intros Hsound. unfold survives, consistent_with. rewrite !Forall_forall.
  split; intros H gf Hgf; specialize (H gf Hgf);
    by apply (entry_agrees_keeps P w gf); [apply Hsound|].
Qed.

Lemma Forall2_snoc {A B} (P : A → B → Prop) l k x y :
  Forall2 P l k → P x y → Forall2 P (l ++ [x]) (k ++ [y]).
Proof. intros. apply Forall2_app; [done|]. by apply Forall2_cons. Qed.

Section Play.
Context {R : Runtime} {L : RuntimeLaws R}.
Variables (E : env) (allowed possible_answers : list string) (answer : string).
Variable inputs : nat → string.
Hypothesis Ha : Forall is_word allowed.
Hypothesis Hp : Forall is_word possible_answers.
Hypothesis Hin : answer ∈ possible_answers.
Hypothesis Hfast : first_guess E [answer] allowed = None.

Lemma answer_word : is_word answer.
Proof using Hp Hin. rewrite Forall_forall in Hp. by apply Hp. Qed.

Lemma listed_word g : g ∈ allowed ∨ g ∈ possible_answers → is_word g.
Proof using Ha Hp. rewrite Forall_forall in Ha, Hp. intros [?|?]; auto. Qed.

Lemma play_attempts_simulated attempts : ∀ possible guesses feedbacks st cursor,
  answer ∈ possible → (∀ w, w ∈ possible → w ∈ possible_answers) →
  sound allowed possible_answers st →
  Forall (λ g, g ∈ allowed ∨ g ∈ possible_answers) guesses →
  Forall2 (λ g fb, get_feedback g answer = Ok fb) guesses feedbacks →
  ∃ o st',
    play_attempts (minimax_entropy E) (Some answer) inputs allowed possible_answers
      attempts guesses feedbacks possible st cursor = Ok (o, st', cursor)
    ∧ sound allowed possible_answers st'
    ∧ (o = Failed ∨ ∃ n, n ∈ attempts ∧ o = Solved n answer).
Proof using All.
  induction attempts as [|attempt rest IH];
    intros possible guesses feedbacks st cursor Hans Hsub Hsound Hlisted Htrue.
  { exists Failed, st. split; [done|]. split; [done|by left]. }
  assert (Hpw : Forall is_word possible).
  { apply Forall_forall. intros w Hw. apply listed_word. right. by apply Hsub. }
  destruct (minimax_entropy_word E st possible allowed Hpw Ha) as (guess & st1 & Hrun & Hg).
  { intros ->. by apply not_elem_of_nil in Hans. }
  pose proof (minimax_entropy_grows _ _ _ _ _ _ Hrun) as [Hgrow _].
  pose proof (sound_grows _ _ _ _ Hgrow Hsound) as Hsound1.
  assert (Hg' : guess ∈ allowed ∨ guess ∈ possible_answers).
  { destruct Hg as [?|?]; [by left|right; by apply Hsub]. }
  assert (Hlisted' : Forall (λ g, g ∈ allowed ∨ g ∈ possible_answers) (guesses ++ [guess])).
  { apply Forall_app. split; [done|]. by apply Forall_singleton. }
  assert (Hgw : Forall is_word (guesses ++ [guess])).
  { eapply Forall_impl; [exact Hlisted'|]. apply listed_word. }
  cbn [play_attempts]. rewrite Hrun. cbn [mbind result_bind].
  destruct (decide (length possible = 1)) as [Hone|Hmany].
  - assert (possible = [answer]) as ->.
    { destruct possible as [|w [|??]]; try done.
      by apply list_elem_of_singleton in Hans as ->. }
    rewrite (proj2 (minimax_entropy_small E st [answer] allowed Hfast) answer eq_refl) in Hrun.
    injection Hrun as <- <-. cbn [mbind result_bind].
    destruct (solver_filter_survives possible_answers st (guesses ++ [answer])
                (feedbacks ++ ["22222"]) Hp Hgw) as (st2 & Hfilter & _).
    rewrite Hfilter. cbn [mbind result_bind]. rewrite decide_True by done.
    eexists _, st2. split; [done|]. split.
    + apply (sound_grows _ _ st); [|done]. by eapply solver_filter_grows.
    + right. exists attempt. split; [apply list_elem_of_here|done].
  - unfold read_feedback. rewrite decide_True.
    2:{ intros Hempty. pose proof answer_word as Hw. by rewrite Hempty in Hw. }
    destruct (get_feedback_total guess answer (listed_word _ Hg') answer_word) as [fb Hfb].
    rewrite Hfb. cbn [mbind result_bind].
    destruct (solver_filter_survives possible_answers st1 (guesses ++ [guess])
                (feedbacks ++ [fb]) Hp Hgw) as (st2 & Hfilter & _).
    rewrite Hfilter. cbn [mbind result_bind].
    assert (Hsound2 : sound allowed possible_answers st2).
    { apply (sound_grows _ _ st1); [|done]. by eapply solver_filter_grows. }
    destruct (decide (fb = "22222")) as [->|Hnot].
    + apply get_feedback_won in Hfb as ->; [|by apply listed_word|apply answer_word].
      eexists _, st2. split; [done|]. split; [done|].
      right. exists attempt. split; [apply list_elem_of_here|done].
    + assert (Htrue' : Forall2 (λ g fb, get_feedback g answer = Ok fb)
                         (guesses ++ [guess]) (feedbacks ++ [fb])).
      { by apply Forall2_snoc. }
      destruct (IH (filter (survives (precomputed_patterns st1)
                              (zip (guesses ++ [guess]) (feedbacks ++ [fb])))
                      possible_answers)
                  (guesses ++ [guess]) (feedbacks ++ [fb]) st2 cursor)
        as (o & st' & Hrest & Hsound' & Ho); [| |done..|].
      * apply list_elem_of_filter. split; [|done].
        apply survives_sound_on; [|by apply true_feedbacks_consistent].
        intros [g f] Hgf. cbn [fst]. apply Hsound1; [done|].
        apply elem_of_zip_l in Hgf. rewrite Forall_forall in Hlisted'. by apply Hlisted'.
      * by intros w [_ ?]%list_elem_of_filter.
      * exists o, st'. split; [done|]. split; [done|].
        destruct Ho as [->|(n & Hn & ->)]; [by left|].
        right. exists n. split; [by apply list_elem_of_further|done].
Qed.

Lemma play_wordle_simulated fuel disk_ok : ∀ st file cursor,
  sound allowed possible_answers st →
  play_wordle fuel (minimax_entropy E) (Some answer) inputs disk_ok
    allowed possible_answers st file cursor = None.
Proof using All.
  induction fuel as [|fuel IH]; intros st file cursor Hsound; [done|].
  cbn [play_wordle].
  destruct (play_attempts_simulated (range_from 1 7) possible_answers [] [] st cursor)
    as (o & st' & Hrun & Hsound' & Ho); [done|done|done|done|done|].
  rewrite Hrun.
  assert (Hnext : ∀ st'' file', persist disk_ok st' file = (st'', file') →
            sound allowed possible_answers st'').
  { unfold persist. intros st'' file'. destruct (cache_dirty st'), disk_ok;
      intros [= <- <-]; done. }
  destruct (persist disk_ok st' file) as [st'' file'] eqn:Hpersist.
  specialize (Hnext _ _ eq_refl).
  destruct Ho as [->|(n & _ & ->)]; by apply IH.
Qed.
End Play.

Section PlayTheorems.
Context {R : Runtime} {L : RuntimeLaws R}.

(** X23: one game of [play_wordle] with [minimax_entropy] on word lists, for an
    answer of the possible answers, with a cache that agrees with the encoder
    and no precomputed first guess applying to the answer as the only
    candidate, raises nothing and reads no input; it ends either with the
    failure message or with the message that the puzzle is solved, within six
    attempts, naming the answer. *)
Theorem play_attempts_announces_answer E allowed possible_answers answer inputs st cursor :
  Forall is_word allowed → Forall is_word possible_answers →
  answer ∈ possible_answers →
  first_guess E [answer] allowed = None →
  Forall (λ w, Forall (λ g, entry_agrees (precomputed_patterns st) w g)
                 (allowed ++ possible_answers)) possible_answers →
  ∃ o st',
    play_attempts (minimax_entropy E) (Some answer) inputs allowed possible_answers
      (range_from 1 7) [] [] possible_answers st cursor = Ok (o, st', cursor)
    ∧ (o = Failed ∨ ∃ n, 1 ≤ n ≤ 6 ∧ o = Solved n answer).
Proof.
  intros Ha Hp Hin Hfast Hsound.
  destruct (play_attempts_simulated E allowed possible_answers answer inputs Ha Hp Hin Hfast
              (range_from 1 7) possible_answers [] [] st cursor)
    as (o & st' & Hrun & _ & Ho); [done|done|by apply sound_Forall|done|done|].
  exists o, st'. split; [done|]. destruct Ho as [->|(n & Hn & ->)]; [by left|].
  right. exists n. split; [|done]. unfold range_from in Hn. apply elem_of_seq in Hn. lia.
Qed.

(** X24: called with [minimax_entropy] and an answer of the possible answers,
    under the conditions of the previous theorem, [play_wordle] does not
    return: however many games are allowed, the loop is still running, and
    nothing was raised. *)
Theorem play_wordle_never_returns fuel E allowed possible_answers answer inputs disk_ok
    st file cursor :
  Forall is_word allowed → Forall is_word possible_answers →
  answer ∈ possible_answers →
  first_guess E [answer] allowed = None →
  Forall (λ w, Forall (λ g, entry_agrees (precomputed_patterns st) w g)
                 (allowed ++ possible_answers)) possible_answers →
  play_wordle fuel (minimax_entropy E) (Some answer) inputs disk_ok
    allowed possible_answers st file cursor = None.
Proof.
  intros Ha Hp Hin Hfast Hsound.
  apply play_wordle_simulated; [done..|by apply sound_Forall].
Qed.

Lemma unpack_pair_word w : is_word w → unpack_pair w = Raise ValueError.
Proof.
  unfold is_word. rewrite len_chars. intros Hw. unfold unpack_pair.
  by destruct (chars w) as [|a [|b [|c l]]].
Qed.

(** X25: on word lists [play_wordle_hard_mode] raises [ValueError] in the first
    attempt of its first game, with or without a cache file: the word that
    [minimax_entropy_hard_mode] returns, or the [ValueError] it raises on an
    empty list, never unpacks into [guess, score]. *)
Theorem play_wordle_hard_mode_raises fuel E answer inputs cache_file
    allowed possible_answers st cursor :
  Forall is_word allowed → Forall is_word possible_answers →
  play_wordle_hard_mode (S fuel) E answer inputs cache_file allowed possible_answers
    st cursor = Some (Raise ValueError).
Proof.
  intros Ha Hp. unfold play_wordle_hard_mode.
  assert (∃ st0, precompute_feedback_patterns cache_file allowed possible_answers st = Ok st0)
    as [st0 ->].
  { destruct cache_file as [loaded|]; [by eexists|].
    destruct (precompute_runs allowed possible_answers st Ha Hp) as (st0 & Hrun & _).
    by exists st0. }
  cbn [hard_mode_games]. unfold range_from. cbn [Nat.sub seq play_attempts_hard_mode].
  rewrite minimax_entropy_hard_mode_first.
  destruct (minimax_entropy_returns E st0 possible_answers allowed Hp Ha)
    as [Hraise|(w & st' & Hrun & Hw)].
  - by rewrite Hraise.
  - rewrite Hrun. cbn [mbind result_bind]. by rewrite unpack_pair_word.
Qed.

Lemma simulate_rounds_counts answer strategy_func allowed attempts :
  is_word answer →
  (∀ st possible, answer ∈ possible → Forall is_word possible →
     ∃ g s st', strategy_func st possible allowed = Ok (Pair g s, st') ∧ is_word g) →
  ∀ possible st, answer ∈ possible → Forall is_word possible →
  ∃ n, simulate_rounds answer strategy_func allowed attempts possible st = Ok n
       ∧ (n ∈ attempts ∨ n = 7).
Proof.
  intros Haw Hstrat. induction attempts as [|attempt rest IH]; intros possible st Hin Hpw.
  { exists 7. split; [done|by right]. }
  destruct (Hstrat st possible Hin Hpw) as (g & s & st' & Hrun & Hgw).
  cbn [simulate_rounds]. rewrite Hrun. cbn [mbind result_bind unpack_guess].
  destruct (decide (g = answer)) as [->|Hne].
  { exists attempt. split; [done|]. left. apply list_elem_of_here. }
  destruct (get_feedback_total g answer Hgw Haw) as [fb Hfb].
  rewrite Hfb. cbn [mbind result_bind].
  rewrite (filter_comp_spec _ (matches (g, fb))).
  2:{ intros w Hw. apply test_feedback_spec, get_feedback_total; [done|].
      rewrite Forall_forall in Hpw. by apply Hpw. }
  cbn [mbind result_bind].
  destruct (IH (filter (matches (g, fb)) possible) st') as (n & Hn & Hrange).
  { apply list_elem_of_filter. by split. }
  { by apply Forall_is_word_filter. }
  exists n. split; [done|]. destruct Hrange as [?|?]; [left; by apply list_elem_of_further|by right].
Qed.

(** X26: with a strategy that, as long as the answer is among the candidates,
    returns a pair of a 5-letter guess and a score, [simulate_game] returns a
    number from 1 to 7 for every answer of the possible answers. *)
Theorem simulate_game_counts answer strategy_func allowed possible_answers st :
  Forall is_word possible_answers → answer ∈ possible_answers →
  (∀ st possible, answer ∈ possible → Forall is_word possible →
     ∃ g s st', strategy_func st possible allowed = Ok (Pair g s, st') ∧ is_word g) →
  ∃ n, simulate_game answer strategy_func allowed possible_answers st = Ok n
       ∧ 1 ≤ n ≤ 7.
Proof.
  intros Hp Hin Hstrat.
  destruct (simulate_rounds_counts answer strategy_func allowed (range_from 1 7))
    with (possible := possible_answers) (st := st) as (n & Hn & Hrange); [|done..|].
  { rewrite Forall_forall in Hp. by apply Hp. }
  exists n. split; [done|]. destruct Hrange as [Hr| ->]; [|lia].
  unfold range_from in Hr. apply elem_of_seq in Hr. lia.
Qed.
End PlayTheorems.

Lemma play_attempts_announces_answer_witness :
  ∃ o st',
    play_attempts (minimax_entropy (R:=exact_runtime) no_first_guess) (Some "grace")
      (λ _, "") sample_allowed sample_answers
      (range_from 1 7) [] [] sample_answers sample_state 0 = Ok (o, st', 0)
    ∧ (o = Failed ∨ ∃ n, 1 ≤ n ≤ 6 ∧ o = Solved n "grace").
Proof.
  apply (@play_attempts_announces_answer exact_runtime exact_runtime_laws
           no_first_guess sample_allowed sample_answers "grace" (λ _, "") sample_state 0);
    compute_done.
Defined.

Lemma play_wordle_never_returns_witness :
  play_wordle 3 (minimax_entropy (R:=exact_runtime) no_first_guess) (Some "grace")
    (λ _, "") true sample_allowed sample_answers sample_state None 0 = None.
Proof.
  apply (@play_wordle_never_returns exact_runtime exact_runtime_laws
           3 no_first_guess sample_allowed sample_answers "grace" (λ _, "") true
           sample_state None 0); compute_done.
Defined.

Lemma play_wordle_hard_mode_raises_witness :
  play_wordle_hard_mode (R:=exact_runtime) 1 no_first_guess (Some "grace") (λ _, "") None
    sample_allowed sample_answers empty_state 0 = Some (Raise ValueError).
Proof.
  apply (@play_wordle_hard_mode_raises exact_runtime exact_runtime_laws
           0 no_first_guess (Some "grace") (λ _, "") None
           sample_allowed sample_answers empty_state 0); compute_done.
Defined.

Lemma simulate_game_counts_witness :
  ∃ n, simulate_game (R:=exact_runtime) "grace"
         (λ st _ _, Ok (@Pair exact_runtime "crane" 0%Q, st)) sample_allowed sample_answers empty_state
       = Ok n
       ∧ 1 ≤ n ≤ 7.
Proof.
  apply (@simulate_game_counts exact_runtime "grace"
           (λ st _ _, Ok (@Pair exact_runtime "crane" 0%Q, st)) sample_allowed sample_answers empty_state);
    [compute_done|compute_done|].
  intros st possible _ _. by exists "crane", 0%Q, st.
Defined.

Section Quit.
Context {R : Runtime} {L : RuntimeLaws R}.

(** X27: without an answer (or with the empty string as answer), on word lists
    with more than one possible answer, [play_wordle] returns in its first
    game when the first line typed is quit or exit, in any case and with
    surrounding whitespace; the cache file is left as it was, also when the
    cache is dirty. *)
Theorem play_wordle_quit fuel E answer inputs disk_ok allowed possible_answers
    st file cursor :
  Forall is_word allowed → Forall is_word possible_answers →
  1 < length possible_answers →
  answer = None ∨ answer = Some "" →
  lower (strip (inputs cursor)) ∈ ["quit"; "exit"] →
  ∃ st', play_wordle (S fuel) (minimax_entropy E) answer inputs disk_ok
           allowed possible_answers st file cursor = Some (Ok (st', file)).
Proof.
  intros Ha Hp Hlen Hans Hquit.
  destruct (minimax_entropy_word E st possible_answers allowed Hp Ha)
    as (guess & st1 & Hrun & _).
  { intros ->. cbn in Hlen. lia. }
  exists st1. cbn [play_wordle]. unfold range_from. cbn [Nat.sub seq play_attempts].
  rewrite Hrun. cbn [mbind result_bind].
  rewrite decide_False by lia.
  assert (read_feedback answer inputs cursor guess = Ok (None, S cursor)) as ->.
  { unfold read_feedback. destruct Hans as [-> | ->].
    - by rewrite decide_True.
    - rewrite decide_False by (intros ?; done). by rewrite decide_True. }
  done.
Qed.
End Quit.

Lemma play_wordle_quit_witness :
  ∃ st', play_wordle 1 (minimax_entropy (R:=exact_runtime) no_first_guess) None
           (λ _, " QUIT ") true sample_allowed sample_answers sample_state None 0
         = Some (Ok (st', None)).
Proof.
  apply (@play_wordle_quit exact_runtime exact_runtime_laws 0 no_first_guess None
           (λ _, " QUIT ") true sample_allowed sample_answers sample_state None 0);
    [compute_done|compute_done|vm_compute; lia|by left|compute_done].
Defined.

(** ** First-guess optimisation *)

Import OptimizeHardMode.

Lemma filter_head_split {A} (P : A → Prop) `{∀ x, Decision (P x)} (l : list A) g :
  head (filter P l) = Some g →
  ∃ l1 l2, l = l1 ++ g :: l2 ∧ P g ∧ ∀ h, h ∈ l1 → ¬ P h.
Proof.
  induction l as [|x l IH]; [done|]. rewrite filter_cons.
  destruct (decide (P x)) as [HP|HP].
  - intros [= ->]. exists [], l. split; [done|]. split; [done|].
    by intros h ?%not_elem_of_nil.
  - intros Hhead. destruct (IH Hhead) as (l1 & l2 & -> & Hg & Hl1).
    exists (x :: l1), l2. split; [done|]. split; [done|].
    intros h [->|?]%elem_of_cons; auto.
Qed.

Section OptimizeProofs.
Context {R : Runtime} {L : RuntimeLaws R}.

Lemma count_pattern_loop g l : ∀ acc,
  (∀ a, a ∈ l → is_Ok (get_feedback g a)) →
  for_each (count_pattern g) l acc
  = Ok (tally acc ((λ a, pattern_of ∅ a g) <$> l)).
Proof.
  induction l as [|a l IH]; intros acc Hok; [done|].
  destruct (Hok a (list_elem_of_here _ _)) as [p Hp].
  cbn [for_each]. assert (count_pattern g acc a = Ok (bump p acc)) as ->.
  { unfold count_pattern. by rewrite Hp. }
  cbn [mbind result_bind]. rewrite IH.
  2:{ intros a' Ha'. apply Hok. by apply list_elem_of_further. }
  cbn [fmap list_fmap tally foldl]. unfold pattern_of at 2.
  by rewrite lookup_or_compute_empty, Hp.
Qed.

Lemma consider_spec possible (sel : option num * list string) g :
  (sel.1 = None → sel.2 = []) → (sel.1 ≠ None → sel.2 ≠ []) →
  (∀ a, a ∈ possible → is_Ok (get_feedback g a)) →
  let sel' := select sel (expected_remaining ∅ possible g) g in
  consider possible (sel.1, head sel.2) g = Ok (sel'.1, head sel'.2)
  ∧ (sel'.1 ≠ None) ∧ (sel'.2 ≠ []).
Proof.
  intros Hnone Hsome Hok. cbn zeta. unfold consider.
  rewrite count_pattern_loop by done. cbn [mbind result_bind fst].
  rewrite expected_of_tally. unfold select.
  destruct sel as [[best|] bg]; cbn [fst snd] in *.
  - specialize (Hsome ltac:(done)).
    destruct (num_lt _ best); [done|].
    destruct (num_eq _ best); cbn [fst snd].
    + split; [|split; [done|]].
      * destruct bg; [done|]. done.
      * intros Happ. by apply app_eq_nil in Happ as [_ ?].
    + done.
  - done.
Qed.

Lemma consider_loop possible pool : ∀ sel : option num * list string,
  (sel.1 = None → sel.2 = []) → (sel.1 ≠ None → sel.2 ≠ []) →
  (∀ g a, g ∈ pool → a ∈ possible → is_Ok (get_feedback g a)) →
  let sel' := run_select (expected_remaining ∅ possible) pool sel in
  for_each (consider possible) pool (sel.1, head sel.2) = Ok (sel'.1, head sel'.2).
Proof.
  induction pool as [|g pool IH]; intros sel Hnone Hsome Hok; [done|].
  destruct (consider_spec possible sel g Hnone Hsome) as (Hstep & H1 & H2).
  { intros a Ha. apply Hok; [apply list_elem_of_here|done]. }
  cbn zeta. cbn [for_each]. rewrite Hstep. cbn [mbind result_bind].
  rewrite IH; [done|by intros ?|done|].
  intros g' a Hg' Ha. apply Hok; [by apply list_elem_of_further|done].
Qed.
End OptimizeProofs.

(* ===================================================================== *)
(** * The scores as the program computes them                            *)
(* ===================================================================== *)

(** ** Binary64 scores are never NaN, and are totally ordered *)

Section Binary64Facts.
Import SpecFloat.
#[local] Open Scope Z_scope.

Lemma shr_1_nonneg mrs : 0 ≤ shr_m mrs → 0 ≤ shr_m (shr_1 mrs).
Proof. destruct mrs as [m r s]. destruct m as [|[p|p|]|[p|p|]]; cbn; lia. Qed.

Lemma iter_shr_1_nonneg p : ∀ mrs, 0 ≤ shr_m mrs → 0 ≤ shr_m (iter_pos shr_1 p mrs).
Proof.
  induction p as [p IH|p IH|]; intros mrs Hm; cbn [iter_pos].
  - by apply IH, IH, shr_1_nonneg.
  - by apply IH, IH.
  - by apply shr_1_nonneg.
Qed.

Lemma shr_fexp_nonneg m e l :
  0 ≤ m → 0 ≤ shr_m (shr_fexp Binary64.prec Binary64.emax m e l).1.
Proof.
  intros Hm. unfold shr_fexp, shr.
  assert (0 ≤ shr_m (shr_record_of_loc m l)) by (by destruct l as [|[]]).
  destruct (_ - e); cbn [fst]; [done| |done]. by apply iter_shr_1_nonneg.
Qed.

Lemma round_nearest_even_nonneg m l : 0 ≤ m → 0 ≤ round_nearest_even m l.
Proof.
  intros Hm. destruct l as [|[]]; cbn [round_nearest_even]; [done| |done|lia].
  destruct (Z.even m); lia.
Qed.

Lemma binary_round_aux_nonneg m e l :
  0 ≤ m → nonneg (binary_round_aux Binary64.prec Binary64.emax false m e l).
Proof.
  intros Hm. unfold binary_round_aux.
  pose proof (shr_fexp_nonneg m e l Hm) as H1.
  destruct (shr_fexp Binary64.prec Binary64.emax m e l) as [mrs' e']. cbn [fst] in H1.
  pose proof (shr_fexp_nonneg (round_nearest_even (shr_m mrs') (loc_of_shr_record mrs'))
                e' loc_Exact (round_nearest_even_nonneg _ _ H1)) as H2.
  destruct (shr_fexp Binary64.prec Binary64.emax _ e' loc_Exact) as [mrs'' e''].
  cbn [fst] in H2. destruct (shr_m mrs''); [done| |lia].
  by destruct (_ <=? _).
Qed.

Lemma nonneg_div n t :
  (1 ≤ n)%nat → (1 ≤ t)%nat →
  nonneg (Binary64.div (Binary64.of_int n) (Binary64.of_int t)).
Proof.
  intros Hn Ht. destruct n as [|n]; [lia|]. destruct t as [|t]; [lia|].
  unfold Binary64.div, Binary64.of_int, SFdiv. cbn [xorb].
  destruct (SFdiv_core_binary _ _ _ _ _ _) as [[mz ez] lz] eqn:Hcore.
  apply binary_round_aux_nonneg.
  unfold SFdiv_core_binary in Hcore. cbn zeta in Hcore.
  destruct (Z.div_eucl _ _) as [q r] eqn:Hdiv in Hcore. injection Hcore as <- _ _.
  match type of Hdiv with Z.div_eucl ?a ?b = _ =>
    assert (q = a / b) as -> by (unfold Z.div; by rewrite Hdiv);
    apply Z.div_pos; [|done] end.
  destruct (_ - _); [done| |done]. apply Z.shiftl_nonneg. done.
Qed.

Lemma nonneg_mul x n :
  nonneg x → (1 ≤ n)%nat → nonneg (Binary64.mul x (Binary64.of_int n)).
Proof.
  intros Hx Hn. destruct n as [|n]; [lia|].
  unfold Binary64.mul, Binary64.of_int, SFmul.
  destruct x as [[]|[]| |[] m e]; try done.
  cbn [xorb]. by apply binary_round_aux_nonneg.
Qed.

Lemma nonneg_add x y : nonneg x → nonneg y → nonneg (Binary64.add x y).
Proof.
  intros Hx Hy. unfold Binary64.add, SFadd.
  destruct x as [[]|[]| |[] mx ex]; try done;
    destruct y as [[]|[]| |[] my ey]; try done.
  cbn zeta. unfold cond_Zopp, binary_normalize.
  destruct (shl_align mx ex _) as [ax ?], (shl_align my ey _) as [ay ?]. cbn [fst].
  change (Z.pos ax + Z.pos ay) with (Z.pos (ax + ay)). cbn match.
  unfold binary_round. destruct (shl_align _ _ _) as [mz ez].
  by apply binary_round_aux_nonneg.
Qed.

Lemma nonneg_sum terms : Forall nonneg terms → nonneg (Binary64.sum terms).
Proof.
  unfold Binary64.sum. assert (Hz : nonneg (S754_zero false)) by done. revert Hz.
  generalize (S754_zero false). induction terms as [|t terms IH]; intros acc Hacc Hall.
  - done.
  - apply Forall_cons in Hall as [Ht Hall]. cbn [foldl]. apply IH; [|done].
    by apply nonneg_add.
Qed.

Lemma lex_Lt ex mx ey my :
  lex ex mx ey my = Lt ↔ ex < ey ∨ (ex = ey ∧ (mx < my)%positive).
Proof.
  unfold lex. rewrite Pos.compare_cont_spec. cbn [Pos.switch_Eq].
  destruct (Z.compare_spec ex ey); destruct (Pos.compare_spec mx my);
    split; try done; try lia; intros _; lia.
Qed.

Lemma lex_Eq ex mx ey my : lex ex mx ey my = Eq ↔ ex = ey ∧ mx = my.
Proof.
  unfold lex. rewrite Pos.compare_cont_spec. cbn [Pos.switch_Eq].
  destruct (Z.compare_spec ex ey); destruct (Pos.compare_spec mx my);
    split; try done; try lia; intros _; lia.
Qed.

Lemma nonneg_eqb_eq x y : nonneg x → nonneg y → SFeqb x y = true → x = y.
Proof.
  unfold SFeqb, SFcompare.
  destruct x as [[]|[]| |[] mx ex]; try done;
    destruct y as [[]|[]| |[] my ey]; try done.
  intros _ _. fold (lex ex mx ey my).
  destruct (lex ex mx ey my) eqn:Hlex; try done.
  apply lex_Eq in Hlex as [-> ->]. done.
Qed.

Lemma nonneg_eqb_refl x : nonneg x → SFeqb x x = true.
Proof.
  unfold SFeqb, SFcompare. destruct x as [[]|[]| |[] mx ex]; try done.
  intros _. fold (lex ex mx ex mx). by rewrite (proj2 (lex_Eq ex mx ex mx)).
Qed.

Lemma ltb_not_eqb x y : SFltb x y = true → SFeqb x y = false.
Proof. unfold SFltb, SFeqb. by destruct (SFcompare x y) as [[]|]. Qed.

Lemma nonneg_ltb_trans x y z :
  nonneg x → nonneg y → nonneg z →
  SFltb x y = true → SFltb y z = true → SFltb x z = true.
Proof.
  unfold SFltb, SFcompare.
  destruct x as [[]|[]| |[] mx ex]; try done;
    destruct y as [[]|[]| |[] my ey]; try done;
    destruct z as [[]|[]| |[] mz ez]; try done.
  intros _ _ _. fold (lex ex mx ey my) (lex ey my ez mz) (lex ex mx ez mz).
  destruct (lex ex mx ey my) eqn:H1; try done.
  destruct (lex ey my ez mz) eqn:H2; try done.
  intros _ _. apply lex_Lt in H1, H2.
  rewrite (proj2 (lex_Lt ex mx ez mz)); [done|]. lia.
Qed.

Lemma nonneg_total x y :
  nonneg x → nonneg y →
  SFltb x y = false → SFeqb x y = false → SFltb y x = true.
Proof.
  unfold SFltb, SFeqb, SFcompare.
  destruct x as [[]|[]| |[] mx ex]; try done;
    destruct y as [[]|[]| |[] my ey]; try done.
  intros _ _. fold (lex ex mx ey my) (lex ey my ex mx).
  destruct (lex ex mx ey my) eqn:H1; try done. intros _ _.
  rewrite (proj2 (lex_Lt ey my ex mx)); [done|].
  assert (¬ (ex < ey ∨ ex = ey ∧ (mx < my)%positive)) as Hn1.
  { rewrite <-lex_Lt. by rewrite H1. }
  assert (¬ (ex = ey ∧ mx = my)) as Hn2.
  { rewrite <-lex_Eq. by rewrite H1. }
  lia.
Qed.
End Binary64Facts.

(** ** The selection loop when the laws hold on the scores only *)
Section SelectionOn.
Context {R : Runtime}.
Variable good : num → Prop.
Hypothesis good_eq_refl : ∀ x, good x → num_eq x x = true.
Hypothesis good_eq : ∀ x y, good x → good y → num_eq x y = true → x = y.
Hypothesis good_lt_trans : ∀ x y z, good x → good y → good z →
  num_lt x y = true → num_lt y z = true → num_lt x z = true.
Hypothesis good_lt_not_eq : ∀ x y, num_lt x y = true → num_eq x y = false.
Hypothesis good_total : ∀ x y, good x → good y →
  num_lt x y = false → num_eq x y = false → num_lt y x = true.
Variable score : string → num.
Hypothesis score_good : ∀ g, good (score g).

Lemma good_lt_irrefl x : good x → num_lt x x = false.
Proof using good_eq_refl good_lt_not_eq.
  intros Hx. destruct (num_lt x x) eqn:Hlt; [|done].
  apply good_lt_not_eq in Hlt. by rewrite good_eq_refl in Hlt.
Qed.

Lemma select_selected_on seen sel g :
  selected score seen sel → (∀ b, sel.1 = Some b → good b) →
  selected score (seen ++ [g]) (select sel (score g) g)
  ∧ (∀ b, (select sel (score g) g).1 = Some b → good b).
Proof using All.
  destruct sel as [[best|] bg]; unfold selected, select; cbn [fst snd].
  - intros (Hmin & Hbg & Hne) Hgood. specialize (Hgood best eq_refl).
    destruct (num_lt (score g) best) eqn:Hlt; cbn [fst snd].
    + split; [|by intros b [= <-]]. split; [|split; [|done]].
      * intros h Hh. apply elem_of_app in Hh as [Hh|Hh].
        -- destruct (num_lt (score h) (score g)) eqn:Hhg; [|done].
           rewrite <-(Hmin h Hh). symmetry. by apply (good_lt_trans _ (score g)).
        -- apply list_elem_of_singleton in Hh as ->. by apply good_lt_irrefl.
      * rewrite filter_app, filter_cons, filter_nil.
        rewrite decide_True by (by apply good_eq_refl).
        rewrite filter_none; [done|]. intros h Hh Heq.
        apply good_eq in Heq; [|done..]. rewrite <-Heq, (Hmin h Hh) in Hlt. done.
    + destruct (num_eq (score g) best) eqn:Heq; cbn [fst snd].
      * split; [|by intros b [= <-]]. split; [|split].
        -- intros h Hh. apply elem_of_app in Hh as [Hh|Hh]; [by apply Hmin|].
           by apply list_elem_of_singleton in Hh as ->.
        -- rewrite filter_app, filter_cons, filter_nil, decide_True by done.
           by rewrite Hbg.
        -- intros Happ. by apply app_eq_nil in Happ as [_ ?].
      * split; [|by intros b [= <-]]. split; [|split; [|done]].
        -- intros h Hh. apply elem_of_app in Hh as [Hh|Hh]; [by apply Hmin|].
           by apply list_elem_of_singleton in Hh as ->.
        -- rewrite filter_app, filter_cons, filter_nil.
           rewrite decide_False by (by rewrite Heq). by rewrite app_nil_r.
  - intros [-> ->] _. split; [|by intros b [= <-]]. split; [|split; [|done]].
    + intros h Hh. apply list_elem_of_singleton in Hh as ->. by apply good_lt_irrefl.
    + rewrite app_nil_l, filter_cons, filter_nil.
      by rewrite decide_True by (by apply good_eq_refl).
Qed.

Lemma run_select_selected_on pool : ∀ seen sel,
  selected score seen sel → (∀ b, sel.1 = Some b → good b) →
  selected score (seen ++ pool) (run_select score pool sel)
  ∧ (∀ b, (run_select score pool sel).1 = Some b → good b).
Proof using All.
  induction pool as [|g pool IH]; intros seen sel Hsel Hgood.
  { by rewrite app_nil_r. }
  cbn [run_select foldl]. fold (run_select score pool (select sel (score g) g)).
  rewrite (cons_middle g seen pool), app_assoc.
  destruct (select_selected_on seen sel g Hsel Hgood). by apply IH.
Qed.

(** the loop leaves the smallest score in [best_score] and, in
    [best_guesses], the pool words that have it, in pool order *)
Lemma run_select_minimal_on pool :
  pool ≠ [] →
  ∃ best bg, run_select score pool (None, []) = (Some best, bg) ∧ bg ≠ []
    ∧ bg = filter (λ h, num_eq (score h) best = true) pool
    ∧ (∀ h, h ∈ bg → score h = best)
    ∧ (∀ h, h ∈ pool → num_lt (score h) best = false)
    ∧ (∀ h, h ∈ pool → h ∉ bg → num_lt best (score h) = true).
Proof using All.
  intros Hne.
  destruct (run_select_selected_on pool [] (None, [])) as [Hsel Hgood];
    [done|done|]. rewrite app_nil_l in Hsel.
  destruct (run_select score pool (None, [])) as [[best|] bg]; unfold selected in Hsel;
    cbn [fst snd] in Hsel, Hgood.
  2:{ by destruct Hsel as [? _]. }
  destruct Hsel as (Hmin & Hbg & Hbgne). specialize (Hgood best eq_refl).
  exists best, bg. split; [done|]. split; [done|]. split; [done|].
  split.
  { intros h Hh. rewrite Hbg in Hh. apply list_elem_of_filter in Hh as [Heq _].
    by apply good_eq. }
  split; [done|]. intros h Hh Hout. apply good_total; [done|done|by apply Hmin|].
  destruct (num_eq (score h) best) eqn:Heq; [|done]. exfalso. apply Hout.
  rewrite Hbg. by apply list_elem_of_filter.
Qed.
End SelectionOn.

(** ** The scores of the program are never NaN *)
Lemma elem_of_distinct p ps : p ∈ distinct ps → p ∈ ps.
Proof.
  induction ps as [|q ps IH]; [done|]. cbn [distinct].
  intros [->|[_ Hin]%list_elem_of_filter]%elem_of_cons;
    [apply list_elem_of_here|by apply list_elem_of_further, IH].
Qed.

Lemma bucket_size_pos ps p : p ∈ ps → 1 ≤ bucket_size ps p.
Proof.
  intros Hp. unfold bucket_size.
  assert (p ∈ filter (λ q, q = p) ps) as Hin by (by apply list_elem_of_filter).
  destruct (filter _ ps); [by apply not_elem_of_nil in Hin|cbn; lia].
Qed.

Lemma binary64_score_nonneg order P candidates g :
  nonneg (expected_remaining (R:=binary64_runtime order) P candidates g).
Proof.
  unfold expected_remaining. cbn zeta. apply nonneg_sum, Forall_forall.
  intros t Ht. apply list_elem_of_fmap in Ht as (size & -> & Hsize).
  apply list_elem_of_fmap in Hsize as ([p n] & -> & Hpn).
  unfold buckets in Hpn. apply list_elem_of_fmap in Hpn as (q & [= -> ->] & Hq).
  apply elem_of_distinct in Hq. cbn [snd].
  pose proof (bucket_size_pos _ _ Hq) as Hpos.
  apply nonneg_mul; [|done]. apply nonneg_div; [done|].
  destruct candidates; [by apply not_elem_of_nil in Hq|cbn; lia].
Qed.

Section Binary64Selection.
Variable order : list string → list string.
Variable score : string → SpecFloat.spec_float.
Hypothesis score_nonneg : ∀ g, nonneg (score g).

Lemma binary64_select_minimal pool :
  pool ≠ [] →
  ∃ best bg, run_select (R:=binary64_runtime order) score pool (None, []) = (Some best, bg)
    ∧ bg ≠ []
    ∧ bg = filter (λ h, SpecFloat.SFeqb (score h) best = true) pool
    ∧ (∀ h, h ∈ bg → score h = best)
    ∧ (∀ h, h ∈ pool → SpecFloat.SFltb (score h) best = false)
    ∧ (∀ h, h ∈ pool → h ∉ bg → SpecFloat.SFltb best (score h) = true).
Proof using score_nonneg.
  apply (run_select_minimal_on (R:=binary64_runtime order) nonneg).
  - apply nonneg_eqb_refl.
  - apply nonneg_eqb_eq.
  - apply nonneg_ltb_trans.
  - apply ltb_not_eqb.
  - apply nonneg_total.
  - done.
Qed.
End Binary64Selection.

(** ** A word that scores strictly below all others *)

Section StrictWinner.
Context {R : Runtime}.
Variable score : string → num.
Variable g : string.
Variable pool : list string.
Hypothesis g_below : ∀ h, h ∈ pool → h ≠ g →
  num_lt (score g) (score h) = true
  ∧ num_lt (score h) (score g) = false
  ∧ num_eq (score h) (score g) = false.

Lemma run_select_before l : ∀ sel,
  (∀ h, h ∈ l → h ∈ pool ∧ h ≠ g) →
  (sel.1 = None ∨ ∃ h, h ∈ pool ∧ h ≠ g ∧ sel.1 = Some (score h)) →
  let sel' := run_select score l sel in
  sel'.1 = None ∨ ∃ h, h ∈ pool ∧ h ≠ g ∧ sel'.1 = Some (score h).
Proof using Type.
  induction l as [|h l IH]; intros sel Hl Hsel; [done|].
  cbn zeta. cbn [run_select foldl]. fold (run_select score l (select sel (score h) h)).
  apply IH. { intros h' Hh'. apply Hl. by apply list_elem_of_further. }
  destruct (Hl h (list_elem_of_here _ _)) as [Hh Hne].
  right. unfold select. destruct sel as [[best|] bg]; cbn [fst snd] in *.
  - destruct (num_lt (score h) best); [by exists h|].
    destruct Hsel as [?|(h0 & ? & ? & ?)]; [done|].
    destruct (num_eq (score h) best); by exists h0.
  - by exists h.
Qed.

Lemma run_select_after l :
  (∀ h, h ∈ l → h ∈ pool ∧ h ≠ g) →
  run_select score l (Some (score g), [g]) = (Some (score g), [g]).
Proof using g_below.
  induction l as [|h l IH]; intros Hl; [done|].
  cbn [run_select foldl]. fold (run_select score l (select (Some (score g), [g]) (score h) h)).
  destruct (Hl h (list_elem_of_here _ _)) as [Hh Hne].
  destruct (g_below h Hh Hne) as (_ & Hlt & Heq).
  unfold select. cbn [fst snd]. rewrite Hlt, Heq.
  apply IH. intros h' Hh'. apply Hl. by apply list_elem_of_further.
Qed.

(** a word whose score is strictly below every other score of the pool is
    the only best guess, wherever it stands in the pool *)
Lemma run_select_strict_winner :
  NoDup pool → g ∈ pool →
  run_select score pool (None, []) = (Some (score g), [g]).
Proof using g_below.
  intros Hnd Hg. apply list_elem_of_split in Hg as (l1 & l2 & Hsplit).
  assert (Hout : (∀ h, h ∈ l1 → h ∈ pool ∧ h ≠ g) ∧ (∀ h, h ∈ l2 → h ∈ pool ∧ h ≠ g)).
  { rewrite Hsplit in Hnd. apply NoDup_app in Hnd as (_ & Hdis & Hnd2).
    apply NoDup_cons in Hnd2 as [Hg2 _]. split; intros h Hh.
    - split; [rewrite Hsplit; apply elem_of_app; by left|].
      intros ->. apply (Hdis g Hh), list_elem_of_here.
    - split; [rewrite Hsplit; apply elem_of_app; right; by apply list_elem_of_further|].
      by intros ->. }
  destruct Hout as [H1 H2].
  rewrite Hsplit at 1. unfold run_select. rewrite foldl_app. cbn [foldl].
  fold (run_select score l1 (None, [])).
  pose proof (run_select_before l1 (None, []) H1 (or_introl eq_refl)) as Hsel.
  cbn zeta in Hsel.
  assert (select (run_select score l1 (None, [])) (score g) g = (Some (score g), [g])) as ->.
  { unfold select. destruct (run_select score l1 (None, [])) as [[best|] bg];
      cbn [fst snd] in *; [|done].
    destruct Hsel as [?|(h & Hh & Hne & [= ->])]; [done|].
    by destruct (g_below h Hh Hne) as (-> & _ & _). }
  by apply run_select_after.
Qed.
End StrictWinner.

(** ** The selector and the first-guess optimisation in binary64 *)

(** with one allowed guess [g] that is not a candidate and whose computed
    score is strictly below that of every candidate, the selector returns
    [g], whatever the order of the pool *)
Lemma minimax_entropy_strict_winner {R : Runtime} candidates g :
  2 < length candidates → Forall is_word candidates → is_word g →
  NoDup (list_of_set ([g] ++ candidates)) →
  (∀ x, x ∈ list_of_set ([g] ++ candidates) ↔ x ∈ [g] ++ candidates) →
  g ∉ candidates →
  let score := expected_remaining ∅ candidates in
  Forall (λ h, num_lt (score g) (score h) = true
               ∧ num_lt (score h) (score g) = false
               ∧ num_eq (score h) (score g) = false) candidates →
  minimax_entropy no_first_guess empty_state candidates [g] = Ok (g, empty_state).
Proof.
  intros Hlen Hc Hg Hnd Helem Hout score Hbelow.
  set (pool := list_of_set ([g] ++ candidates)).
  assert (Hsel : run_select score pool (None, []) = (Some (score g), [g])).
  { apply run_select_strict_winner; [|done|apply Helem, list_elem_of_here].
    intros h Hh Hne. apply Helem in Hh. rewrite Forall_forall in Hbelow.
    apply Hbelow. apply elem_of_app in Hh as [Hh|Hh]; [|done].
    by apply list_elem_of_singleton in Hh. }
  destruct (score_loop ∅ candidates pool (None, []) empty_state) as (st' & Hloop & _).
  { apply same_lookups_refl. }
  { intros h a Hh Ha. rewrite Forall_forall in Hc. apply lookup_or_compute_total.
    - apply Helem in Hh. apply elem_of_app in Hh as [Hh|Hh]; [|by apply Hc].
      by apply list_elem_of_singleton in Hh as ->.
    - by apply Hc. }
  fold score in Hloop.
  destruct (pick_spec [g] candidates) as (g' & Hpick & Hg' & _); [done|].
  apply list_elem_of_singleton in Hg' as ->.
  assert (Hrun : minimax_entropy no_first_guess empty_state candidates [g] = Ok (g, st')).
  { unfold minimax_entropy. cbn [first_guess first_guess_cache no_first_guess].
    rewrite decide_False by lia. rewrite decide_False by lia.
    unfold guess_pool. rewrite decide_False by lia. fold pool.
    rewrite Hloop, Hsel. cbn [mbind result_bind].
    rewrite decide_False by done. by rewrite Hpick. }
  destruct (minimax_entropy_grows _ _ _ _ _ _ Hrun) as [_ Hsame].
  by rewrite Hrun, (Hsame eq_refl).
Qed.

(** C4, where the code departs from it, on two inputs and for every order
    of the pool.

    Candidates bbbac, bbaba, ccaac, bcaac, babac, bbabc, acaac and one
    further allowed guess, abccc: each of the eight pool words has the
    expected remaining-candidates score 9/7 (one bucket of 2 and five of 1
    among 7 candidates), so every candidate attains the minimum and the
    claim has a candidate returned.  With the additions of [sum] rounded one
    by one, the sum for abccc, whose bucket of 2 comes first, is
    5790342378047779 * 2^-52 (1.2857142857142854) and the sum for every
    candidate 5790342378047780 * 2^-52 (1.2857142857142856):
    [minimax_entropy] returns abccc, which is not a candidate.

    Candidates acbdd, aabbd, adbad, adbbd, acbbd, dcbdd, ccbdd, abbbd,
    adbaa, acbcd and one further allowed guess, aaddd: the least score of
    the pool is 8/5, which the candidate ccbdd (buckets 2,2,2,1,1,1,1) and
    aaddd (buckets 1,1,1,1,3,1,1,1) both have.  The computed scores are
    7205759403792796 * 2^-52 for ccbdd and 7205759403792794 * 2^-52 for
    aaddd: [minimax_entropy] returns aaddd, which is not a candidate. *)
Theorem minimax_entropy_tie_broken_by_rounding (order : list string → list string) :
  (∀ l, NoDup (order l)) → (∀ l x, x ∈ order l ↔ x ∈ l) →
  (minimax_entropy (R:=binary64_runtime order) no_first_guess empty_state
     tie_candidates tie_allowed = Ok ("abccc", empty_state)
   ∧ ("abccc" ∉ tie_candidates)
   ∧ Forall (λ h, (expected_remaining (R:=exact_runtime) ∅ tie_candidates h == (9 # 7))%Q)
       (tie_allowed ++ tie_candidates)
   ∧ expected_remaining (R:=binary64_runtime order) ∅ tie_candidates "abccc"
     = SpecFloat.S754_finite false 5790342378047779 (-52)
   ∧ Forall (λ h, expected_remaining (R:=binary64_runtime order) ∅ tie_candidates h
                  = SpecFloat.S754_finite false 5790342378047780 (-52))
       tie_candidates)
  ∧ (minimax_entropy (R:=binary64_runtime order) no_first_guess empty_state
       round_candidates round_allowed = Ok ("aaddd", empty_state)
     ∧ ("aaddd" ∉ round_candidates)
     ∧ ("ccbdd" ∈ round_candidates)
     ∧ (expected_remaining (R:=exact_runtime) ∅ round_candidates "ccbdd" == (8 # 5))%Q
     ∧ Forall (λ h, ((8 # 5) <= expected_remaining (R:=exact_runtime) ∅ round_candidates h)%Q)
         (round_allowed ++ round_candidates)
     ∧ expected_remaining (R:=binary64_runtime order) ∅ round_candidates "aaddd"
       = SpecFloat.S754_finite false 7205759403792794 (-52)
     ∧ expected_remaining (R:=binary64_runtime order) ∅ round_candidates "ccbdd"
       = SpecFloat.S754_finite false 7205759403792796 (-52)).
Proof.
  intros Hnd Helem. split.
  - split; [|split; [|split; [|split]]].
    + apply (minimax_entropy_strict_winner (R:=binary64_runtime order) tie_candidates "abccc");
        [cbn; lia|compute_done|compute_done|apply Hnd|intros x; apply Helem|compute_done|].
      repeat constructor.
    + compute_done.
    + repeat constructor.
    + vm_compute. reflexivity.
    + repeat constructor.
  - split; [|split; [|split; [|split; [|split; [|split]]]]].
    + apply (minimax_entropy_strict_winner (R:=binary64_runtime order)
               round_candidates "aaddd");
        [cbn; lia|compute_done|compute_done|apply Hnd|intros x; apply Helem|compute_done|].
      repeat constructor.
    + compute_done.
    + compute_done.
    + vm_compute. reflexivity.
    + repeat (constructor; [by vm_compute|]). constructor.
    + vm_compute. reflexivity.
    + vm_compute. reflexivity.
Qed.

Lemma minimax_entropy_tie_broken_by_rounding_witness :
  (minimax_entropy (R:=binary64_runtime remove_dups) no_first_guess empty_state
     tie_candidates tie_allowed = Ok ("abccc", empty_state)
   ∧ ("abccc" ∉ tie_candidates)
   ∧ Forall (λ h, (expected_remaining (R:=exact_runtime) ∅ tie_candidates h == (9 # 7))%Q)
       (tie_allowed ++ tie_candidates)
   ∧ expected_remaining (R:=binary64_runtime remove_dups) ∅ tie_candidates "abccc"
     = SpecFloat.S754_finite false 5790342378047779 (-52)
   ∧ Forall (λ h, expected_remaining (R:=binary64_runtime remove_dups) ∅ tie_candidates h
                  = SpecFloat.S754_finite false 5790342378047780 (-52))
       tie_candidates)
  ∧ (minimax_entropy (R:=binary64_runtime remove_dups) no_first_guess empty_state
       round_candidates round_allowed = Ok ("aaddd", empty_state)
     ∧ ("aaddd" ∉ round_candidates)
     ∧ ("ccbdd" ∈ round_candidates)
     ∧ (expected_remaining (R:=exact_runtime) ∅ round_candidates "ccbdd" == (8 # 5))%Q
     ∧ Forall (λ h, ((8 # 5) <= expected_remaining (R:=exact_runtime) ∅ round_candidates h)%Q)
         (round_allowed ++ round_candidates)
     ∧ expected_remaining (R:=binary64_runtime remove_dups) ∅ round_candidates "aaddd"
       = SpecFloat.S754_finite false 7205759403792794 (-52)
     ∧ expected_remaining (R:=binary64_runtime remove_dups) ∅ round_candidates "ccbdd"
       = SpecFloat.S754_finite false 7205759403792796 (-52)).
Proof.
  apply (minimax_entropy_tie_broken_by_rounding remove_dups).
  - intros l. apply NoDup_remove_dups.
  - intros l x. apply elem_of_remove_dups.
Defined.

(** the same lists with the formula evaluated exactly: the ties are seen
    and a candidate is returned *)
Example minimax_entropy_tie_exact :
  minimax_entropy (R:=exact_runtime) no_first_guess empty_state
    tie_candidates tie_allowed = Ok ("bbbac", empty_state)
  ∧ minimax_entropy (R:=exact_runtime) no_first_guess empty_state
      round_candidates round_allowed = Ok ("ccbdd", empty_state).
Proof. split; vm_compute; reflexivity. Qed.

(** with the compensated [sum]: on the first lists the eight computed sums
    agree and a candidate is returned; on the second the terms themselves
    are rounded apart ([(3/10)*3] against three times [(2/10)*2]), the sums
    are 7205759403792793 * 2^-52 for aaddd and 7205759403792794 * 2^-52 for
    ccbdd, and aaddd is returned whatever the order of the pool *)
Example minimax_entropy_tie_compensated (order : list string → list string) :
  (∀ l, NoDup (order l)) → (∀ l x, x ∈ order l ↔ x ∈ l) →
  minimax_entropy (R:=binary64_compensated_runtime order) no_first_guess empty_state
    round_candidates round_allowed = Ok ("aaddd", empty_state)
  ∧ expected_remaining (R:=binary64_compensated_runtime order) ∅ round_candidates "aaddd"
    = SpecFloat.S754_finite false 7205759403792793 (-52)
  ∧ expected_remaining (R:=binary64_compensated_runtime order) ∅ round_candidates "ccbdd"
    = SpecFloat.S754_finite false 7205759403792794 (-52)
  ∧ minimax_entropy (R:=binary64_compensated_runtime remove_dups) no_first_guess
      empty_state tie_candidates tie_allowed = Ok ("bbbac", empty_state).
Proof.
  intros Hnd Helem. split; [|split; [|split]]; [|vm_compute; reflexivity..].
  apply (minimax_entropy_strict_winner (R:=binary64_compensated_runtime order)
           round_candidates "aaddd");
    [cbn; lia|compute_done|compute_done|apply Hnd|intros x; apply Helem|compute_done|].
  repeat constructor.
Qed.

(** X29: in binary64, with more than one candidate and the first-guess
    fast path not taken, [minimax_entropy] scores the candidates themselves
    when there are at most 2 of them and otherwise the deduplicated union of
    the allowed guesses and the candidates; it returns a pool word whose
    computed score no pool word's computed score undercuts, and it returns a
    candidate whenever some candidate's computed score attains that
    minimum. *)
Theorem minimax_entropy_binary64 order E st candidates allowed :
  (∀ l, NoDup (order l)) → (∀ l x, x ∈ order l ↔ x ∈ l) →
  Forall is_word candidates → Forall is_word allowed →
  1 < length candidates →
  first_guess E candidates allowed = None →
  let P := precomputed_patterns st in
  let pool := guess_pool (R:=binary64_runtime order) candidates allowed in
  (length candidates ≤ 2 → pool = candidates)
  ∧ (2 < length candidates →
       NoDup pool ∧ ∀ w, w ∈ pool ↔ w ∈ allowed ∨ w ∈ candidates)
  ∧ ∃ g st',
      minimax_entropy (R:=binary64_runtime order) E st candidates allowed = Ok (g, st')
      ∧ g ∈ pool
      ∧ minimal_in (R:=binary64_runtime order) P candidates pool g
      ∧ ((∃ h, h ∈ pool ∧ h ∈ candidates
               ∧ minimal_in (R:=binary64_runtime order) P candidates pool h)
         → g ∈ candidates).
Proof.
  intros Hnd Helem Hc Ha Hlen Hfast P pool.
  assert (Hin : ∀ w, w ∈ pool → w ∈ allowed ∨ w ∈ candidates).
  { intros w. unfold pool, guess_pool. case_decide; [by right|].
    cbn [list_of_set binary64_runtime]. by rewrite Helem, elem_of_app. }
  assert (Hcand : ∀ w, w ∈ candidates → w ∈ pool).
  { intros w Hw. unfold pool, guess_pool. case_decide; [done|].
    cbn [list_of_set binary64_runtime]. rewrite Helem, elem_of_app. by right. }
  split; [apply guess_pool_small|]. split.
  { intros Hbig. unfold pool, guess_pool. rewrite decide_False by lia.
    cbn [list_of_set binary64_runtime]. split; [apply Hnd|].
    intros w. by rewrite Helem, elem_of_app. }
  assert (Hpool_ne : pool ≠ []).
  { destruct candidates as [|c cs]; [cbn in Hlen; lia|].
    intros Hnil. pose proof (Hcand c (list_elem_of_here _ _)) as Hc'.
    rewrite Hnil in Hc'. by apply not_elem_of_nil in Hc'. }
  set (score := expected_remaining (R:=binary64_runtime order) P candidates).
  destruct (score_loop (R:=binary64_runtime order) P candidates pool (None, []) st)
    as (st' & Hrun & _).
  { apply same_lookups_refl. }
  { intros g a Hg Ha'. apply lookup_or_compute_total.
    - apply Hin in Hg. rewrite Forall_forall in Hc, Ha. destruct Hg; auto.
    - rewrite Forall_forall in Hc. by apply Hc. }
  fold score in Hrun.
  destruct (binary64_select_minimal order score
              (binary64_score_nonneg order P candidates) pool Hpool_ne)
    as (best & bg & Hsel & Hbgne & Hbg & Hbest & Hmin & Hrest).
  destruct (pick_spec bg candidates Hbgne) as (g & Hpick & Hgin & Hpref).
  assert (Hgpool : g ∈ pool).
  { rewrite Hbg in Hgin. by apply list_elem_of_filter in Hgin as [_ ?]. }
  exists g, st'. split; [|split; [done|split]].
  - unfold minimax_entropy. rewrite Hfast.
    rewrite decide_False by lia. rewrite decide_False by lia.
    fold pool. rewrite Hrun, Hsel. cbn [mbind result_bind].
    rewrite decide_False by done. by rewrite Hpick.
  - intros h Hh. fold score. rewrite (Hbest g Hgin). by apply Hmin.
  - intros (h & Hh & Hhc & Hhmin). apply Hpref. exists h. split; [|done].
    destruct (decide (h ∈ bg)) as [|Hout]; [done|]. exfalso.
    pose proof (Hrest h Hh Hout) as Hlt. rewrite <-(Hbest g Hgin) in Hlt.
    specialize (Hhmin g Hgpool). fold score in Hhmin.
    cbn [num_lt binary64_runtime] in Hhmin. congruence.
Qed.

Lemma minimax_entropy_binary64_witness :
  let P := precomputed_patterns empty_state in
  let pool := guess_pool (R:=binary64_runtime remove_dups) tie_candidates tie_allowed in
  (length tie_candidates ≤ 2 → pool = tie_candidates)
  ∧ (2 < length tie_candidates →
       NoDup pool ∧ ∀ w, w ∈ pool ↔ w ∈ tie_allowed ∨ w ∈ tie_candidates)
  ∧ ∃ g st',
      minimax_entropy (R:=binary64_runtime remove_dups) no_first_guess empty_state
        tie_candidates tie_allowed = Ok (g, st')
      ∧ g ∈ pool
      ∧ minimal_in (R:=binary64_runtime remove_dups) P tie_candidates pool g
      ∧ ((∃ h, h ∈ pool ∧ h ∈ tie_candidates
               ∧ minimal_in (R:=binary64_runtime remove_dups) P tie_candidates pool h)
         → g ∈ tie_candidates).
Proof.
  apply (minimax_entropy_binary64 remove_dups no_first_guess empty_state
           tie_candidates tie_allowed);
    [intros l; apply NoDup_remove_dups | intros l x; apply elem_of_remove_dups
    | compute_done | compute_done | vm_compute; lia | reflexivity].
Defined.

(** X28: on word lists that are not both empty,
    [compute_best_first_guess_hard_mode] stores, under the key
    'minimax_entropy_hard_mode', a word of the deduplicated union of the two
    lists whose expected number of remaining candidates, as the program
    computes it in binary64, no word of the union undercuts, and which is
    the first such word: the computed score of every word before it is
    strictly higher. *)
Theorem compute_best_first_guess_hard_mode_minimal order allowed possible :
  (∀ l x, x ∈ order l ↔ x ∈ l) →
  Forall is_word allowed → Forall is_word possible → allowed ++ possible ≠ [] →
  let pool := order (allowed ++ possible) in
  let score := expected_remaining (R:=binary64_runtime order) ∅ possible in
  ∃ g l1 l2,
    compute_best_first_guess_hard_mode (R:=binary64_runtime order) allowed possible
    = Ok {["minimax_entropy_hard_mode" := Some g]}
    ∧ pool = l1 ++ g :: l2
    ∧ (∀ h, h ∈ pool → SpecFloat.SFltb (score h) (score g) = false)
    ∧ (∀ h, h ∈ l1 → SpecFloat.SFltb (score g) (score h) = true).
Proof.
  intros Helem Ha Hp Hne pool score.
  assert (Hpool : pool ≠ []).
  { destruct (allowed ++ possible) as [|w l] eqn:Hl; [done|]. intros Hnil.
    assert (w ∈ pool) as Hin by (apply Helem, list_elem_of_here).
    rewrite Hnil in Hin. by apply not_elem_of_nil in Hin. }
  destruct (binary64_select_minimal order score (binary64_score_nonneg order ∅ possible)
              pool Hpool) as (best & bg & Hrun & Hbgne & Hbg & Hbest & Hmin & Hrest).
  pose proof (consider_loop (R:=binary64_runtime order) possible pool (None, [])) as Hloop.
  cbn zeta in Hloop. fold score in Hloop. cbn [fst snd head] in Hloop.
  specialize (Hloop ltac:(done) ltac:(done)). rewrite Hrun in Hloop.
  cbn [fst snd] in Hloop.
  destruct bg as [|g bg']; [done|].
  assert (Hhead : head (filter (λ h, SpecFloat.SFeqb (score h) best = true) pool) = Some g)
    by (by rewrite <-Hbg).
  destruct (filter_head_split _ _ _ Hhead) as (l1 & l2 & Hsplit & _ & Hl1).
  assert (Hg : score g = best) by apply Hbest, list_elem_of_here.
  exists g, l1, l2. split; [|split; [done|split]].
  - unfold compute_best_first_guess_hard_mode. cbn zeta.
    change (list_of_set (allowed ++ possible)) with pool. rewrite Hloop; [done|].
    intros h a Hh Ha'. apply get_feedback_total.
    + apply Helem, elem_of_app in Hh. rewrite Forall_forall in Ha, Hp.
      destruct Hh; auto.
    + rewrite Forall_forall in Hp. by apply Hp.
  - rewrite Hg. apply Hmin.
  - intros h Hh. rewrite Hg. apply Hrest.
    + rewrite Hsplit. apply elem_of_app. by left.
    + rewrite Hbg. intros [Heq _]%list_elem_of_filter. by apply (Hl1 h).
Qed.

Lemma compute_best_first_guess_hard_mode_minimal_witness :
  let order := λ l : list string, reverse (remove_dups l) in
  let pool := order (tie_allowed ++ tie_candidates) in
  let score := expected_remaining (R:=binary64_runtime order) ∅ tie_candidates in
  ∃ g l1 l2,
    compute_best_first_guess_hard_mode (R:=binary64_runtime order)
      tie_allowed tie_candidates
    = Ok {["minimax_entropy_hard_mode" := Some g]}
    ∧ pool = l1 ++ g :: l2
    ∧ (∀ h, h ∈ pool → SpecFloat.SFltb (score h) (score g) = false)
    ∧ (∀ h, h ∈ l1 → SpecFloat.SFltb (score g) (score h) = true).
Proof.
  apply (compute_best_first_guess_hard_mode_minimal
           (λ l, reverse (remove_dups l)) tie_allowed tie_candidates);
    [intros l x; rewrite elem_of_reverse; apply elem_of_remove_dups|compute_done..].
Defined.

(** with abccc enumerated last, it is still the word stored *)
Example compute_best_first_guess_hard_mode_tie :
  compute_best_first_guess_hard_mode
    (R:=binary64_runtime (λ l, reverse (remove_dups l))) tie_allowed tie_candidates
  = Ok {["minimax_entropy_hard_mode" := Some "abccc"]}.
Proof. vm_compute. reflexivity. Qed.
